(** * fast-rlm: the recursive orchestration engine, embedded in Rocq

    A shallow embedding of [src/subagents.ts], [src/call_llm.ts],
    [src/usage.ts] and [src/parallel.ts].

    Conventions of the embedding.
    - A JavaScript string is a [string]; every [ascii] stands for one
      code unit, so [length] is the [.length] of the source.
    - Integral JavaScript numbers (token counts, depths, limits, indices)
      are [Z].  The money fields are [JsNum.num]: IEEE 754 doubles, with
      their rounding, their infinities and [NaN].
    - The completion provider and the Python interpreter are collaborators
      of the engine; they are parameters of the definitions. *)

From Stdlib Require Import Floats.
From Stdlib Require Import ZArith List String Ascii Bool Lia QArith.
From Stdlib Require Import Permutation.
From Stdlib Require Import Numbers.DecimalString.
Import ListNotations.

Open Scope string_scope.
Open Scope Z_scope.

(* A decimal literal stands for the nearest double, as in JavaScript. *)
Set Warnings "-inexact-float".

(* ================================================================== *)
(** * Definitions *)
(* ================================================================== *)

(** ** JavaScript strings *)

Module JsString.

(** [text.length] *)
Definition len (s : string) : Z := Z.of_nat (String.length s).

(** Template-literal rendering [`${n}`] of an integral number. *)
Definition of_Z (n : Z) : string := NilZero.string_of_int (Z.to_int n).

(** [s.slice(start)]: a negative [start] counts from the end of [s],
    and the resulting index is clamped to [0 .. s.length]. *)
Definition slice (s : string) (start : Z) : string :=
  let n := len s in
  let from := if start <? 0 then Z.max (n + start) 0 else Z.min start n in
  substring (Z.to_nat from) (Z.to_nat (n - from)) s.

(** The last [n] code units of [s] (the whole of [s] when it is shorter). *)
Definition last_chars (n : nat) (s : string) : string :=
  substring (String.length s - n) n s.

(** [s.startsWith(p)] *)
Fixpoint starts_with (p s : string) : bool :=
  match p, s with
  | EmptyString, _ => true
  | String _ _, EmptyString => false
  | String a p', String b s' => Ascii.eqb a b && starts_with p' s'
  end.

(** [s.includes(p)] *)
Fixpoint includes (p s : string) : bool :=
  starts_with p s ||
  match s with
  | EmptyString => false
  | String _ s' => includes p s'
  end.

(** The line feed and the double quote, which a literal cannot hold. *)
Definition nl : string := String (ascii_of_nat 10) EmptyString.
Definition dq : string := String (ascii_of_nat 34) EmptyString.

(** Every line followed by a line feed. *)
Definition unlines (ls : list string) : string :=
  String.concat "" (map (fun l => l ++ nl) ls).

(** White space and line terminators among the code units below 256. *)
Definition is_space (c : ascii) : bool :=
  let n := nat_of_ascii c in
  ((9 <=? n) && (n <=? 13) || (n =? 32) || (n =? 160))%nat.

Fixpoint trim_start (s : string) : string :=
  match s with
  | EmptyString => EmptyString
  | String c s' => if is_space c then trim_start s' else s
  end.

Fixpoint trim_end (s : string) : string :=
  match s with
  | EmptyString => EmptyString
  | String c s' =>
      match trim_end s' with
      | EmptyString => if is_space c then EmptyString else String c EmptyString
      | t => String c t
      end
  end.

(** [s.trim()] *)
Definition trim (s : string) : string := trim_end (trim_start s).

(** [s] without its first [n] code units. *)
Fixpoint drop (n : nat) (s : string) : string :=
  match n, s with
  | O, _ => s
  | S _, EmptyString => EmptyString
  | S n', String _ s' => drop n' s'
  end.

(** The text before and the text after the first occurrence of [pat]. *)
Fixpoint split_on (pat s : string) : option (string * string) :=
  if starts_with pat s then Some (EmptyString, drop (String.length pat) s)
  else
    match s with
    | EmptyString => None
    | String c s' =>
        match split_on pat s' with
        | Some (before, after) => Some (String c before, after)
        | None => None
        end
    end.

End JsString.

(** ** JavaScript exceptions *)

Module JsError.

(** What a rejected promise or a [catch] clause receives: an [Error] with
    its message, or another value with its [String(...)] rendering. *)
Inductive Thrown : Type :=
| ThrownError (message : string)
| ThrownValue (rendered : string).

(** [e instanceof Error ? e.message : String(e)] *)
Definition as_error (t : Thrown) : string :=
  match t with
  | ThrownError m => m
  | ThrownValue r => r
  end.

(** The result of a call that may throw. *)
Inductive Outcome (A : Type) : Type :=
| Ok (a : A)
| Throw (e : Thrown).
Arguments Ok {A} a.
Arguments Throw {A} e.

End JsError.

(** ** JavaScript numbers of the money fields *)

Module JsNum.

(** A JavaScript number is an IEEE 754 binary64 value: the kernel's
    [float], whose operations round to nearest, ties to even, as those
    of JavaScript do. *)
Definition num : Set := float.
Bind Scope float_scope with num.

Definition NaN : num := nan.
Definition PosInf : num := infinity.
Definition zero : num := PrimFloat.zero.

(** [a + b] *)
Definition add (a b : num) : num := PrimFloat.add a b.

(** [a > b]; every comparison with [NaN] is false. *)
Definition gtb (a b : num) : bool := PrimFloat.ltb b a.

(** [a <= b]; every comparison with [NaN] is false. *)
Definition num_leb (a b : num) : bool := PrimFloat.leb a b.

(** [ToNumber] of a value that is a number or [undefined]. *)
Definition of_optional (v : option num) : num :=
  match v with
  | Some n => n
  | None => NaN
  end.

(** The rational number a double stands for, when it is finite. *)
Definition exact (a : num) : option Q :=
  match Prim2SF a with
  | S754_zero _ => Some 0%Q
  | S754_finite s m e =>
      Some (inject_Z (if s then Z.neg m else Z.pos m) * 2 ^ e)%Q
  | S754_infinity _ | S754_nan => None
  end.

End JsNum.

(** ** [src/usage.ts]: the process-wide usage accountant *)

Module Accountant.
Import JsNum.

(** [interface Usage] of [call_llm.ts]; [cost = None] is [undefined]. *)
Record Usage : Type := mkUsage {
  prompt_tokens : Z;
  completion_tokens : Z;
  total_tokens : Z;
  cached_tokens : Z;
  reasoning_tokens : Z;
  cost : option num
}.

Record ParallelStats : Type := mkParallelStats {
  parallel_batches : Z;
  total_parallel_queries : Z
}.

(** The module-level variables [globalUsage] and [parallelStats]. *)
Record State : Type := mkState {
  globalUsage : Usage;
  parallelStats : ParallelStats
}.

Definition zeroUsage : Usage := mkUsage 0 0 0 0 0 (Some zero).
Definition zeroStats : ParallelStats := mkParallelStats 0 0.

(** The initial value of the module state; also what [resetUsage] stores. *)
Definition initial : State := mkState zeroUsage zeroStats.

(** [trackUsage(usage)] *)
Definition trackUsage (usage : Usage) (st : State) : State :=
  let g := globalUsage st in
  mkState
    (mkUsage
       (prompt_tokens g + prompt_tokens usage)
       (completion_tokens g + completion_tokens usage)
       (total_tokens g + total_tokens usage)
       (cached_tokens g + cached_tokens usage)
       (reasoning_tokens g + reasoning_tokens usage)
       (Some (add (of_optional (cost g)) (of_optional (cost usage)))))
    (parallelStats st).

(** [trackParallelExecution(queryCount)] *)
Definition trackParallelExecution (queryCount : Z) (st : State) : State :=
  let p := parallelStats st in
  mkState (globalUsage st)
    (mkParallelStats (parallel_batches p + 1)
                     (total_parallel_queries p + queryCount)).

(** [getTotalUsage()]: a copy of the accumulator. *)
Definition getTotalUsage (st : State) : Usage :=
  let g := globalUsage st in
  mkUsage (prompt_tokens g) (completion_tokens g) (total_tokens g)
          (cached_tokens g) (reasoning_tokens g) (cost g).

(** [getParallelStats()] *)
Definition getParallelStats (st : State) : ParallelStats :=
  let p := parallelStats st in
  mkParallelStats (parallel_batches p) (total_parallel_queries p).

(** [resetUsage()] *)
Definition resetUsage (_ : State) : State := initial.

(** The deltas of a list, applied first to last. *)
Definition track_all (deltas : list Usage) (st : State) : State :=
  fold_left (fun s u => trackUsage u s) deltas st.

(** The sum of one integral field over a list of deltas. *)
Definition total (field : Usage -> Z) (deltas : list Usage) : Z :=
  fold_right Z.add 0 (map field deltas).

(** The cost after a list of deltas, as the code computes it: the
    costs are added to [start] one by one, in the order of the calls, and
    every sum is rounded; a cost that was not reported counts as [NaN], as
    in [globalUsage.cost += undefined]. *)
Definition running_cost (start : num) (deltas : list Usage) : num :=
  fold_left (fun acc u => add acc (of_optional (cost u))) deltas start.

(** The exact sum of the cost field over a list of deltas, when every
    cost is a finite number. *)
Definition exact_cost (deltas : list Usage) : option Q :=
  fold_right
    (fun u acc =>
       match exact (of_optional (cost u)), acc with
       | Some c, Some s => Some (c + s)%Q
       | _, _ => None
       end)
    (Some 0%Q) deltas.

(** Every integral field of the snapshot [snap] is the sum of that field
    over [deltas]. *)
Definition token_sums (snap : Usage) (deltas : list Usage) : Prop :=
  prompt_tokens snap = total prompt_tokens deltas /\
  completion_tokens snap = total completion_tokens deltas /\
  total_tokens snap = total total_tokens deltas /\
  cached_tokens snap = total cached_tokens deltas /\
  reasoning_tokens snap = total reasoning_tokens deltas.

(** The specification's wording: every field of the snapshot [snap],
    the cost among them, equals the exact sum of that field over
    [deltas]. *)
Definition exact_sum (snap : Usage) (deltas : list Usage) : Prop :=
  token_sums snap deltas /\
  match exact (of_optional (cost snap)), exact_cost deltas with
  | Some c, Some s => (c == s)%Q
  | _, _ => False
  end.

(** No field of a delta is negative: for the cost, [cost < 0] is false,
    which a cost that was not reported satisfies. *)
Definition non_negative (u : Usage) : Prop :=
  0 <= prompt_tokens u /\ 0 <= completion_tokens u /\
  0 <= total_tokens u /\ 0 <= cached_tokens u /\
  0 <= reasoning_tokens u /\ gtb zero (of_optional (cost u)) = false.

(** The cost of [u] is a number that is not negative. *)
Definition cost_not_negative (u : Usage) : Prop :=
  num_leb zero (of_optional (cost u)) = true.

(** No field of [later] is below the same field of [earlier]: for the
    cost, [later < earlier] is false. *)
Definition not_decreased (earlier later : Usage) : Prop :=
  prompt_tokens earlier <= prompt_tokens later /\
  completion_tokens earlier <= completion_tokens later /\
  total_tokens earlier <= total_tokens later /\
  cached_tokens earlier <= cached_tokens later /\
  reasoning_tokens earlier <= reasoning_tokens later /\
  gtb (of_optional (cost earlier)) (of_optional (cost later)) = false.

End Accountant.

(** ** [src/subagents.ts]: the output policy *)

Module Output.
Import JsString.

Definition TRUNCATED_MARKER (T : Z) : string :=
  "[TRUNCATED: Last " ++ of_Z T ++ " chars shown].. ".
Definition EMPTY_MARKER : string := "[EMPTY OUTPUT]".
Definition FULL_MARKER : string := "[FULL OUTPUT SHOWN]... ".

(** [truncateText], with the module constant [TRUNCATE_LEN] as its first
    argument. *)
Definition truncateText (TRUNCATE_LEN : Z) (text : string) : string :=
  if len text >? TRUNCATE_LEN then
    TRUNCATED_MARKER TRUNCATE_LEN ++ slice text (- TRUNCATE_LEN)
  else if len text =? 0 then EMPTY_MARKER
  else FULL_MARKER ++ text.

End Output.

(** ** [src/parallel.ts]: the parallel batch scheduler *)

Module Scheduler.
Import JsString JsError JsNum.

(** How the promise returned by [subagentFn] settles; results are opaque
    values, rendered here as strings. *)
Inductive Settled : Type :=
| Fulfilled (value : string)
| RejectedWith (reason : Thrown).

Record ParallelConfig : Type := mkParallelConfig {
  maxParallelChildren : Z;
  batchWindowMs : Z;
  maxBudget : num;
  currentDepth : Z;
  maxDepth : Z
}.

(** [interface PendingQuery]; the [resolve] and [reject] closures of a
    submission are the handle [promise] of the promise they settle. *)
Record PendingQuery : Type := mkPendingQuery {
  id : string;
  context : string;
  promise : nat;
  queuedAt : Z
}.

Record Stats : Type := mkStats {
  totalQueries : Z;
  parallelBatches : Z;
  sequentialQueries : Z;
  totalParallelQueries : Z
}.

(** The fields of a [ParallelExecutor].  [pendingQueries] is a [Map]:
    entries in insertion order, one per key.  The two callbacks are
    optional; the flags record whether they were supplied. *)
Record Executor : Type := mkExecutor {
  pendingQueries : list (string * PendingQuery);
  batchTimeout : option nat;
  config : ParallelConfig;
  hasOnParallelStart : bool;
  hasOnParallelComplete : bool;
  stats : Stats
}.

(** What the executor does to its surroundings, in order. *)
Inductive Event : Type :=
| SetTimeout (handle : nat) (ms : Z)
| ClearTimeout (handle : nat)
| Invoke (context : string) (parallelGroupId : option string)
| Resolve (promise : nat) (value : string)
| Reject (promise : nat) (message : string)
| OnParallelStart (groupId : string) (count : Z)
| OnParallelComplete (groupId : string) (executionTimeMs : Z)
                     (queryCount : Z).

(** The surroundings of an executor: the readings of [Date.now()] and of
    [Math.random().toString(36).substring(2, 8)], indexed by the number
    of readings taken so far, and the supplied [subagentFn], indexed by
    the number of earlier invocations. *)
Record Runtime : Type := mkRuntime {
  date_now : nat -> Z;
  random36 : nat -> string;
  subagentFn : nat -> string -> option string -> Settled
}.

Record World : Type := mkWorld {
  readings : nat;
  invocations : nat;
  promises : nat;
  timers : nat;
  trace : list Event
}.

Definition initial_world : World := mkWorld 0 0 0 0 [].

Definition emit (e : Event) (w : World) : World :=
  mkWorld (readings w) (invocations w) (promises w) (timers w)
          (trace w ++ [e]).

Definition Date_now (rt : Runtime) (w : World) : Z * World :=
  (date_now rt (readings w),
   mkWorld (S (readings w)) (invocations w) (promises w) (timers w)
           (trace w)).

Definition Math_random36 (rt : Runtime) (w : World) : string * World :=
  (random36 rt (readings w),
   mkWorld (S (readings w)) (invocations w) (promises w) (timers w)
           (trace w)).

(** [generateParallelGroupId()] *)
Definition generateParallelGroupId (rt : Runtime) (w : World)
  : string * World :=
  let '(t, w) := Date_now rt w in
  let '(r, w) := Math_random36 rt w in
  ("pg-" ++ of_Z t ++ "-" ++ r, w).

(** [new ParallelExecutor(config, subagentFn, callbacks)] *)
Definition new_executor (cfg : ParallelConfig) (onStart onComplete : bool)
  : Executor :=
  mkExecutor [] None cfg onStart onComplete (mkStats 0 0 0 0).

(** [Map.prototype.set]: an existing key keeps its place. *)
Fixpoint map_set {V : Type} (k : string) (v : V) (m : list (string * V))
  : list (string * V) :=
  match m with
  | [] => [(k, v)]
  | (k', v') :: m' =>
      if String.eqb k k' then (k, v) :: m' else (k', v') :: map_set k v m'
  end.

Definition with_pending (p : list (string * PendingQuery))
           (t : option nat) (st : Stats) (ex : Executor) : Executor :=
  mkExecutor p t (config ex) (hasOnParallelStart ex)
             (hasOnParallelComplete ex) st.

(** [queueQuery(context)]; returns the handle of the new promise. *)
Definition queueQuery (rt : Runtime) (ctx : string) (ex : Executor)
           (w : World) : nat * Executor * World :=
  let p := promises w in
  let w := mkWorld (readings w) (invocations w) (S (promises w))
                   (timers w) (trace w) in
  let '(t, w) := Date_now rt w in
  let '(r, w) := Math_random36 rt w in
  let qid := "q-" ++ of_Z t ++ "-" ++ r in
  let '(queued, w) := Date_now rt w in
  let pending := map_set qid (mkPendingQuery qid ctx p queued)
                         (pendingQueries ex) in
  let st := stats ex in
  let st := mkStats (totalQueries st + 1) (parallelBatches st)
                    (sequentialQueries st) (totalParallelQueries st) in
  match batchTimeout ex with
  | None =>
      let h := timers w in
      let w := mkWorld (readings w) (invocations w) (promises w)
                       (S (timers w)) (trace w) in
      (p, with_pending pending (Some h) st ex,
       emit (SetTimeout h (batchWindowMs (config ex))) w)
  | Some h => (p, with_pending pending (Some h) st ex, w)
  end.

(** [this.subagentFn(query.context, parallelGroupId)]: the call is made
    and the way its promise settles is obtained. *)
Definition invoke (rt : Runtime) (gid : option string) (q : PendingQuery)
           (w : World) : Settled * World :=
  (subagentFn rt (invocations w) (context q) gid,
   emit (Invoke (context q) gid)
        (mkWorld (readings w) (S (invocations w)) (promises w) (timers w)
                 (trace w))).

(** [query.resolve(value)] or [query.reject(error)] *)
Definition settle (q : PendingQuery) (r : Settled) : Event :=
  match r with
  | Fulfilled v => Resolve (promise q) v
  | RejectedWith e => Reject (promise q) (as_error e)
  end.

(** [batch.map(([id, query]) => this.subagentFn(...))]: every member of
    the batch is invoked, first to last. *)
Fixpoint invoke_all (rt : Runtime) (gid : option string)
         (batch : list (string * PendingQuery)) (w : World)
  : list Settled * World :=
  match batch with
  | [] => ([], w)
  | (_, q) :: rest =>
      let '(r, w) := invoke rt gid q w in
      let '(rs, w) := invoke_all rt gid rest w in
      (r :: rs, w)
  end.

(** [results.forEach((result, i) => ...)] over [batch[i]] *)
Fixpoint settle_all (batch : list (string * PendingQuery))
         (results : list Settled) (w : World) : World :=
  match batch, results with
  | (_, q) :: batch', r :: results' =>
      settle_all batch' results' (emit (settle q r) w)
  | _, _ => w
  end.

(** One turn of [for (const batch of batches)]. *)
Definition run_batch (rt : Runtime) (gid : string)
           (batch : list (string * PendingQuery)) (w : World) : World :=
  let '(results, w) := invoke_all rt (Some gid) batch w in
  settle_all batch results w.

(** [queries.slice(i, j)] for [0 <= i <= j] *)
Definition array_slice {A : Type} (l : list A) (i j : Z) : list A :=
  firstn (Z.to_nat (j - i)) (skipn (Z.to_nat i) l).

(** [for (let i = ...; i < queries.length; i += maxParallel)
       batches.push(queries.slice(i, i + maxParallel))];
    [fuel] bounds the number of turns. *)
Fixpoint make_batches {A : Type} (fuel : nat) (i maxParallel : Z)
         (queries : list A) : list (list A) :=
  match fuel with
  | O => []
  | S fuel' =>
      if i <? Z.of_nat (List.length queries) then
        array_slice queries i (i + maxParallel)
          :: make_batches fuel' (i + maxParallel) maxParallel queries
      else []
  end.

(** [flushBatch()] *)
Definition flushBatch (rt : Runtime) (ex : Executor) (w : World)
  : Executor * World :=
  let queries := pendingQueries ex in
  let ex := with_pending [] None (stats ex) ex in
  match queries with
  | [] => (ex, w)
  | [(_, query)] =>
      let '(startTime, w) := Date_now rt w in
      let st := stats ex in
      let ex := with_pending [] None
                  (mkStats (totalQueries st) (parallelBatches st)
                           (sequentialQueries st + 1)
                           (totalParallelQueries st)) ex in
      let '(r, w) := invoke rt None query w in
      (ex, emit (settle query r) w)
  | _ =>
      let '(startTime, w) := Date_now rt w in
      let n := Z.of_nat (List.length queries) in
      let '(parallelGroupId, w) := generateParallelGroupId rt w in
      let st := stats ex in
      let ex := with_pending [] None
                  (mkStats (totalQueries st) (parallelBatches st + 1)
                           (sequentialQueries st)
                           (totalParallelQueries st + n)) ex in
      let maxParallel :=
        if maxParallelChildren (config ex) >? 0
        then maxParallelChildren (config ex) else n in
      let w := if hasOnParallelStart ex
               then emit (OnParallelStart parallelGroupId
                                          (Z.min n maxParallel)) w
               else w in
      let batches :=
        make_batches (List.length queries) 0 maxParallel queries in
      let w := fold_left (fun w batch => run_batch rt parallelGroupId batch w)
                         batches w in
      let '(endTime, w) := Date_now rt w in
      let executionTimeMs := endTime - startTime in
      let w := if hasOnParallelComplete ex
               then emit (OnParallelComplete parallelGroupId
                                             executionTimeMs n) w
               else w in
      (ex, w)
  end.

(** [flush()] *)
Definition flush (rt : Runtime) (ex : Executor) (w : World)
  : Executor * World :=
  match batchTimeout ex with
  | Some h =>
      flushBatch rt (with_pending (pendingQueries ex) None (stats ex) ex)
                 (emit (ClearTimeout h) w)
  | None => flushBatch rt ex w
  end.

(** [getStats()] *)
Definition getStats (ex : Executor) : Stats * Z :=
  (stats ex, Z.of_nat (List.length (pendingQueries ex))).

(** [resetStats()] *)
Definition resetStats (ex : Executor) : Executor :=
  with_pending (pendingQueries ex) (batchTimeout ex) (mkStats 0 0 0 0) ex.

(** [shouldUseParallelExecution(config)] *)
Definition shouldUseParallelExecution (cfg : ParallelConfig) : bool :=
  if currentDepth cfg >=? maxDepth cfg - 1 then false
  else if num_leb (maxBudget cfg) zero then false
  else true.

(** *** What a flush is expected to leave in the trace *)

(** The events a world gained between two points of a run. *)
Definition new_events (before after : World) : list Event :=
  skipn (List.length (trace before)) (trace after).

Definition is_invoke (e : Event) : bool :=
  match e with Invoke _ _ => true | _ => false end.

Definition is_settlement (e : Event) : bool :=
  match e with Resolve _ _ | Reject _ _ => true | _ => false end.

Definition is_callback (e : Event) : bool :=
  match e with
  | OnParallelStart _ _ | OnParallelComplete _ _ _ => true
  | _ => false
  end.

(** The invocations of the members of a batch, first to last. *)
Definition invokes (gid : option string)
           (batch : list (string * PendingQuery)) : list Event :=
  map (fun kq => Invoke (context (snd kq)) gid) batch.

(** Every member settled by the outcome of its own invocation; [c] is
    the index of the first member's invocation. *)
Fixpoint own_settlements (rt : Runtime) (gid : option string) (c : nat)
         (batch : list (string * PendingQuery)) : list Event :=
  match batch with
  | [] => []
  | (_, q) :: rest =>
      settle q (subagentFn rt c (context q) gid)
        :: own_settlements rt gid (S c) rest
  end.

(** Chunk after chunk: the invocations of a chunk, then its settlements,
    and only then the next chunk. *)
Fixpoint chunk_events (rt : Runtime) (gid : option string) (c : nat)
         (batches : list (list (string * PendingQuery))) : list Event :=
  match batches with
  | [] => []
  | b :: bs =>
      invokes gid b ++ own_settlements rt gid c b
        ++ chunk_events rt gid (c + List.length b) bs
  end.

(** The chunk size [flushBatch] uses for a cohort of [n] members. *)
Definition chunk_size (ex : Executor) (n : Z) : Z :=
  if maxParallelChildren (config ex) >? 0
  then maxParallelChildren (config ex) else n.

(** The chunks [flushBatch] makes of the pending cohort. *)
Definition cohort_batches (ex : Executor)
  : list (list (string * PendingQuery)) :=
  let queries := pendingQueries ex in
  make_batches (List.length queries) 0
               (chunk_size ex (Z.of_nat (List.length queries))) queries.

(** The group id [flushBatch] generates for a cohort drained in [w]: the
    one call of [generateParallelGroupId] after [startTime] is read. *)
Definition cohort_group_id (rt : Runtime) (w : World) : string :=
  fst (generateParallelGroupId rt (snd (Date_now rt w))).

(** [Date.now() - startTime] of a parallel flush begun in [w]. *)
Definition cohort_elapsed (rt : Runtime) (w : World) : Z :=
  date_now rt (readings w + 3) - date_now rt (readings w).

End Scheduler.

(** ** [src/call_llm.ts] and [src/subagents.ts]: the engine *)

Module Engine.
Import JsString JsError JsNum Accountant Output.

(** Results of runs are opaque values, rendered here as strings. *)
Definition Value : Type := string.

(** The constants [subagents.ts] reads from the configuration file. *)
Record Config : Type := mkConfig {
  MAX_CALLS : Z;
  MAX_DEPTH : Z;
  TRUNCATE_LEN : Z;
  PRIMARY_AGENT : string;
  SUB_AGENT : string;
  MAX_MONEY_SPENT : num;
  MAX_COMPLETION_TOKENS : Z;
  MAX_PROMPT_TOKENS : Z;
  API_MAX_RETRIES : Z;
  API_TIMEOUT_MS : Z
}.

(** The values used when the configuration file gives none. *)
Definition default_config : Config :=
  mkConfig 20 3 5000 "z-ai/glm-5" "minimax/minimax-m2.5" PosInf
           50000 200000 3 600000.

(** A transcript entry; [content = None] is a [null] content. *)
Record Message : Type := mkMessage {
  role : string;
  content : option string;
  reasoning : option string
}.

Definition user_message (text : string) : Message :=
  mkMessage "user" (Some text) None.

(** *** The completion provider *)

Record ApiRetryOptions : Type := mkApiRetryOptions {
  maxRetries : option Z;
  timeout : option Z
}.

Definition DEFAULT_MAX_RETRIES : Z := 3.
Definition DEFAULT_TIMEOUT_MS : Z := 30000.

(** The client options and the body of one
    [client.chat.completions.create] call. *)
Record ChatRequest : Type := mkChatRequest {
  client_maxRetries : Z;
  client_timeout : Z;
  model : string;
  messages : list Message
}.

(** [completion.usage], every field of which may be missing. *)
Record RawUsage : Type := mkRawUsage {
  raw_prompt_tokens : option Z;
  raw_completion_tokens : option Z;
  raw_total_tokens : option Z;
  raw_cached_tokens : option Z;
  raw_reasoning_tokens : option Z;
  raw_cost : option num
}.

Record Completion : Type := mkCompletion {
  choice_message : Message;
  completion_usage : option RawUsage
}.

Inductive Reply : Type :=
| Completed (c : Completion)
| ApiFailed (e : Thrown).

Record CodeReturn : Type := mkCodeReturn {
  code : string;
  success : bool;
  message : Message;
  usage : Usage
}.

(** *** The sandbox *)

(** What one [pyodide.runPythonAsync(code)] does, as the engine sees it:
    lines reach the [stdout] callback, [llm_query] is awaited and its
    outcome handed back to the program, and at the end the interpreter
    is left in a state, after normal completion or an exception that the
    program did not handle. *)
Inductive PyRun (S : Type) : Type :=
| PyDone (st : S)
| PyRaise (st : S) (e : Thrown)
| PyPrint (text : string) (k : PyRun S)
| PyQuery (ctx : string) (k : Outcome Value -> PyRun S).
Arguments PyDone {S} st.
Arguments PyRaise {S} st e.
Arguments PyPrint {S} text k.
Arguments PyQuery {S} ctx k.

(** The collaborators of the engine and the library functions it calls.
    [create] is indexed by the number of requests made before; the two
    prompts are the constants of [prompt.ts]. *)
Record Runtime : Type := mkRuntime {
  PyState : Type;
  loadPyodide : PyState;
  runPythonAsync : PyState -> string -> PyRun PyState;
  final_result_set : PyState -> bool;
  final_result : PyState -> Value;
  create : nat -> ChatRequest -> Reply;
  SYSTEM_PROMPT : string;
  LEAF_AGENT_SYSTEM_PROMPT : string;
  JSON_stringify : string -> string;
  toFixed4 : num -> string;
  number_toString : num -> string;
  toLocaleString : Z -> string
}.

(** *** What a run leaves behind *)

(** The argument of [logger.logStep], with the running total that
    [logStep] adds; the time stamps are left out. *)
Record StepData : Type := mkStepData {
  step : Z;
  step_code : string;
  output : option string;
  hasError : option bool;
  step_reasoning : option string;
  step_usage : Usage;
  totalUsage : Usage
}.

(** The [depth] of a [Request] is that of the run that made the call. *)
Inductive Event : Type :=
| AgentStart (run : nat) (depth : Z) (parent : option nat)
| Request (depth : Z) (req : ChatRequest)
| ApiCallFailed (message : string)
| Step (run : nat) (depth : Z) (data : StepData)
| FinalResult (run : nat) (depth : Z) (result : Value)
| AgentEnd (run : nat)
| LlmQueryCalled (run : nat).

(** The state shared by all runs of a process: the accountant of
    [usage.ts], the number of provider requests made, the number of run
    ids issued, and the log. *)
Record World : Type := mkWorld {
  accountant : Accountant.State;
  requests : nat;
  runs : nat;
  log : list Event
}.

Definition initial_world : World := mkWorld Accountant.initial 0 0 [].

Definition emit (e : Event) (w : World) : World :=
  mkWorld (accountant w) (requests w) (runs w) (log w ++ [e]).

Definition track (u : Usage) (w : World) : World :=
  mkWorld (trackUsage u (accountant w)) (requests w) (runs w) (log w).

(** The variables of one run of [subagent]. *)
Record Run (S : Type) : Type := mkRun {
  transcript : list Message;
  stdoutBuffer : string;
  py : S
}.
Arguments mkRun {S} transcript stdoutBuffer py.
Arguments transcript {S} r.
Arguments stdoutBuffer {S} r.
Arguments py {S} r.

(** How one turn of the loop of [subagent] ends. *)
Inductive Turn (S : Type) : Type :=
| Continue (r : Run S)
| Return (result : Value)
| Raise (e : Thrown).
Arguments Continue {S} r.
Arguments Return {S} result.
Arguments Raise {S} e.

(** *** [call_llm.ts] *)

(** The bodies of the matches of the pattern that recognises a fenced
    [repl] block, first to last; [fuel] bounds the number of matches. *)
Fixpoint repl_matches (fuel : nat) (s : string) : list string :=
  match fuel with
  | O => []
  | S fuel' =>
      match split_on "```repl" s with
      | None => []
      | Some (_, after) =>
          match split_on "```" after with
          | None => []
          | Some (body, rest) => body :: repl_matches fuel' rest
          end
      end
  end.

(** [replMatches.map(m => m[1].trim()).join("\n")] *)
Definition extract_code (text : string) : string :=
  String.concat nl (map trim (repl_matches (String.length text) text)).

(** [x ?? 0] *)
Definition or_zero (x : option Z) : Z :=
  match x with Some z => z | None => 0 end.

Definition usage_of (raw : option RawUsage) : Usage :=
  match raw with
  | Some u =>
      mkUsage (or_zero (raw_prompt_tokens u))
              (or_zero (raw_completion_tokens u))
              (or_zero (raw_total_tokens u))
              (or_zero (raw_cached_tokens u))
              (or_zero (raw_reasoning_tokens u))
              (raw_cost u)
  | None => mkUsage 0 0 0 0 0 None
  end.

Section Engine.
Context (cfg : Config) (rt : Runtime).

(** The request [generate_code] sends. *)
Definition chat_request (msgs : list Message) (model_name : string)
           (is_leaf_agent : bool) (options : ApiRetryOptions)
  : ChatRequest :=
  mkChatRequest
    (match maxRetries options with
     | Some n => n | None => DEFAULT_MAX_RETRIES end)
    (match timeout options with
     | Some n => n | None => DEFAULT_TIMEOUT_MS end)
    model_name
    (mkMessage "system"
       (Some (if is_leaf_agent then LEAF_AGENT_SYSTEM_PROMPT rt
              else SYSTEM_PROMPT rt))
       None
     :: msgs).

(** [generate_code(messages, model_name, is_leaf_agent, options)];
    [depth] is only recorded with the request in the log. *)
Definition generate_code (depth : Z) (msgs : list Message)
           (model_name : string) (is_leaf_agent : bool)
           (options : ApiRetryOptions) (w : World)
  : Outcome CodeReturn * World :=
  let req := chat_request msgs model_name is_leaf_agent options in
  let reply := create rt (requests w) req in
  let w := emit (Request depth req)
                (mkWorld (accountant w) (S (requests w)) (runs w)
                         (log w)) in
  match reply with
  | ApiFailed e => (Throw e, emit (ApiCallFailed (as_error e)) w)
  | Completed completion =>
      let text :=
        match content (choice_message completion) with
        | Some t => t | None => "" end in
      let code := extract_code text in
      let usage := usage_of (completion_usage completion) in
      if String.eqb code "" then
        (Ok (mkCodeReturn "" false (choice_message completion) usage), w)
      else
        (Ok (mkCodeReturn code true (choice_message completion) usage), w)
  end.

(** *** [subagents.ts] *)

Definition DEPTH_MESSAGE : string :=
  "MAXIMUM DEPTH REACHED. You must solve this task on your own without calling llm_query.".

(** What [llm_query] adds to [stdoutBuffer] at the depth limit. *)
Definition DEPTH_MARKER : string :=
  nl ++ "Error: " ++ DEPTH_MESSAGE ++ nl.

Definition setup_code (context : string) : string :=
  nl ++ unlines
    [ "context = " ++ JSON_stringify rt context;
      "__final_result__ = None";
      "__final_result_set__ = False";
      "";
      "def FINAL(x):";
      "    global __final_result__, __final_result_set__";
      "    __final_result__ = x";
      "    __final_result_set__ = True";
      "";
      "def FINAL_VAR(x):";
      "    global __final_result__, __final_result_set__";
      "    __final_result__ = x";
      "    __final_result_set__ = True" ].

Definition initial_code : string :=
  nl ++ unlines
    [ "print(" ++ dq ++ "Context type: " ++ dq ++ ", type(context))";
      "print(f" ++ dq
        ++ "Context length: {len(context) if hasattr(context, '__len__') else 'N/A'}"
        ++ dq ++ ")";
      "";
      "if len(context) > 500:";
      "    print(f" ++ dq ++ "First 500 characters of str(context): " ++ dq
        ++ ", str(context)[:500])";
      "    print(" ++ dq ++ "---" ++ dq ++ ")";
      "    print(f" ++ dq ++ "Last 500 characters of str(context): " ++ dq
        ++ ", str(context)[-500:])";
      "else:";
      "    print(f" ++ dq ++ "Context: " ++ dq ++ ", context)" ].

(** The first message of a transcript. *)
Definition first_message (buffer : string) : Message :=
  user_message
    (nl ++ "Outputs will always be truncated to last "
        ++ of_Z (TRUNCATE_LEN cfg) ++ " characters." ++ nl
        ++ "code:" ++ nl ++ "```repl" ++ nl ++ initial_code ++ nl
        ++ "```" ++ nl ++ nl
        ++ "Output:" ++ nl ++ trim buffer ++ nl ++ "    ").

Definition noUsage : Usage := mkUsage 0 0 0 0 0 None.

Definition CORRECTIVE_MESSAGE : Message :=
  user_message
    "Error: We could not extract code because you may not have used repl block!".

Definition DID_NOT_FINISH : Thrown :=
  ThrownError "Did not finish the function stack before subagent died".

(** The three ceilings, checked in the order of the source; the result
    is the error thrown, if any. *)
Definition check_budget (total : Usage) : option Thrown :=
  if match cost total with
     | Some c => gtb c (MAX_MONEY_SPENT cfg)
     | None => false
     end
  then Some (ThrownError
               ("Budget exceeded: $" ++ toFixed4 rt (of_optional (cost total))
                ++ " spent, limit is $"
                ++ number_toString rt (MAX_MONEY_SPENT cfg)))
  else if completion_tokens total >? MAX_COMPLETION_TOKENS cfg
  then Some (ThrownError
               ("Completion token budget exceeded: "
                ++ toLocaleString rt (completion_tokens total)
                ++ " tokens used, limit is "
                ++ toLocaleString rt (MAX_COMPLETION_TOKENS cfg)))
  else if prompt_tokens total >? MAX_PROMPT_TOKENS cfg
  then Some (ThrownError
               ("Prompt token budget exceeded: "
                ++ toLocaleString rt (prompt_tokens total)
                ++ " tokens used, limit is "
                ++ toLocaleString rt (MAX_PROMPT_TOKENS cfg)))
  else None.

(** [logger.logStep(data)]: the running total is added. *)
Definition logStep (run : nat) (depth : Z) (i : Z) (code : string)
           (output : option string) (hasError : option bool)
           (reasoning : option string) (usage : Usage) (w : World)
  : World :=
  emit (Step run depth
             (mkStepData i code output hasError reasoning usage
                         (getTotalUsage (accountant w))))
       w.

(** A run one level down, as [llm_query] starts it. *)
Definition ChildRun : Type :=
  string -> Z -> option nat -> World -> Outcome Value * World.

(** [llm_query(context)] of the run [run_id] at [subagent_depth];
    [buffer] is the [stdoutBuffer] of that run. *)
Definition llm_query (child : ChildRun) (subagent_depth : Z)
           (run_id : nat) (context : string) (buffer : string)
           (w : World) : Outcome Value * string * World :=
  if subagent_depth >=? MAX_DEPTH cfg then
    (Throw (ThrownError DEPTH_MESSAGE), buffer ++ DEPTH_MARKER, w)
  else
    let w := emit (LlmQueryCalled run_id) w in
    let '(output, w) := child context (subagent_depth + 1) (Some run_id) w in
    (output, buffer, w).

(** [await pyodide.runPythonAsync(code)] with [llm_query] bound: the
    final interpreter state, the exception that escaped if any, the
    buffer and the world. *)
Fixpoint run_python
         (query : string -> string -> World -> Outcome Value * string * World)
         (p : PyRun (PyState rt)) (buffer : string) (w : World)
  : PyState rt * option Thrown * string * World :=
  match p with
  | PyDone st => (st, None, buffer, w)
  | PyRaise st e => (st, Some e, buffer, w)
  | PyPrint text k => run_python query k (buffer ++ text ++ nl) w
  | PyQuery ctx k =>
      let '(r, buffer, w) := query ctx buffer w in
      run_python query (k r) buffer w
  end.

(** The [catch] clause around the execution of generated code. *)
Definition fold_error (buffer : string) (raised : option Thrown) : string :=
  match raised with
  | Some e => buffer ++ nl ++ "Error: " ++ as_error e ++ " "
  | None => buffer
  end.

Definition retry_options : ApiRetryOptions :=
  mkApiRetryOptions (Some (API_MAX_RETRIES cfg)) (Some (API_TIMEOUT_MS cfg)).

(** One turn [i] of the loop of [subagent]. *)
Definition turn (child : ChildRun) (subagent_depth : Z) (run_id : nat)
           (i : Z) (r : Run (PyState rt)) (w : World)
  : Turn (PyState rt) * World :=
  let model_name :=
    if subagent_depth =? 0 then PRIMARY_AGENT cfg else SUB_AGENT cfg in
  let is_leaf_agent := subagent_depth =? MAX_DEPTH cfg in
  let '(generated, w) :=
    generate_code subagent_depth (transcript r) model_name is_leaf_agent
                  retry_options w in
  match generated with
  | Throw e => (Raise e, w)
  | Ok g =>
      let msgs := (transcript r ++ [message g])%list in
      let w := track (usage g) w in
      match check_budget (getTotalUsage (accountant w)) with
      | Some e => (Raise e, w)
      | None =>
          if negb (success g) then
            let w := logStep run_id subagent_depth (i + 1) (code g)
                             None None (reasoning (message g)) (usage g) w in
            (Continue (mkRun (msgs ++ [CORRECTIVE_MESSAGE])%list
                             (stdoutBuffer r) (py r)), w)
          else
            let '(st, raised, buffer, w) :=
              run_python (llm_query child subagent_depth run_id)
                         (runPythonAsync rt (py r) (code g)) "" w in
            let buffer := fold_error buffer raised in
            let truncatedText := truncateText (TRUNCATE_LEN cfg) buffer in
            if final_result_set rt st then
              let w := logStep run_id subagent_depth (i + 1) (code g)
                               None None (reasoning (message g))
                               (usage g) w in
              let result := final_result rt st in
              let w := emit (FinalResult run_id subagent_depth result) w in
              let w := emit (AgentEnd run_id) w in
              (Return result, w)
            else
              let hasError := includes "Error" buffer in
              let w := logStep run_id subagent_depth (i + 1) (code g)
                               (Some truncatedText) (Some hasError)
                               (reasoning (message g)) (usage g) w in
              (Continue
                 (mkRun (msgs ++ [user_message
                                    ("Output: " ++ nl ++ truncatedText)%string])%list
                        buffer st), w)
      end
  end.

(** [for (let i = 0; i < MAX_CALLS; i++)] from turn [i] on, with
    [remaining] turns to go, and what follows the loop. *)
Fixpoint turns (child : ChildRun) (subagent_depth : Z) (run_id : nat)
         (remaining : nat) (i : Z) (r : Run (PyState rt)) (w : World)
  : Outcome Value * World :=
  match remaining with
  | O => (Throw DID_NOT_FINISH, emit (AgentEnd run_id) w)
  | S remaining' =>
      match turn child subagent_depth run_id i r w with
      | (Continue r', w') =>
          turns child subagent_depth run_id remaining' (i + 1) r' w'
      | (Return result, w') => (Ok result, w')
      | (Raise e, w') => (Throw e, w')
      end
  end.

(** The body of [subagent], with the runs one level down as [child]. *)
Definition subagent_body (child : ChildRun) (context : string)
           (subagent_depth : Z) (parent_run_id : option nat) (w : World)
  : Outcome Value * World :=
  let run_id := runs w in
  let w := emit (AgentStart run_id subagent_depth parent_run_id)
                (mkWorld (accountant w) (requests w) (S (runs w))
                         (log w)) in
  let query := llm_query child subagent_depth run_id in
  let '(st, raised, _, w) :=
    run_python query (runPythonAsync rt (loadPyodide rt)
                                     (setup_code context)) "" w in
  match raised with
  | Some e => (Throw e, w)
  | None =>
      let '(st, raised, buffer, w) :=
        run_python query (runPythonAsync rt st initial_code) "" w in
      match raised with
      | Some e => (Throw e, w)
      | None =>
          let w := logStep run_id subagent_depth 0 initial_code
                           (Some (trim buffer)) (Some false) None
                           noUsage w in
          turns child subagent_depth run_id (Z.to_nat (MAX_CALLS cfg)) 0
                (mkRun [first_message buffer] buffer st) w
      end
  end.

(** Below the deepest level nothing is ever started. *)
Definition no_run : ChildRun :=
  fun _ _ _ w => (Throw (ThrownError "no such level"), w).

(** [subagent] with [levels] levels of runs available. *)
Fixpoint subagent_levels (levels : nat) : ChildRun :=
  match levels with
  | O => no_run
  | S levels' => subagent_body (subagent_levels levels')
  end.

(** The levels a run at [subagent_depth] can reach: its own and one
    for every depth up to [MAX_DEPTH]. *)
Definition levels_below (subagent_depth : Z) : nat :=
  S (Z.to_nat (MAX_DEPTH cfg - subagent_depth)).

(** [subagent(context, subagent_depth, parent_run_id)] *)
Definition subagent (context : string) (subagent_depth : Z)
           (parent_run_id : option nat) (w : World)
  : Outcome Value * World :=
  subagent_levels (levels_below subagent_depth) context subagent_depth
                  parent_run_id w.

(** *** Names for the parts of a turn *)

(** The model call that opens a turn of the run [r] at [subagent_depth]. *)
Definition model_call (subagent_depth : Z) (r : Run (PyState rt))
           (w : World) : Outcome CodeReturn * World :=
  generate_code subagent_depth (transcript r)
    (if subagent_depth =? 0 then PRIMARY_AGENT cfg else SUB_AGENT cfg)
    (subagent_depth =? MAX_DEPTH cfg) retry_options w.

(** The total the accountant shows once the usage of [g] is tracked. *)
Definition total_after (g : CodeReturn) (w : World) : Usage :=
  getTotalUsage (accountant (track (usage g) w)).

(** One of the three ceilings is exceeded by [total]. *)
Definition over_a_ceiling (total : Usage) : Prop :=
  (exists c, cost total = Some c /\ gtb c (MAX_MONEY_SPENT cfg) = true) \/
  completion_tokens total > MAX_COMPLETION_TOKENS cfg \/
  prompt_tokens total > MAX_PROMPT_TOKENS cfg.

(** The system prompt that goes with a depth. *)
Definition prompt_for (depth : Z) : string :=
  if depth =? MAX_DEPTH cfg then LEAF_AGENT_SYSTEM_PROMPT rt
  else SYSTEM_PROMPT rt.

(** A logged request carries, as its first message, the system prompt
    that goes with the depth of the run that made it. *)
Definition request_ok (e : Event) : Prop :=
  match e with
  | Request depth req =>
      exists rest,
        messages req
          = mkMessage "system" (Some (prompt_for depth)) None :: rest
  | _ => True
  end.

(** From [w] to [w'] the log only gained events, all of them with the
    right prompt. *)
Definition grows (w w' : World) : Prop :=
  exists events,
    log w' = (log w ++ events)%list /\ Forall request_ok events.

(** Two families of runs that do the same at one depth. *)
Definition same_at (depth : Z) (c1 c2 : ChildRun) : Prop :=
  forall context parent w, c1 context depth parent w = c2 context depth parent w.

End Engine.

End Engine.

(** ** A root run whose one child runs out of budget *)

Module EngineScenario.
Import JsString JsError JsNum Accountant Output Engine.

(** The interpreter state is the final value, once one is set.  A
    program that mentions [llm_query] awaits one child and makes the
    child's result, or a note of its failure, the final value; the
    priming code prints one line; other printing code prints a line
    with the word "Error" in it; anything else does nothing. *)
Definition interpreter (st : option Value) (code : string)
  : PyRun (option Value) :=
  if includes "llm_query" code then
    PyQuery "count the words"
      (fun r =>
         match r with
         | Ok v => PyDone (Some v)
         | Throw e => PyDone (Some ("child failed: " ++ as_error e))
         end)
  else if includes "Context type" code then
    PyPrint "Context type:  <class 'str'>" (PyDone st)
  else if includes "print" code then
    PyPrint "Error rate: 0" (PyDone st)
  else PyDone st.

Definition fenced (code : string) : string :=
  "```repl" ++ nl ++ code ++ nl ++ "```".

Definition reply (text : string) (completion : Z) : Reply :=
  Completed
    (mkCompletion
       (mkMessage "assistant" (Some text) None)
       (Some (mkRawUsage (Some 100) (Some completion)
                         (Some (100 + completion)) None None
                         (Some 0.01%float)))).

(** The program a root run may be given: it awaits one child and makes
    the child's result, or a note of its failure, the final value. *)
Definition spawning_code : string :=
  String.concat nl
    [ "try:";
      "    result = await llm_query('count the words')";
      "except Exception as e:";
      "    result = 'child failed: ' + str(e)";
      "FINAL(result)" ].

(** The first request is answered with the spawning program, the later
    ones with prose and a large bill. *)
Definition provider (n : nat) (_ : ChatRequest) : Reply :=
  match n with
  | O => reply (fenced spawning_code) 50
  | S _ => reply "Let me think about this." 60000
  end.

(** Every request is answered with prose and a large bill. *)
Definition prose_provider (_ : nat) (_ : ChatRequest) : Reply :=
  reply "Let me think about this." 60000.


Definition runtime_with (answers : nat -> ChatRequest -> Reply) : Runtime :=
  mkRuntime (option Value) None interpreter
            (fun st => match st with Some _ => true | None => false end)
            (fun st => match st with Some v => v | None => "" end)
            answers
            "You write Python in a REPL and may call llm_query."
            "You write Python in a REPL and must answer on your own."
            (fun s => dq ++ s ++ dq)
            (fun _ => "0.0100") (fun _ => "Infinity") of_Z.

Definition runtime : Runtime := runtime_with provider.
Definition prose_runtime : Runtime := runtime_with prose_provider.

(** The defaults, with room for the large bill. *)
Definition roomy_config : Config :=
  mkConfig 20 3 5000 "z-ai/glm-5" "minimax/minimax-m2.5" PosInf
           100000 200000 3 600000.

(** A run of the root in its loop, after the priming step. *)
Definition a_run : Run (option Value) :=
  mkRun [user_message "Output:"] "" None.

(** The process once the root run has its id. *)
Definition started : World := mkWorld Accountant.initial 0 1 [].

(** The numbers of the steps in a log. *)
Definition step_numbers (events : list Event) : list Z :=
  flat_map (fun e => match e with Step _ _ d => [step d] | _ => [] end) events.

End EngineScenario.

(** ** A cohort of three, two at a time *)

Module SchedulerScenario.
Import JsString JsError Scheduler.

(** The clock advances by one millisecond per reading; a member whose
    context mentions [fail] is rejected, the others are fulfilled. *)
Definition runtime : Runtime :=
  mkRuntime
    (fun n => 1000 + Z.of_nat n)
    (fun _ => "k3x9q1")
    (fun _ ctx _ =>
       if includes "fail" ctx
       then RejectedWith (ThrownError "Intentional failure")
       else Fulfilled ("Success: " ++ ctx)).

Definition executor : Executor :=
  new_executor (mkParallelConfig 2 100 1 0 3) true true.

(** [queueQuery] for every context of a list, first to last. *)
Definition queue_all (ctxs : list string) (ex : Executor) (w : World)
  : Executor * World :=
  fold_left
    (fun exw ctx =>
       let '(_, ex, w) := queueQuery runtime ctx (fst exw) (snd exw) in
       (ex, w))
    ctxs (ex, w).

Definition three_queued : Executor * World :=
  queue_all ["success 1"; "fail please"; "success 2"] executor initial_world.

Definition one_queued : Executor * World :=
  queue_all ["Single query test"] executor initial_world.

(** The same three queries in an executor that was given
    [onParallelComplete] but not [onParallelStart]. *)
Definition three_queued_one_callback : Executor * World :=
  queue_all ["success 1"; "fail please"; "success 2"]
            (new_executor (mkParallelConfig 2 100 1 0 3) false true)
            initial_world.

End SchedulerScenario.


(** ** Sequences of calls to [src/usage.ts] *)

Module AccountantOps.
Import JsNum Accountant.

(** One call of an exported function that changes the module state. *)
Inductive Op : Type :=
| Track (usage : Usage)
| TrackParallel (queryCount : Z)
| Reset.

Definition apply (o : Op) (st : State) : State :=
  match o with
  | Track u => trackUsage u st
  | TrackParallel n => trackParallelExecution n st
  | Reset => resetUsage st
  end.

(** The calls of a list, made first to last. *)
Definition run (ops : list Op) (st : State) : State :=
  fold_left (fun s o => apply o s) ops st.

(** The deltas and the query counts among the calls, in order. *)
Definition usages (ops : list Op) : list Usage :=
  flat_map (fun o => match o with Track u => [u] | _ => [] end) ops.

Definition counts (ops : list Op) : list Z :=
  flat_map (fun o => match o with TrackParallel n => [n] | _ => [] end) ops.

Definition has_reset (ops : list Op) : bool :=
  existsb (fun o => match o with Reset => true | _ => false end) ops.

(** The five token counts of two snapshots are the same. *)
Definition same_tokens (a b : Usage) : Prop :=
  prompt_tokens a = prompt_tokens b /\
  completion_tokens a = completion_tokens b /\
  total_tokens a = total_tokens b /\
  cached_tokens a = cached_tokens b /\
  reasoning_tokens a = reasoning_tokens b.

End AccountantOps.

(** ** Sequences of calls to a [ParallelExecutor] *)

Module SchedulerOps.
Import JsString JsError Scheduler.

(** [queueQuery] for every context of a list, first to last. *)
Definition queue_each (rt : Runtime) (ctxs : list string) (ex : Executor)
           (w : World) : Executor * World :=
  fold_left
    (fun exw ctx =>
       let '(_, ex, w) := queueQuery rt ctx (fst exw) (snd exw) in (ex, w))
    ctxs (ex, w).

(** The id [queueQuery] gives to a query submitted in [w]. *)
Definition next_query_id (rt : Runtime) (w : World) : string :=
  "q-" ++ of_Z (date_now rt (readings w)) ++ "-"
       ++ random36 rt (S (readings w)).

(** The promises settled in a trace, in the order of their settlement. *)
Definition settled_promises (events : list Event) : list nat :=
  flat_map
    (fun e =>
       match e with
       | Resolve p _ | Reject p _ => [p]
       | _ => []
       end)
    events.

Definition pending_promises (ex : Executor) : list nat :=
  map (fun kq => promise (snd kq)) (pendingQueries ex).

(** The delays of the timers armed in a trace. *)
Definition timers_armed (events : list Event) : list Z :=
  flat_map (fun e => match e with SetTimeout _ ms => [ms] | _ => [] end)
           events.

(** The largest number of invocations that are made and not yet settled
    at some point of a trace, starting with [current] of them. *)
Fixpoint peak_in_flight (events : list Event) (current : nat) : nat :=
  match events with
  | [] => current
  | e :: rest =>
      let next :=
        match e with
        | Invoke _ _ => S current
        | Resolve _ _ | Reject _ _ => Nat.pred current
        | _ => current
        end in
      Nat.max current (peak_in_flight rest next)
  end.

(** What can happen to an executor: a submission, the batch timer firing,
    or an explicit flush. *)
Inductive Op : Type :=
| Submit (context : string)
| TimerFires
| Flush.

Definition apply (rt : Runtime) (o : Op) (exw : Executor * World)
  : Executor * World :=
  match o with
  | Submit ctx =>
      let '(_, ex, w) := queueQuery rt ctx (fst exw) (snd exw) in (ex, w)
  | TimerFires => flushBatch rt (fst exw) (snd exw)
  | Flush => flush rt (fst exw) (snd exw)
  end.

Definition run (rt : Runtime) (ops : list Op) (exw : Executor * World)
  : Executor * World :=
  fold_left (fun s o => apply rt o s) ops exw.

(** The queries the statistics account for: executed alone, executed in a
    cohort, or still pending. *)
Definition accounted (ex : Executor) : Z :=
  sequentialQueries (stats ex) + totalParallelQueries (stats ex)
  + Z.of_nat (List.length (pendingQueries ex)).

(** A clock that stands still and a random source that repeats itself:
    every query gets the same id. *)
Definition stuck_runtime : Runtime :=
  mkRuntime (fun _ => 1000) (fun _ => "aaaaaa")
            (fun _ ctx _ => Fulfilled ctx).

End SchedulerOps.

(** ** More about traces of a [ParallelExecutor] *)

Module SchedulerObs.
Import JsString JsError Scheduler SchedulerOps.

(** The number of invocations made and not yet settled at the end of a
    trace that starts with [current] of them. *)
Fixpoint in_flight_after (events : list Event) (current : nat) : nat :=
  match events with
  | [] => current
  | e :: rest =>
      in_flight_after rest
        match e with
        | Invoke _ _ => S current
        | Resolve _ _ | Reject _ _ => Nat.pred current
        | _ => current
        end
  end.

(** The ids of [n] queries submitted one after the other from [w] on:
    every submission takes three readings. *)
Definition ids_from (rt : Runtime) (w : World) (n : nat) : list string :=
  map (fun i =>
         "q-" ++ of_Z (date_now rt (readings w + 3 * i)) ++ "-"
              ++ random36 rt (S (readings w + 3 * i)))
      (seq 0 n).

End SchedulerObs.

(** ** More about runs of the engine *)

Module EngineObs.
Import JsString JsError JsNum Accountant Output Engine.

(** The numbers of the steps that runs at [depth] put in a log. *)
Definition steps_at (depth : Z) (events : list Event) : list Z :=
  flat_map
    (fun e =>
       match e with
       | Step _ d data => if d =? depth then [step data] else []
       | _ => []
       end)
    events.

(** The requests that runs at [depth] put in a log. *)
Definition requests_at (depth : Z) (events : list Event) : list ChatRequest :=
  flat_map
    (fun e =>
       match e with
       | Request d req => if d =? depth then [req] else []
       | _ => []
       end)
    events.

(** The depth an event carries, if it carries one. *)
Definition depth_of (e : Event) : option Z :=
  match e with
  | AgentStart _ d _ | Request d _ | Step _ d _ | FinalResult _ d _ => Some d
  | ApiCallFailed _ | AgentEnd _ | LlmQueryCalled _ => None
  end.

(** [event_type] of the record [Logger.logStep] of [logging.ts] writes
    for a step: the choice is made on [output !== undefined]. *)
Definition event_type (data : StepData) : string :=
  match output data with
  | Some _ => "execution_result"
  | None => "code_generated"
  end.

(** The totals of the two token counters that have a ceiling. *)
Definition prompt_total (w : World) : Z :=
  prompt_tokens (getTotalUsage (accountant w)).
Definition completion_total (w : World) : Z :=
  completion_tokens (getTotalUsage (accountant w)).

(** A token ceiling is exceeded in [w]. *)
Definition over_token_ceiling (cfg : Config) (w : World) : Prop :=
  completion_total w > MAX_COMPLETION_TOKENS cfg \/
  prompt_total w > MAX_PROMPT_TOKENS cfg.

(** The provider never reports a negative number of prompt or completion
    tokens. *)
Definition reports_no_negative_tokens (rt : Runtime) : Prop :=
  forall n req c,
    create rt n req = Completed c ->
    0 <= prompt_tokens (usage_of (completion_usage c)) /\
    0 <= completion_tokens (usage_of (completion_usage c)).

(** No code unit of [s] is a backtick. *)
Definition no_backtick (s : string) : Prop := includes "`" s = false.

(** From [w] to [w'] the log only gained events, all of them of a
    kind. *)
Definition gains_of (kind : Event -> Prop) (w w' : World) : Prop :=
  exists events, log w' = (log w ++ events)%list /\ Forall kind events.

(** The runs one level down only add events of a kind, at the depths
    they can be started at. *)
Definition child_gains_of (at_depth : Z -> Prop) (kind : Event -> Prop)
           (child : ChildRun) : Prop :=
  forall c d p w0, at_depth d -> gains_of kind w0 (snd (child c d p w0)).

(** The defaults, without any step. *)
Definition no_step_config : Config :=
  mkConfig 0 3 5000 "z-ai/glm-5" "minimax/minimax-m2.5" PosInf
           50000 200000 3 600000.

End EngineObs.

(** ** Token totals along a run *)

Module EngineTotals.
Import JsString JsError JsNum Accountant Output Engine EngineObs.

(** Neither token total with a ceiling is lower in [w'] than in [w]. *)
Definition tokens_le (w w' : World) : Prop :=
  prompt_total w <= prompt_total w' /\
  completion_total w <= completion_total w'.

(** The runs one level down never lower a token total, and return no
    value when started above a token ceiling. *)
Definition child_sound (cfg : Config) (child : ChildRun) : Prop :=
  forall c d p w0,
    tokens_le w0 (snd (child c d p w0)) /\
    (over_token_ceiling cfg w0 -> forall v, fst (child c d p w0) <> Ok v).

(** The process after a bill of 60000 completion tokens. *)
Definition over_budget_world : World :=
  track (mkUsage 100 60000 60100 0 0 (Some 0.01%float)) initial_world.

End EngineTotals.

(** ** The steps and requests of one run *)

Module EngineSteps.
Import JsString JsError JsNum Accountant Output Engine EngineObs.

(** From [w] to [w'] the log gained events among which the runs at
    [depth] logged the steps [steps] and made [n] requests. *)
Definition adds (depth : Z) (w w' : World) (steps : list Z) (n : nat)
  : Prop :=
  exists events,
    log w' = (log w ++ events)%list /\
    steps_at depth events = steps /\
    List.length (requests_at depth events) = n.

(** The runs started one level below [depth] log nothing at [depth]. *)
Definition child_quiet (depth : Z) (child : ChildRun) : Prop :=
  forall c p w0, adds depth w0 (snd (child c (depth + 1) p w0)) [] 0.

(** The numbers [first], [first + 1], ... of [count] steps. *)
Definition step_range (first count : nat) : list Z :=
  map Z.of_nat (seq first count).

End EngineSteps.

(* ================================================================== *)
(** * Theorems *)
(* ================================================================== *)

Module JsStringFacts.
Import JsString.

Lemma substring_all (s : string) : substring 0 (String.length s) s = s.
Proof. induction s as [|a s IH]; simpl; [reflexivity | now rewrite IH]. Qed.

Lemma substring_nothing (n : nat) (s : string) : substring n 0 s = "".
Proof.
  revert s. induction n as [|n IH]; intros [|a s]; simpl; auto.
Qed.

Lemma slice_zero (s : string) : slice s 0 = s.
Proof.
  unfold slice, len. simpl (0 <? 0).
  rewrite Z.min_l by lia. rewrite Z.sub_0_r, Nat2Z.id. apply substring_all.
Qed.

Lemma slice_neg_last (s : string) (T : Z) :
  0 < T -> T <= len s -> slice s (- T) = last_chars (Z.to_nat T) s.
Proof.
  intros HT Hle. unfold slice, last_chars, len in *.
  destruct (Z.ltb_spec (- T) 0) as [_|]; [|lia].
  rewrite Z.max_l by lia.
  f_equal; lia.
Qed.

Lemma length_last_chars (n : nat) (s : string) :
  (n <= String.length s)%nat -> String.length (last_chars n s) = n.
Proof.
  unfold last_chars. intros H.
  remember (String.length s - n)%nat as k eqn:Hk.
  assert (Hlen : String.length s = (k + n)%nat) by lia.
  clear Hk H. revert s Hlen.
  induction k as [|k IH]; intros s Hlen.
  - simpl in Hlen. subst n. now rewrite substring_all.
  - destruct s as [|a s]; simpl in *; [lia|]. apply IH. lia.
Qed.

(** [last_chars n s] is what is left of [s] once a prefix is removed. *)
Lemma last_chars_is_suffix (n : nat) (s : string) :
  (n <= String.length s)%nat ->
  exists before,
    s = before ++ last_chars n s /\
    String.length before = (String.length s - n)%nat.
Proof.
  unfold last_chars. intros H.
  remember (String.length s - n)%nat as k eqn:Hk.
  assert (Hlen : String.length s = (k + n)%nat) by lia.
  clear Hk H. revert s Hlen.
  induction k as [|k IH]; intros s Hlen.
  - exists "". simpl in Hlen. subst n. now rewrite substring_all.
  - destruct s as [|a s]; simpl in *; [lia|].
    destruct (IH s ltac:(lia)) as (before & Hs & Hb).
    exists (String a before). simpl. split; [now rewrite <- Hs | now rewrite Hb].
Qed.

End JsStringFacts.

Module JsNumFacts.
Import JsNum.

(** *** Rounding to a double

    The addition of the kernel's [float] is specified by [SFadd] of
    [SpecFloat]: the exact sum of the two mantissas, aligned, is handed to
    [binary_round].  What follows bounds the result of [binary_round] from
    below and from above by a number of the format, which is all the
    accountant needs of rounding. *)

(** The number of binary digits of a positive number. *)
Lemma digits2_pos_bounds (p : positive) :
  2 ^ (Z.pos (digits2_pos p) - 1) <= Z.pos p < 2 ^ Z.pos (digits2_pos p).
Proof.
  induction p as [p IH | p IH |]; cbn [digits2_pos].
  - rewrite Pos2Z.inj_succ. replace (Z.succ (Z.pos (digits2_pos p)) - 1)
      with (Z.succ (Z.pos (digits2_pos p) - 1)) by lia.
    rewrite !Z.pow_succ_r by lia. lia.
  - rewrite Pos2Z.inj_succ. replace (Z.succ (Z.pos (digits2_pos p)) - 1)
      with (Z.succ (Z.pos (digits2_pos p) - 1)) by lia.
    rewrite !Z.pow_succ_r by lia. lia.
  - cbn. lia.
Qed.

(** A larger scaled mantissa has at least as many digits. *)
Lemma digits_scaled (m1 m2 : positive) (a : Z) :
  0 <= a -> Z.pos m1 * 2 ^ a <= Z.pos m2 ->
  Z.pos (digits2_pos m1) + a <= Z.pos (digits2_pos m2).
Proof.
  intros Ha H.
  destruct (digits2_pos_bounds m1) as [L1 _].
  destruct (digits2_pos_bounds m2) as [_ U2].
  assert (Hp : 2 ^ (Z.pos (digits2_pos m1) - 1 + a) < 2 ^ Z.pos (digits2_pos m2)).
  { rewrite Z.pow_add_r by lia.
    assert (0 < 2 ^ a) by (apply Z.pow_pos_nonneg; lia). nia. }
  apply Z.pow_lt_mono_r_iff in Hp; lia.
Qed.

Lemma iter_xO (d m : positive) :
  Z.pos (Pos.iter xO m d) = Z.pos m * 2 ^ Z.pos d.
Proof.
  change (Pos.iter xO m d) with (shift_pos d m).
  rewrite shift_pos_correct, Z.pow_pos_fold. lia.
Qed.

Lemma shl_align_spec (mx : positive) (ex ex' : Z) :
  snd (shl_align mx ex ex') = Z.min ex ex' /\
  Z.pos (fst (shl_align mx ex ex'))
    = Z.pos mx * 2 ^ (ex - Z.min ex ex').
Proof.
  unfold shl_align. destruct (ex' - ex) as [|d|d] eqn:E; cbn [fst snd].
  - replace (Z.min ex ex') with ex by lia. rewrite Z.sub_diag. cbn. lia.
  - replace (Z.min ex ex') with ex by lia. rewrite Z.sub_diag. cbn. lia.
  - replace (Z.min ex ex') with ex' by lia. split; [reflexivity|].
    rewrite iter_xO. f_equal. f_equal. lia.
Qed.

(** Shifting right. *)
Lemma shr_1_m (mrs : shr_record) :
  0 <= shr_m mrs -> shr_m (shr_1 mrs) = shr_m mrs / 2.
Proof.
  destruct mrs as [m r s]. cbn [shr_m shr_1]. intros Hm.
  destruct m as [|[p|p|]|p]; cbn [shr_m]; [reflexivity | | | reflexivity | lia].
  - rewrite Pos2Z.inj_xI. apply Z.div_unique with (r := 1); lia.
  - rewrite Pos2Z.inj_xO. apply Z.div_unique with (r := 0); lia.
Qed.

Lemma pow2_xO (p : positive) :
  2 ^ Z.pos p~0 = 2 ^ Z.pos p * 2 ^ Z.pos p.
Proof. rewrite Pos2Z.inj_xO, <- Z.pow_add_r by lia. f_equal. lia. Qed.

Lemma pow2_xI (p : positive) :
  2 ^ Z.pos p~1 = 2 * (2 ^ Z.pos p * 2 ^ Z.pos p).
Proof.
  rewrite Pos2Z.inj_xI, <- Z.pow_add_r, <- Z.pow_succ_r by lia. f_equal. lia.
Qed.

Lemma iter_shr_1_m (p : positive) (mrs : shr_record) :
  0 <= shr_m mrs ->
  shr_m (SpecFloat.iter_pos shr_1 p mrs) = shr_m mrs / 2 ^ Z.pos p.
Proof.
  revert mrs. induction p as [p IH | p IH |]; intros mrs Hm;
    cbn [SpecFloat.iter_pos].
  - assert (H0 : 0 < 2 ^ Z.pos p) by (apply Z.pow_pos_nonneg; lia).
    assert (H1 : 0 <= shr_m (shr_1 mrs))
      by (rewrite shr_1_m by lia; apply Z.div_pos; lia).
    assert (H2 : 0 <= shr_m (SpecFloat.iter_pos shr_1 p (shr_1 mrs)))
      by (rewrite IH by lia; apply Z.div_pos; lia).
    rewrite IH, IH, shr_1_m by lia.
    rewrite !Z.div_div by lia. now rewrite pow2_xI.
  - assert (H0 : 0 < 2 ^ Z.pos p) by (apply Z.pow_pos_nonneg; lia).
    assert (H2 : 0 <= shr_m (SpecFloat.iter_pos shr_1 p mrs))
      by (rewrite IH by lia; apply Z.div_pos; lia).
    rewrite IH, IH by lia.
    rewrite !Z.div_div by lia. now rewrite pow2_xO.
  - rewrite shr_1_m by lia. reflexivity.
Qed.

(** [shr_fexp] of a positive mantissa, without a location. *)
Lemma shr_fexp_spec (m : positive) (e : Z) :
  let e' := Z.max e (fexp prec emax (Z.pos (digits2_pos m) + e)) in
  snd (shr_fexp prec emax (Z.pos m) e loc_Exact) = e' /\
  shr_m (fst (shr_fexp prec emax (Z.pos m) e loc_Exact))
    = Z.pos m / 2 ^ (e' - e).
Proof.
  cbn zeta. unfold shr_fexp, shr. cbn [Zdigits2 shr_record_of_loc].
  set (f := fexp prec emax (Z.pos (digits2_pos m) + e)).
  destruct (f - e) as [|n|n] eqn:E; cbn [fst snd shr_m].
  - replace (Z.max e f) with e by lia. rewrite Z.sub_diag. cbn. split; [reflexivity|].
    now rewrite Z.div_1_r.
  - replace (Z.max e f) with (e + Z.pos n) by lia. split; [reflexivity|].
    rewrite iter_shr_1_m by (cbn; lia). cbn [shr_m]. f_equal. f_equal. lia.
  - replace (Z.max e f) with e by lia. rewrite Z.sub_diag. cbn. split; [reflexivity|].
    now rewrite Z.div_1_r.
Qed.


Lemma digits2_pos_unique (m : positive) (d : Z) :
  2 ^ (d - 1) <= Z.pos m < 2 ^ d -> 0 < d -> Z.pos (digits2_pos m) = d.
Proof.
  intros [L U] Hd. destruct (digits2_pos_bounds m) as [L' U'].
  assert (H1 : 2 ^ (d - 1) < 2 ^ Z.pos (digits2_pos m)) by lia.
  assert (H2 : 2 ^ (Z.pos (digits2_pos m) - 1) < 2 ^ d) by lia.
  apply Z.pow_lt_mono_r_iff in H1; [|lia|lia].
  apply Z.pow_lt_mono_r_iff in H2; lia.
Qed.

Lemma digits2_pos_shift (m m' : positive) (k : Z) :
  0 <= k -> Z.pos m' = Z.pos m * 2 ^ k ->
  Z.pos (digits2_pos m') = Z.pos (digits2_pos m) + k.
Proof.
  intros Hk H. destruct (digits2_pos_bounds m) as [L U].
  assert (H0 : 0 < 2 ^ k) by (apply Z.pow_pos_nonneg; lia).
  apply digits2_pos_unique; [|lia].
  replace (Z.pos (digits2_pos m) + k - 1)
    with (Z.pos (digits2_pos m) - 1 + k) by lia.
  rewrite !Z.pow_add_r by lia. nia.
Qed.

Lemma fexp_mono (a b : Z) :
  a <= b -> fexp prec emax a <= fexp prec emax b.
Proof. unfold fexp. lia. Qed.

Lemma fexp_emin (a : Z) : SpecFloat.emin prec emax <= fexp prec emax a.
Proof. unfold fexp. lia. Qed.

Lemma round_nearest_even_bounds (m : Z) (l : location) :
  m <= round_nearest_even m l <= m + 1.
Proof.
  unfold round_nearest_even.
  destruct l as [|[| |]]; try lia. destruct (Z.even m); lia.
Qed.

(** A mantissa of [d] digits or more keeps at least one digit when it is
    shifted right by less than [d]. *)
Lemma shifted_positive (m : positive) (n : Z) :
  0 <= n < Z.pos (digits2_pos m) -> 1 <= Z.pos m / 2 ^ n.
Proof.
  intros Hn. destruct (digits2_pos_bounds m) as [L _].
  assert (H0 : 0 < 2 ^ n) by (apply Z.pow_pos_nonneg; lia).
  apply Z.div_le_lower_bound; [lia|].
  assert (2 ^ n <= 2 ^ (Z.pos (digits2_pos m) - 1))
    by (apply Z.pow_le_mono_r; lia).
  lia.
Qed.

(** What [binary_round] makes of a positive mantissa is not below a
    canonical number that the mantissa is not below. *)
Lemma binary_round_lower (mx : positive) (ex : Z) (m : positive) (e : Z) :
  fexp prec emax (Z.pos (digits2_pos mx) + ex) = ex ->
  e <= ex -> Z.pos mx * 2 ^ (ex - e) <= Z.pos m ->
  binary_round prec emax false m e = S754_infinity false \/
  exists mr er,
    binary_round prec emax false m e = S754_finite false mr er /\
    (ex < er \/ (ex = er /\ Z.pos mx <= Z.pos mr)).
Proof.
  intros Hcan He Hm. unfold binary_round.
  set (D := Z.pos (digits2_pos m) + e).
  destruct (shl_align_spec m e (fexp prec emax D)) as [S1 S2].
  destruct (shl_align m e (fexp prec emax D)) as [m1 e1].
  cbn [fst snd] in S1, S2.
  assert (HD : Z.pos (digits2_pos mx) + ex <= D).
  { unfold D. pose proof (digits_scaled mx m (ex - e) ltac:(lia) Hm). lia. }
  assert (Hf : ex <= fexp prec emax D)
    by (rewrite <- Hcan; now apply fexp_mono).
  assert (Hd1 : Z.pos (digits2_pos m1) + e1 = D).
  { rewrite (digits2_pos_shift m m1 (e - e1)) by (try lia; now rewrite S1).
    unfold D. lia. }
  unfold binary_round_aux.
  destruct (shr_fexp_spec m1 e1) as [T1 T2]. rewrite Hd1 in T1, T2.
  replace (Z.max e1 (fexp prec emax D)) with (fexp prec emax D) in T1, T2 by lia.
  destruct (shr_fexp prec emax (Z.pos m1) e1 loc_Exact) as [mrs e2].
  cbn [fst snd] in T1, T2. subst e2.
  set (e2 := fexp prec emax D) in *.
  pose proof (round_nearest_even_bounds (shr_m mrs) (loc_of_shr_record mrs))
    as Hr.
  set (m3 := round_nearest_even (shr_m mrs) (loc_of_shr_record mrs)) in *.
  pose proof (fexp_emin (Z.pos (digits2_pos mx) + ex)) as Hemin.
  rewrite Hcan in Hemin.
  assert (Hm2 : 1 <= shr_m mrs).
  { rewrite T2. apply shifted_positive. split; [lia|].
    assert (e2 < D); [|lia].
    unfold e2, fexp. unfold fexp in Hcan.
    pose proof (Pos2Z.is_pos (digits2_pos mx)). lia. }
  destruct m3 as [|p3|p3] eqn:E3; [lia| |lia].
  destruct (shr_fexp_spec p3 e2) as [U1 U2].
  destruct (shr_fexp prec emax (Z.pos p3) e2 loc_Exact) as [mrs' e4].
  cbn [fst snd] in U1, U2.
  set (e4' := Z.max e2 (fexp prec emax (Z.pos (digits2_pos p3) + e2))) in *.
  assert (Hm4 : 1 <= shr_m mrs').
  { rewrite U2. apply shifted_positive. split; [lia|].
    unfold e4', fexp. pose proof (Pos2Z.is_pos (digits2_pos p3)).
    unfold e2, fexp in *. unfold prec in *. lia. }
  destruct (shr_m mrs') as [|p4|p4] eqn:E4; [lia| |lia].
  destruct (e4 <=? emax - prec); [right | now left].
  exists p4, e4. split; [reflexivity|].
  destruct (Z.eq_dec e4 ex) as [Heq|Hne]; [right | left; lia].
  split; [now symmetry|].
  assert (e4' = e2) by lia. assert (e2 = ex) by lia.
  rewrite U2. replace (e4' - e2) with 0 by lia. rewrite Z.div_1_r.
  apply Z.le_trans with (shr_m mrs); [|lia].
  rewrite T2. apply Z.div_le_lower_bound.
  - apply Z.pow_pos_nonneg; lia.
  - rewrite S2. replace (e - Z.min e e2) with (e - e1) by lia.
    replace (e2 - e1) with (ex - e1) by lia.
    replace (ex - e1) with ((ex - e) + (e - e1)) by lia.
    rewrite Z.pow_add_r by lia.
    assert (0 < 2 ^ (e - e1)) by (apply Z.pow_pos_nonneg; lia).
    nia.
Qed.


Lemma digits_scaled_upper (m mx : positive) (a : Z) :
  0 <= a -> Z.pos m <= Z.pos mx * 2 ^ a ->
  Z.pos (digits2_pos m) <= Z.pos (digits2_pos mx) + a.
Proof.
  intros Ha H.
  destruct (digits2_pos_bounds m) as [L1 _].
  destruct (digits2_pos_bounds mx) as [_ U2].
  assert (Hp : 2 ^ (Z.pos (digits2_pos m) - 1) < 2 ^ (Z.pos (digits2_pos mx) + a)).
  { rewrite Z.pow_add_r by lia.
    assert (0 < 2 ^ a) by (apply Z.pow_pos_nonneg; lia). nia. }
  apply Z.pow_lt_mono_r_iff in Hp; lia.
Qed.

Lemma shr_fexp_zero (e : Z) :
  shr_m (fst (shr_fexp prec emax 0 e loc_Exact)) = 0.
Proof.
  unfold shr_fexp, shr. cbn [Zdigits2 shr_record_of_loc].
  destruct (fexp prec emax (0 + e) - e) as [|n|n]; cbn [fst shr_m];
    try reflexivity.
  rewrite iter_shr_1_m by (cbn; lia). reflexivity.
Qed.

(** [binary_round] never gives [NaN], and keeps the sign. *)
Lemma binary_round_class (s : bool) (m : positive) (e : Z) :
  binary_round prec emax s m e = S754_zero s \/
  binary_round prec emax s m e = S754_infinity s \/
  exists mr er, binary_round prec emax s m e = S754_finite s mr er.
Proof.
  unfold binary_round.
  destruct (shl_align m e _) as [m1 e1]. unfold binary_round_aux.
  destruct (shr_fexp_spec m1 e1) as [_ T2].
  destruct (shr_fexp prec emax (Z.pos m1) e1 loc_Exact) as [mrs e2].
  cbn [fst] in T2.
  pose proof (round_nearest_even_bounds (shr_m mrs) (loc_of_shr_record mrs))
    as Hr.
  assert (Hm2 : 0 <= shr_m mrs).
  { rewrite T2. apply Z.div_pos; [lia|].
    apply Z.pow_pos_nonneg; lia. }
  destruct (round_nearest_even (shr_m mrs) (loc_of_shr_record mrs))
    as [|p3|p3]; [| |lia].
  - pose proof (shr_fexp_zero e2) as Z0.
    destruct (shr_fexp prec emax 0 e2 loc_Exact) as [mrs' e4].
    cbn [fst] in Z0. rewrite Z0. now left.
  - destruct (shr_fexp_spec p3 e2) as [_ U2].
    destruct (shr_fexp prec emax (Z.pos p3) e2 loc_Exact) as [mrs' e4].
    cbn [fst] in U2.
    assert (Hm4 : 0 <= shr_m mrs').
    { rewrite U2. apply Z.div_pos; [lia|]. apply Z.pow_pos_nonneg; lia. }
    destruct (shr_m mrs') as [|p4|p4]; [now left | | lia].
    destruct (e4 <=? emax - prec); [right; right; eauto | right; now left].
Qed.

(** What [binary_round] makes of a mantissa is not above a canonical
    number that the mantissa is strictly below. *)
Lemma binary_round_upper (s : bool) (mx : positive) (ex : Z)
      (m : positive) (e : Z) :
  fexp prec emax (Z.pos (digits2_pos mx) + ex) = ex ->
  ex <= emax - prec ->
  e <= ex -> Z.pos m < Z.pos mx * 2 ^ (ex - e) ->
  binary_round prec emax s m e = S754_zero s \/
  exists mr er,
    binary_round prec emax s m e = S754_finite s mr er /\
    (er < ex \/ (er = ex /\ Z.pos mr <= Z.pos mx)).
Proof.
  intros Hcan Hb He Hm. unfold binary_round.
  set (D := Z.pos (digits2_pos m) + e).
  destruct (shl_align_spec m e (fexp prec emax D)) as [S1 S2].
  destruct (shl_align m e (fexp prec emax D)) as [m1 e1].
  cbn [fst snd] in S1, S2.
  assert (HD : D <= Z.pos (digits2_pos mx) + ex).
  { unfold D. pose proof (digits_scaled_upper m mx (ex - e) ltac:(lia)
                             ltac:(lia)). lia. }
  assert (Hf : fexp prec emax D <= ex)
    by (rewrite <- Hcan; now apply fexp_mono).
  assert (Hd1 : Z.pos (digits2_pos m1) + e1 = D).
  { rewrite (digits2_pos_shift m m1 (e - e1)) by (try lia; now rewrite S1).
    unfold D. lia. }
  unfold binary_round_aux.
  destruct (shr_fexp_spec m1 e1) as [T1 T2]. rewrite Hd1 in T1, T2.
  replace (Z.max e1 (fexp prec emax D)) with (fexp prec emax D) in T1, T2 by lia.
  destruct (shr_fexp prec emax (Z.pos m1) e1 loc_Exact) as [mrs e2].
  cbn [fst snd] in T1, T2. subst e2.
  set (e2 := fexp prec emax D) in *.
  pose proof (round_nearest_even_bounds (shr_m mrs) (loc_of_shr_record mrs))
    as Hr.
  set (m3 := round_nearest_even (shr_m mrs) (loc_of_shr_record mrs)) in *.
  (* the number [mx * 2 ^ ex] on the grid of [e2] *)
  set (X := Z.pos mx * 2 ^ (ex - e2)).
  assert (H2e : 0 < 2 ^ (e2 - e1)) by (apply Z.pow_pos_nonneg; lia).
  assert (Hm1 : Z.pos m1 < X * 2 ^ (e2 - e1)).
  { rewrite S2. replace (e - Z.min e e2) with (e - e1) by lia.
    unfold X. rewrite <- Z.mul_assoc, <- Z.pow_add_r by lia.
    replace (ex - e2 + (e2 - e1)) with ((ex - e) + (e - e1)) by lia.
    rewrite Z.pow_add_r by lia.
    assert (0 < 2 ^ (e - e1)) by (apply Z.pow_pos_nonneg; lia).
    nia. }
  assert (Hm2 : 0 <= shr_m mrs < X).
  { rewrite T2. split.
    - apply Z.div_pos; lia.
    - apply Z.div_lt_upper_bound; lia. }
  destruct m3 as [|p3|p3] eqn:E3; [| |lia].
  { pose proof (shr_fexp_zero e2) as Z0.
    destruct (shr_fexp prec emax 0 e2 loc_Exact) as [mrs' e4].
    cbn [fst] in Z0. rewrite Z0. now left. }
  assert (Hp3 : Z.pos p3 <= X) by lia.
  destruct (shr_fexp_spec p3 e2) as [U1 U2].
  destruct (shr_fexp prec emax (Z.pos p3) e2 loc_Exact) as [mrs' e4].
  cbn [fst snd] in U1, U2.
  assert (Hd3 : Z.pos (digits2_pos p3) + e2 <= Z.pos (digits2_pos mx) + ex).
  { pose proof (digits_scaled_upper p3 mx (ex - e2) ltac:(lia) Hp3). lia. }
  assert (Hf3 : fexp prec emax (Z.pos (digits2_pos p3) + e2) <= ex)
    by (rewrite <- Hcan; now apply fexp_mono).
  assert (He4 : e2 <= e4 <= ex) by lia.
  assert (Hm4 : 0 <= shr_m mrs' <= Z.pos mx * 2 ^ (ex - e4)).
  { rewrite U2, <- U1.
    assert (0 < 2 ^ (e4 - e2)) by (apply Z.pow_pos_nonneg; lia).
    split; [apply Z.div_pos; lia|].
    apply Z.div_le_upper_bound; [lia|].
    rewrite Z.mul_comm, <- Z.mul_assoc, <- Z.pow_add_r by lia.
    replace (ex - e4 + (e4 - e2)) with (ex - e2) by lia. exact Hp3. }
  destruct (shr_m mrs') as [|p4|p4] eqn:E4; [now left | | lia].
  replace (e4 <=? emax - prec) with true by (symmetry; apply Z.leb_le; lia).
  right. exists p4, e4. split; [reflexivity|].
  destruct (Z.eq_dec e4 ex) as [Heq|Hne]; [right | left; lia].
  split; [exact Heq|]. rewrite Heq, Z.sub_diag in Hm4. cbn in Hm4. lia.
Qed.

(** *** Comparison *)

Ltac compare_cases :=
  repeat match goal with
         | H : context [Pos.compare_cont Eq ?x ?y] |- _ =>
             change (Pos.compare_cont Eq x y) with (Pos.compare x y) in H
         | |- context [Pos.compare_cont Eq ?x ?y] =>
             change (Pos.compare_cont Eq x y) with (Pos.compare x y)
         end;
  repeat match goal with
         | H : context [(?x ?= ?y)%Z] |- _ =>
             destruct (Z.compare_spec x y); cbn in H; try discriminate H
         | H : context [(?x ?= ?y)%positive] |- _ =>
             destruct (Pos.compare_spec x y); cbn in H; try discriminate H
         | |- context [(?x ?= ?y)%Z] =>
             destruct (Z.compare_spec x y); cbn
         | |- context [(?x ?= ?y)%positive] =>
             destruct (Pos.compare_spec x y); cbn
         end;
  subst; try reflexivity; try discriminate; try lia.

Lemma SFleb_refl (x : spec_float) : x <> S754_nan -> SFleb x x = true.
Proof.
  destruct x as [s|s| |s m e]; intros H; try congruence;
    destruct s; unfold SFleb; cbn; try reflexivity; compare_cases.
Qed.

Lemma SFleb_trans (x y z : spec_float) :
  SFleb x y = true -> SFleb y z = true -> SFleb x z = true.
Proof.
  unfold SFleb.
  destruct x as [sx|sx| |sx mx ex], y as [sy|sy| |sy my ey],
           z as [sz|sz| |sz mz ez];
    try destruct sx; try destruct sy; try destruct sz; cbn;
    try reflexivity; try discriminate; intros H1 H2; compare_cases.
Qed.

Lemma SFleb_not_less (x y : spec_float) :
  SFleb x y = true -> SFltb y x = false.
Proof.
  unfold SFleb, SFltb.
  destruct x as [sx|sx| |sx mx ex], y as [sy|sy| |sy my ey];
    try destruct sx; try destruct sy; cbn;
    try reflexivity; try discriminate; intros H1; compare_cases.
Qed.

(** *** Addition of a number that is not negative *)

Lemma SFadd_finite_lower (mx : positive) (ex : Z) (my : positive) (ey : Z) :
  fexp prec emax (Z.pos (digits2_pos mx) + ex) = ex ->
  let r := SFadd prec emax (S754_finite false mx ex) (S754_finite false my ey) in
  SFleb (S754_finite false mx ex) r = true /\
  SFleb (S754_zero false) r = true.
Proof.
  intros Hcan. cbn zeta. cbn [SFadd cond_Zopp].
  destruct (shl_align_spec mx ex (Z.min ex ey)) as [_ A].
  destruct (shl_align_spec my ey (Z.min ex ey)) as [_ B].
  set (a := fst (shl_align mx ex (Z.min ex ey))) in *.
  set (b := fst (shl_align my ey (Z.min ex ey))) in *.
  change (Z.pos a + Z.pos b) with (Z.pos (a + b)). cbn [binary_normalize].
  destruct (binary_round_lower mx ex (a + b) (Z.min ex ey) Hcan)
    as [-> | (mr & er & -> & Hle)].
  - lia.
  - rewrite Pos2Z.inj_add, A. replace (Z.min ex (Z.min ex ey)) with (Z.min ex ey) by lia.
    lia.
  - split; reflexivity.
  - split; [|reflexivity]. unfold SFleb. cbn.
    destruct Hle as [Hlt | [-> Hm]]; compare_cases.
Qed.

(** The sum of two numbers that are not negative is at least the first
    and is not negative. *)
Lemma SFadd_not_negative (x d : spec_float) :
  SpecFloat.valid_binary prec emax x = true ->
  SFleb (S754_zero false) x = true -> SFleb (S754_zero false) d = true ->
  SFleb x (SFadd prec emax x d) = true /\
  SFleb (S754_zero false) (SFadd prec emax x d) = true.
Proof.
  destruct x as [sx|sx| |sx mx ex], d as [sd|sd| |sd md ed];
    try destruct sx; try destruct sd; intros Hv Hx Hd;
    try discriminate Hx; try discriminate Hd;
    try (split; reflexivity);
    try (split; [unfold SFleb; cbn; compare_cases | reflexivity]).
  apply SFadd_finite_lower.
  cbn in Hv. apply andb_true_iff in Hv. destruct Hv as [Hc _].
  unfold canonical_mantissa in Hc. now apply Z.eqb_eq in Hc.
Qed.

Lemma SFadd_opposite (mx : positive) (ex : Z) (my : positive) (ey : Z) :
  SpecFloat.valid_binary prec emax (S754_finite true mx ex) = true ->
  SFltb (SFadd prec emax (S754_finite true mx ex) (S754_finite false my ey))
        (S754_finite true mx ex) = false.
Proof.
  intros Hv. cbn in Hv. apply andb_true_iff in Hv. destruct Hv as [Hc Hb].
  unfold canonical_mantissa in Hc. apply Z.eqb_eq in Hc. apply Z.leb_le in Hb.
  cbn [SFadd cond_Zopp].
  destruct (shl_align_spec mx ex (Z.min ex ey)) as [_ A].
  set (a := fst (shl_align mx ex (Z.min ex ey))) in *.
  set (b := fst (shl_align my ey (Z.min ex ey))) in *.
  replace (Z.min ex (Z.min ex ey)) with (Z.min ex ey) in A by lia.
  destruct (- Z.pos a + Z.pos b) as [|p|p] eqn:E; cbn [binary_normalize].
  - reflexivity.
  - destruct (binary_round_class false p (Z.min ex ey))
      as [-> | [-> | (mr & er & ->)]]; reflexivity.
  - destruct (binary_round_upper true mx ex p (Z.min ex ey) Hc Hb)
      as [-> | (mr & er & -> & Hle)]; [lia | lia | reflexivity |].
    unfold SFltb. cbn. destruct Hle as [Hlt | [-> Hm]]; compare_cases.
Qed.

(** Adding a number that is not negative never gives less. *)
Lemma SFadd_not_less (x d : spec_float) :
  SpecFloat.valid_binary prec emax x = true ->
  SFleb (S754_zero false) d = true ->
  SFltb (SFadd prec emax x d) x = false.
Proof.
  intros Hv Hd.
  destruct d as [sd|sd| |sd md ed]; try destruct sd; try discriminate Hd.
  1-3: destruct x as [sx|sx| |sx mx ex]; try destruct sx;
    try reflexivity; unfold SFltb; cbn; compare_cases.
  destruct x as [sx|sx| |[|] mx ex]; try destruct sx; try reflexivity.
  - now apply SFadd_opposite.
  - apply SFleb_not_less. apply SFadd_finite_lower.
    cbn in Hv. apply andb_true_iff in Hv. destruct Hv as [Hc _].
    unfold canonical_mantissa in Hc. now apply Z.eqb_eq in Hc.
Qed.

Lemma SFltb_false_cases (x y : spec_float) :
  SFltb y x = false ->
  x = S754_nan \/ y = S754_nan \/ SFleb x y = true.
Proof.
  unfold SFleb, SFltb.
  destruct x as [sx|sx| |sx mx ex], y as [sy|sy| |sy my ey];
    try destruct sx; try destruct sy; cbn; intros H;
    try (now left); try (right; now left); right; right;
    try reflexivity; try discriminate H; compare_cases.
Qed.

(** *** JavaScript numbers *)

Lemma nan_of_spec (x : num) : Prim2SF x = S754_nan -> x = NaN.
Proof. intros H. rewrite <- (SF2Prim_Prim2SF x), H. reflexivity. Qed.

Lemma add_NaN_l (a : num) : add NaN a = NaN.
Proof.
  unfold add, NaN. rewrite <- (SF2Prim_Prim2SF (nan + a)), add_spec.
  reflexivity.
Qed.

Lemma add_NaN_r (a : num) : add a NaN = NaN.
Proof.
  unfold add, NaN. rewrite <- (SF2Prim_Prim2SF (a + nan)), add_spec.
  change (Prim2SF nan) with S754_nan.
  now destruct (Prim2SF a) as [s|s| |s m e].
Qed.

Lemma gtb_NaN_l (b : num) : gtb NaN b = false.
Proof.
  unfold gtb, NaN. rewrite ltb_spec. change (Prim2SF nan) with S754_nan.
  now destruct (Prim2SF b) as [s|s| |s m e].
Qed.

Lemma gtb_NaN_r (a : num) : gtb a NaN = false.
Proof. unfold gtb, NaN. rewrite ltb_spec. reflexivity. Qed.

(** Nothing is above [Infinity]. *)
Lemma gtb_PosInf_r (a : num) : gtb a PosInf = false.
Proof.
  unfold gtb, PosInf. rewrite ltb_spec.
  change (Prim2SF infinity) with (S754_infinity false).
  now destruct (Prim2SF a) as [s|[|]| |s m e].
Qed.

Lemma num_leb_trans (a b c : num) :
  num_leb a b = true -> num_leb b c = true -> num_leb a c = true.
Proof. unfold num_leb. rewrite !leb_spec. apply SFleb_trans. Qed.

Lemma num_leb_gtb (a b : num) : num_leb a b = true -> gtb a b = false.
Proof.
  unfold num_leb, gtb. rewrite leb_spec, ltb_spec. apply SFleb_not_less.
Qed.

Lemma num_leb_refl (a : num) : a = NaN \/ num_leb a a = true.
Proof.
  destruct (Prim2SF a) as [s|s| |s m e] eqn:E;
    [right | right | left; now apply nan_of_spec | right];
    unfold num_leb; rewrite leb_spec, E; apply SFleb_refl; discriminate.
Qed.

(** A number that is not below zero is [NaN] or at least zero. *)
Lemma not_below_zero (d : num) :
  gtb zero d = false -> d = NaN \/ num_leb zero d = true.
Proof.
  unfold gtb, num_leb. rewrite ltb_spec, leb_spec. intros H.
  destruct (SFltb_false_cases _ _ H) as [H0 | [Hd | Hle]].
  - discriminate H0.
  - left. now apply nan_of_spec.
  - now right.
Qed.

(** Adding a number that is not below zero never gives less, whatever
    the sign of the number it is added to. *)
Lemma add_not_less (x d : num) :
  gtb zero d = false -> gtb x (add x d) = false.
Proof.
  intros H. destruct (not_below_zero d H) as [-> | Hd].
  - rewrite add_NaN_r. apply gtb_NaN_r.
  - unfold gtb, add, num_leb in *. rewrite leb_spec in Hd.
    rewrite ltb_spec, add_spec.
    apply SFadd_not_less; [apply Prim2SF_valid | exact Hd].
Qed.

(** Added to a number that is not negative either, it gives a number
    that is at least as large and not negative. *)
Lemma add_not_negative (x d : num) :
  num_leb zero x = true -> num_leb zero d = true ->
  num_leb x (add x d) = true /\ num_leb zero (add x d) = true.
Proof.
  unfold num_leb, add. rewrite !leb_spec, add_spec.
  apply SFadd_not_negative, Prim2SF_valid.
Qed.

(** It gives [NaN], or at least the number it was added to. *)
Lemma add_leb_or_NaN (x d : num) :
  gtb zero d = false -> add x d = NaN \/ num_leb x (add x d) = true.
Proof.
  intros H. pose proof (add_not_less x d H) as Hn.
  unfold gtb in Hn. rewrite ltb_spec in Hn.
  destruct (SFltb_false_cases _ _ Hn) as [Hx | [Hs | Hle]].
  - left. rewrite (nan_of_spec x Hx). apply add_NaN_l.
  - left. now apply nan_of_spec.
  - right. unfold num_leb. now rewrite leb_spec.
Qed.

End JsNumFacts.

Module AccountantFacts.
Import JsNum JsNumFacts Accountant.

Lemma track_all_cons (u : Usage) (ds : list Usage) (st : State) :
  track_all (u :: ds) st = track_all ds (trackUsage u st).
Proof. reflexivity. Qed.

Lemma track_all_app (ds1 ds2 : list Usage) (st : State) :
  track_all (ds1 ++ ds2) st = track_all ds2 (track_all ds1 st).
Proof. unfold track_all. apply fold_left_app. Qed.

(** An integral field after a list of deltas: its start value plus the
    sum of the deltas. *)
Lemma track_all_tokens (ds : list Usage) (st : State) :
  let g := globalUsage st in
  let g' := globalUsage (track_all ds st) in
  prompt_tokens g' = prompt_tokens g + total prompt_tokens ds /\
  completion_tokens g' = completion_tokens g + total completion_tokens ds /\
  total_tokens g' = total_tokens g + total total_tokens ds /\
  cached_tokens g' = cached_tokens g + total cached_tokens ds /\
  reasoning_tokens g' = reasoning_tokens g + total reasoning_tokens ds.
Proof.
  revert st. induction ds as [|u ds IH]; intros st; cbn zeta.
  - unfold total; simpl. repeat split; lia.
  - rewrite track_all_cons.
    destruct (IH (trackUsage u st)) as (H1 & H2 & H3 & H4 & H5).
    rewrite H1, H2, H3, H4, H5. unfold total; simpl. repeat split; lia.
Qed.

Lemma snapshot_is_copy (st : State) : getTotalUsage st = globalUsage st.
Proof. unfold getTotalUsage. now destruct (globalUsage st). Qed.

(** The cost after a list of deltas: the costs added one by one to the
    cost at the start. *)
Lemma track_all_cost (ds : list Usage) (st : State) :
  of_optional (cost (globalUsage (track_all ds st)))
    = running_cost (of_optional (cost (globalUsage st))) ds.
Proof.
  revert st. induction ds as [|u ds IH]; intros st; [reflexivity|].
  rewrite track_all_cons, IH. reflexivity.
Qed.

Lemma track_all_cost_some (ds : list Usage) (st : State) (c : num) :
  cost (globalUsage st) = Some c ->
  cost (globalUsage (track_all ds st)) = Some (running_cost c ds).
Proof.
  revert st c. induction ds as [|u ds IH]; intros st c H; [exact H|].
  rewrite track_all_cons.
  rewrite (IH (trackUsage u st) (add c (of_optional (cost u))));
    [reflexivity|].
  cbn [trackUsage globalUsage cost]. now rewrite H.
Qed.

Lemma track_all_token_sums (ds : list Usage) :
  token_sums (getTotalUsage (track_all ds initial)) ds.
Proof.
  rewrite snapshot_is_copy.
  destruct (track_all_tokens ds initial) as (H1 & H2 & H3 & H4 & H5).
  unfold token_sums. rewrite H1, H2, H3, H4, H5. repeat split.
Qed.

(** *** Fields that never decrease *)

Lemma total_not_negative (field : Usage -> Z) (ds : list Usage) :
  Forall (fun u => 0 <= field u) ds -> 0 <= total field ds.
Proof.
  unfold total. induction 1 as [|u ds Hu _ IH]; cbn [map fold_right]; lia.
Qed.

(** Once [NaN], the cost stays [NaN]. *)
Lemma running_cost_NaN (ds : list Usage) : running_cost NaN ds = NaN.
Proof.
  induction ds as [|u ds IH]; [reflexivity|].
  cbn [running_cost fold_left]. rewrite add_NaN_l. exact IH.
Qed.

(** After deltas whose costs are not negative, the cost is [NaN] or at
    least what it was. *)
Lemma running_cost_not_less (ds : list Usage) (x : num) :
  Forall (fun u => gtb zero (of_optional (cost u)) = false) ds ->
  running_cost x ds = NaN \/ num_leb x (running_cost x ds) = true.
Proof.
  intros H. revert x. induction H as [|u ds Hu _ IH]; intros x.
  - apply num_leb_refl.
  - change (running_cost x (u :: ds))
      with (running_cost (add x (of_optional (cost u))) ds).
    destruct (add_leb_or_NaN x (of_optional (cost u)) Hu) as [-> | Hle].
    + left. apply running_cost_NaN.
    + destruct (IH (add x (of_optional (cost u)))) as [-> | Hle'].
      * now left.
      * right. eapply num_leb_trans; eauto.
Qed.

(** After deltas whose costs are numbers that are not negative, a cost
    that was such a number is one still, and at least what it was. *)
Lemma running_cost_leb (ds : list Usage) (x : num) :
  Forall cost_not_negative ds -> num_leb zero x = true ->
  num_leb x (running_cost x ds) = true /\
  num_leb zero (running_cost x ds) = true.
Proof.
  intros H. revert x. induction H as [|u ds Hu _ IH]; intros x Hx.
  - split; [|exact Hx].
    destruct (num_leb_refl x) as [-> | Hr]; [discriminate Hx | exact Hr].
  - change (running_cost x (u :: ds))
      with (running_cost (add x (of_optional (cost u))) ds).
    destruct (add_not_negative x (of_optional (cost u)) Hx Hu) as [H1 H2].
    destruct (IH _ H2) as [H3 H4].
    split; [eapply num_leb_trans; eauto | exact H4].
Qed.

(** Calls of [trackUsage] with deltas that are not negative lower no
    field, whatever the accumulator holds. *)
Lemma track_all_not_decreased (ds : list Usage) (st : State) :
  Forall non_negative ds ->
  not_decreased (getTotalUsage st) (getTotalUsage (track_all ds st)).
Proof.
  intros H. rewrite !snapshot_is_copy.
  destruct (track_all_tokens ds st) as (H1 & H2 & H3 & H4 & H5).
  unfold not_decreased. rewrite H1, H2, H3, H4, H5, track_all_cost.
  assert (T : forall field : Usage -> Z,
             (forall u, non_negative u -> 0 <= field u) ->
             0 <= total field ds).
  { intros field Hf. apply total_not_negative.
    eapply Forall_impl; [|exact H]. exact Hf. }
  pose proof (T prompt_tokens ltac:(unfold non_negative; tauto)).
  pose proof (T completion_tokens ltac:(unfold non_negative; tauto)).
  pose proof (T total_tokens ltac:(unfold non_negative; tauto)).
  pose proof (T cached_tokens ltac:(unfold non_negative; tauto)).
  pose proof (T reasoning_tokens ltac:(unfold non_negative; tauto)).
  repeat split; try lia.
  destruct (running_cost_not_less ds (of_optional (cost (globalUsage st))))
    as [-> | Hle].
  - eapply Forall_impl; [|exact H]. unfold non_negative. tauto.
  - apply gtb_NaN_r.
  - now apply num_leb_gtb.
Qed.

(** C4, as the code has it.  After any sequence of deltas applied by
    [trackUsage] from the zero state, every token field of the snapshot
    returned by [getTotalUsage] is the exact sum of that field over the
    deltas, and the cost is the running total of the costs, added one by
    one in the order of the calls with every sum rounded to a double, an
    unreported cost counting as [NaN].  And whatever the accumulator
    holds, calls whose deltas have no negative field (the cost may be
    unreported) lower no field: no token field gets smaller, and the cost
    afterwards is never less than the cost before.  When the cost of the
    accumulator and the costs of the deltas are numbers that are not
    negative, the cost afterwards is a number at least as large. *)
Theorem accountant_sums_and_monotone
        (applied later : list Usage) (st : State) :
  token_sums (getTotalUsage (track_all applied initial)) applied /\
  cost (getTotalUsage (track_all applied initial))
    = Some (running_cost zero applied) /\
  (Forall non_negative later ->
   not_decreased (getTotalUsage st) (getTotalUsage (track_all later st))) /\
  (Forall cost_not_negative later -> cost_not_negative (getTotalUsage st) ->
   cost_not_negative (getTotalUsage (track_all later st)) /\
   num_leb (of_optional (cost (getTotalUsage st)))
           (of_optional (cost (getTotalUsage (track_all later st)))) = true).
Proof.
  split; [apply track_all_token_sums|]. split; [|split].
  - rewrite snapshot_is_copy. now apply track_all_cost_some.
  - apply track_all_not_decreased.
  - unfold cost_not_negative at 2 3. rewrite !snapshot_is_copy, track_all_cost.
    intros Hl Hs. destruct (running_cost_leb later _ Hl Hs). now split.
Qed.

Lemma accountant_sums_and_monotone_witness :
  let first := mkUsage 100 50 150 0 0 (Some 0.01%float) in
  let second := mkUsage 10 5 15 0 0 None in
  let third := mkUsage 7 3 10 2 1 (Some 0.001%float) in
  not_decreased
    (getTotalUsage (track_all [first] initial))
    (getTotalUsage (track_all [second; third] (track_all [first] initial))).
Proof.
  refine (proj1 (proj2 (proj2 (accountant_sums_and_monotone
                          []
                          [mkUsage 10 5 15 0 0 None;
                           mkUsage 7 3 10 2 1 (Some 0.001%float)]
                          (track_all [mkUsage 100 50 150 0 0 (Some 0.01%float)]
                                     initial)))) _).
  repeat constructor; cbn; lia.
Defined.

(** C4 as stated fails for the cost: the doubles [0.1] and [0.2] add up
    to [0.30000000000000004], which is not the exact sum of the two, and
    the same three costs tracked in two orders leave two different
    totals, so that at most one of them can be a sum of the deltas. *)
Lemma cost_is_not_the_exact_sum_counterexample :
  let a := mkUsage 1 1 2 0 0 (Some 0.1%float) in
  let b := mkUsage 1 1 2 0 0 (Some 0.2%float) in
  let c := mkUsage 1 1 2 0 0 (Some 0.3%float) in
  ~ exact_sum (getTotalUsage (track_all [a; b] initial)) [a; b] /\
  cost (getTotalUsage (track_all [a; b; c] initial))
    <> cost (getTotalUsage (track_all [c; b; a] initial)).
Proof.
  cbn zeta. split.
  - intros [_ H]. vm_compute in H. discriminate H.
  - intros H. apply (f_equal (fun c => Prim2SF (of_optional c))) in H.
    vm_compute in H. discriminate H.
Qed.

(** The wording of the specification can be met: with costs that add up
    without rounding, the snapshot is the exact sum. *)
Lemma exact_sum_without_rounding :
  let a := mkUsage 1 1 2 0 0 (Some 0.25%float) in
  let b := mkUsage 1 1 2 0 0 (Some 0.5%float) in
  exact_sum (getTotalUsage (track_all [a; b] initial)) [a; b].
Proof. vm_compute. repeat split. Qed.

End AccountantFacts.

Module SchedulerFacts.
Import JsString JsError Scheduler.

(** *** Chunking *)

Lemma make_batches_concat {A : Type} (fuel : nat) (i mp : Z) (l : list A) :
  0 < mp -> 0 <= i -> Z.of_nat (List.length l) - i <= Z.of_nat fuel ->
  List.concat (make_batches fuel i mp l) = skipn (Z.to_nat i) l.
Proof.
  revert i. induction fuel as [|fuel IH]; intros i Hmp Hi Hfuel; simpl.
  - symmetry. apply skipn_all2. lia.
  - destruct (Z.ltb_spec i (Z.of_nat (List.length l))) as [Hlt|Hge].
    + simpl. rewrite IH by lia. unfold array_slice.
      replace (i + mp - i) with mp by lia.
      replace (Z.to_nat (i + mp)) with (Z.to_nat mp + Z.to_nat i)%nat by lia.
      rewrite <- skipn_skipn. apply firstn_skipn.
    + symmetry. apply skipn_all2. lia.
Qed.

Lemma make_batches_bounded {A : Type} (fuel : nat) (i mp : Z) (l : list A) :
  0 < mp -> 0 <= i ->
  Forall (fun b => 1 <= Z.of_nat (List.length b) <= mp)
         (make_batches fuel i mp l).
Proof.
  revert i. induction fuel as [|fuel IH]; intros i Hmp Hi; simpl.
  - constructor.
  - destruct (Z.ltb_spec i (Z.of_nat (List.length l))) as [Hlt|Hge].
    + constructor; [|apply IH; lia].
      unfold array_slice. rewrite length_firstn, length_skipn. lia.
    + constructor.
Qed.

Lemma make_batches_whole {A : Type} (fuel : nat) (l : list A) :
  l <> [] ->
  make_batches (S fuel) 0 (Z.of_nat (List.length l)) l = [l].
Proof.
  intros Hl.
  assert (Hpos : 0 < Z.of_nat (List.length l))
    by (destruct l; [congruence | simpl List.length; lia]).
  cbn [make_batches].
  destruct (Z.ltb_spec 0 (Z.of_nat (List.length l))) as [_|H]; [|lia].
  f_equal.
  - unfold array_slice.
    replace (Z.to_nat (0 + Z.of_nat (List.length l) - 0))
      with (List.length l) by lia.
    change (Z.to_nat 0) with O. cbn [skipn]. apply firstn_all.
  - destruct fuel; cbn [make_batches]; [reflexivity|].
    destruct (Z.ltb_spec (0 + Z.of_nat (List.length l))
                         (Z.of_nat (List.length l))); [lia | reflexivity].
Qed.

(** *** The trace of a batch *)

Lemma invoke_all_spec (rt : Runtime) (gid : option string)
      (batch : list (string * PendingQuery)) (w : World) :
  exists results,
    invoke_all rt gid batch w =
      (results,
       mkWorld (readings w) (invocations w + List.length batch)
               (promises w) (timers w) (trace w ++ invokes gid batch)) /\
    forall w0,
      settle_all batch results w0 =
        mkWorld (readings w0) (invocations w0) (promises w0) (timers w0)
                (trace w0 ++ own_settlements rt gid (invocations w) batch).
Proof.
  revert w. induction batch as [|[k q] batch IH]; intros w.
  - exists []. split.
    + simpl. rewrite Nat.add_0_r, app_nil_r. now destruct w.
    + intros w0. simpl. rewrite app_nil_r. now destruct w0.
  - simpl invoke_all. unfold invoke.
    match goal with
    | |- context [invoke_all rt gid batch ?w1] =>
        destruct (IH w1) as (rs & Hrs & Hsettle); rewrite Hrs
    end.
    eexists. split.
    + unfold emit; simpl. rewrite <- app_assoc. simpl.
      now rewrite Nat.add_succ_r.
    + intros w0. simpl settle_all. rewrite Hsettle.
      unfold emit; simpl. now rewrite <- app_assoc.
Qed.

Lemma run_batch_spec (rt : Runtime) (gid : string)
      (batch : list (string * PendingQuery)) (w : World) :
  run_batch rt gid batch w =
    mkWorld (readings w) (invocations w + List.length batch)
            (promises w) (timers w)
            (trace w ++ invokes (Some gid) batch
                     ++ own_settlements rt (Some gid) (invocations w) batch).
Proof.
  unfold run_batch.
  destruct (invoke_all_spec rt (Some gid) batch w) as (rs & Hrs & Hsettle).
  rewrite Hrs, Hsettle. simpl. now rewrite <- app_assoc.
Qed.

Lemma run_batches_spec (rt : Runtime) (gid : string)
      (batches : list (list (string * PendingQuery))) (w : World) :
  fold_left (fun w batch => run_batch rt gid batch w) batches w =
    mkWorld (readings w)
            (invocations w + List.length (List.concat batches))
            (promises w) (timers w)
            (trace w ++ chunk_events rt (Some gid) (invocations w) batches).
Proof.
  revert w. induction batches as [|b bs IH]; intros w; simpl.
  - rewrite Nat.add_0_r, app_nil_r. now destruct w.
  - rewrite IH, run_batch_spec. simpl.
    rewrite length_app, Nat.add_assoc, <- !app_assoc. reflexivity.
Qed.

Lemma new_events_app (w w' : World) (evs : list Event) :
  trace w' = (trace w ++ evs)%list -> new_events w w' = evs.
Proof.
  intros H. unfold new_events. rewrite H.
  rewrite skipn_app, skipn_all, Nat.sub_diag. reflexivity.
Qed.

(** *** Filtering the events of the chunks *)

Lemma filter_invokes (f : Event -> bool) (gid : option string)
      (batch : list (string * PendingQuery)) :
  (forall c g, f (Invoke c g) = true) ->
  filter f (invokes gid batch) = invokes gid batch.
Proof.
  intros Hf. induction batch as [|kq batch IH]; simpl; [reflexivity|].
  now rewrite Hf, IH.
Qed.

Lemma filter_invokes_none (f : Event -> bool) (gid : option string)
      (batch : list (string * PendingQuery)) :
  (forall c g, f (Invoke c g) = false) ->
  filter f (invokes gid batch) = [].
Proof.
  intros Hf. induction batch as [|kq batch IH]; simpl; [reflexivity|].
  now rewrite Hf, IH.
Qed.

Lemma settle_is_settlement (q : PendingQuery) (r : Settled) :
  is_settlement (settle q r) = true /\ is_invoke (settle q r) = false /\
  is_callback (settle q r) = false.
Proof. destruct r; simpl; auto. Qed.

Lemma filter_own_settlements (f : Event -> bool) (rt : Runtime)
      (gid : option string) (c : nat) (batch : list (string * PendingQuery)) :
  (forall q r, f (settle q r) = true) ->
  filter f (own_settlements rt gid c batch) = own_settlements rt gid c batch.
Proof.
  intros Hf. revert c. induction batch as [|[k q] batch IH]; intros c; simpl;
    [reflexivity|].
  now rewrite Hf, IH.
Qed.

Lemma filter_own_settlements_none (f : Event -> bool) (rt : Runtime)
      (gid : option string) (c : nat) (batch : list (string * PendingQuery)) :
  (forall q r, f (settle q r) = false) ->
  filter f (own_settlements rt gid c batch) = [].
Proof.
  intros Hf. revert c. induction batch as [|[k q] batch IH]; intros c; simpl;
    [reflexivity|].
  now rewrite Hf, IH.
Qed.

Lemma own_settlements_app (rt : Runtime) (gid : option string) (c : nat)
      (b1 b2 : list (string * PendingQuery)) :
  own_settlements rt gid c (b1 ++ b2) =
    (own_settlements rt gid c b1
       ++ own_settlements rt gid (c + List.length b1) b2)%list.
Proof.
  revert c. induction b1 as [|[k q] b1 IH]; intros c; simpl.
  - now rewrite Nat.add_0_r.
  - rewrite IH. now rewrite Nat.add_succ_r.
Qed.

Lemma chunk_events_settlements (rt : Runtime) (gid : option string) (c : nat)
      (batches : list (list (string * PendingQuery))) :
  filter is_settlement (chunk_events rt gid c batches) =
    own_settlements rt gid c (List.concat batches).
Proof.
  revert c. induction batches as [|b bs IH]; intros c; simpl; [reflexivity|].
  rewrite !filter_app, IH, own_settlements_app.
  rewrite filter_invokes_none by reflexivity.
  rewrite filter_own_settlements by (intros; apply settle_is_settlement).
  reflexivity.
Qed.

Lemma chunk_events_invokes (rt : Runtime) (gid : option string) (c : nat)
      (batches : list (list (string * PendingQuery))) :
  filter is_invoke (chunk_events rt gid c batches) =
    invokes gid (List.concat batches).
Proof.
  revert c. induction batches as [|b bs IH]; intros c; simpl; [reflexivity|].
  rewrite !filter_app, IH.
  rewrite filter_invokes by reflexivity.
  rewrite filter_own_settlements_none by (intros; apply settle_is_settlement).
  unfold invokes. now rewrite map_app.
Qed.

Lemma chunk_events_callbacks (rt : Runtime) (gid : option string) (c : nat)
      (batches : list (list (string * PendingQuery))) :
  filter is_callback (chunk_events rt gid c batches) = [].
Proof.
  revert c. induction batches as [|b bs IH]; intros c; simpl; [reflexivity|].
  rewrite !filter_app, IH.
  rewrite filter_invokes_none by reflexivity.
  rewrite filter_own_settlements_none by (intros; apply settle_is_settlement).
  reflexivity.
Qed.

(** *** The two shapes of a flush *)

Lemma cohort_batches_concat (ex : Executor) :
  (2 <= List.length (pendingQueries ex))%nat ->
  List.concat (cohort_batches ex) = pendingQueries ex.
Proof.
  intros H. unfold cohort_batches.
  rewrite make_batches_concat; [reflexivity | | lia | lia].
  unfold chunk_size.
  destruct (Z.gtb_spec (maxParallelChildren (config ex)) 0); lia.
Qed.

Lemma flushBatch_single (rt : Runtime) (ex : Executor) (w : World)
      (k : string) (q : PendingQuery) :
  pendingQueries ex = [(k, q)] ->
  let st := stats ex in
  flushBatch rt ex w =
    (with_pending [] None
       (mkStats (totalQueries st) (parallelBatches st)
                (sequentialQueries st + 1) (totalParallelQueries st)) ex,
     mkWorld (readings w + 1) (invocations w + 1) (promises w) (timers w)
             (trace w ++ [Invoke (context q) None;
                          settle q (subagentFn rt (invocations w)
                                               (context q) None)])).
Proof.
  intros Hq. destruct ex as [pq bt cfg hs hc st0]; simpl in Hq; subst pq.
  destruct w as [r i p t tr].
  unfold flushBatch, invoke, emit, Date_now, with_pending; simpl.
  rewrite <- app_assoc. simpl. now rewrite !Nat.add_1_r.
Qed.

Lemma flushBatch_parallel (rt : Runtime) (ex : Executor) (w : World) :
  (2 <= List.length (pendingQueries ex))%nat ->
  let n := Z.of_nat (List.length (pendingQueries ex)) in
  let gid := cohort_group_id rt w in
  let st := stats ex in
  flushBatch rt ex w =
    (with_pending [] None
       (mkStats (totalQueries st) (parallelBatches st + 1)
                (sequentialQueries st) (totalParallelQueries st + n)) ex,
     mkWorld (readings w + 4)
             (invocations w + List.length (pendingQueries ex))
             (promises w) (timers w)
             (trace w
                ++ (if hasOnParallelStart ex
                    then [OnParallelStart gid (Z.min n (chunk_size ex n))]
                    else [])
                ++ chunk_events rt (Some gid) (invocations w)
                                (cohort_batches ex)
                ++ (if hasOnParallelComplete ex
                    then [OnParallelComplete gid (cohort_elapsed rt w) n]
                    else []))).
Proof.
  intros Hn n gid st.
  pose proof (cohort_batches_concat ex Hn) as Hcat.
  destruct ex as [pq bt cfg hs hc st0]. destruct w as [r i p t tr].
  cbn [pendingQueries stats] in *. subst st.
  destruct pq as [|[k1 q1] [|[k2 q2] rest]];
    [simpl in Hn; lia | simpl in Hn; lia |].
  cbn [flushBatch pendingQueries Date_now generateParallelGroupId
       Math_random36 with_pending readings invocations promises timers
       trace config stats hasOnParallelStart hasOnParallelComplete
       fst snd].
  unfold cohort_batches, chunk_size in *.
  cbn [pendingQueries config hasOnParallelStart hasOnParallelComplete] in *.
  set (queries := (k1, q1) :: (k2, q2) :: rest) in *.
  fold n. fold n in Hcat.
  set (mp := if maxParallelChildren cfg >? 0
             then maxParallelChildren cfg else n) in *.
  rewrite !run_batches_spec.
  unfold gid, cohort_group_id, cohort_elapsed, generateParallelGroupId,
    Date_now, Math_random36.
  cbn [readings invocations promises timers trace fst snd].
  destruct hs, hc; unfold emit;
    cbn [readings invocations promises timers trace];
    rewrite ?Hcat, <- ?app_assoc, ?app_nil_r;
    unfold with_pending;
    cbn [config stats hasOnParallelStart hasOnParallelComplete];
    replace (r + 3)%nat with (S (S (S r))) by lia;
    replace (r + 4)%nat with (S (S (S (S r)))) by lia;
    reflexivity.
Qed.

Lemma chunk_events_work (rt : Runtime) (gid : option string) (c : nat)
      (batches : list (list (string * PendingQuery))) :
  filter (fun e => is_invoke e || is_settlement e)
         (chunk_events rt gid c batches) = chunk_events rt gid c batches.
Proof.
  revert c. induction batches as [|b bs IH]; intros c; simpl; [reflexivity|].
  rewrite !filter_app, IH.
  rewrite filter_invokes by reflexivity.
  rewrite filter_own_settlements; [reflexivity|].
  intros q r. destruct (settle_is_settlement q r) as (-> & -> & _).
  reflexivity.
Qed.

Lemma flushBatch_parallel_events (rt : Runtime) (ex : Executor) (w : World) :
  (2 <= List.length (pendingQueries ex))%nat ->
  let n := Z.of_nat (List.length (pendingQueries ex)) in
  let gid := cohort_group_id rt w in
  new_events w (snd (flushBatch rt ex w)) =
    ((if hasOnParallelStart ex
      then [OnParallelStart gid (Z.min n (chunk_size ex n))] else [])
     ++ chunk_events rt (Some gid) (invocations w) (cohort_batches ex)
     ++ (if hasOnParallelComplete ex
         then [OnParallelComplete gid (cohort_elapsed rt w) n] else []))%list.
Proof.
  intros Hn n gid. apply new_events_app.
  rewrite (flushBatch_parallel rt ex w Hn). reflexivity.
Qed.

(** *** The claims about a flush *)

(** C5.  A drained cohort of one member is invoked without a group id
    and counted in [sequentialQueries]; the group-id generator is not
    called (only [startTime] is read).  A cohort of two or more gets the
    one id generated for it, every member is invoked with that same id,
    and the cohort is counted in [parallelBatches]. *)
Theorem flushBatch_group_id (rt : Runtime) (ex : Executor) (w : World) :
  let queries := pendingQueries ex in
  let ex' := fst (flushBatch rt ex w) in
  let w' := snd (flushBatch rt ex w) in
  (List.length queries = 1%nat ->
     filter is_invoke (new_events w w') = invokes None queries /\
     sequentialQueries (stats ex') = sequentialQueries (stats ex) + 1 /\
     parallelBatches (stats ex') = parallelBatches (stats ex) /\
     readings w' = (readings w + 1)%nat) /\
  ((2 <= List.length queries)%nat ->
     filter is_invoke (new_events w w')
       = invokes (Some (cohort_group_id rt w)) queries /\
     parallelBatches (stats ex') = parallelBatches (stats ex) + 1 /\
     sequentialQueries (stats ex') = sequentialQueries (stats ex) /\
     readings w' = (readings w + 4)%nat).
Proof.
  cbn zeta. split.
  - intros H1.
    destruct (pendingQueries ex) as [|[k q] [|? ?]] eqn:Hq;
      simpl in H1; try discriminate.
    rewrite (flushBatch_single rt ex w k q Hq). cbn [fst snd].
    rewrite (new_events_app w _ [Invoke (context q) None;
               settle q (subagentFn rt (invocations w) (context q) None)])
      by reflexivity.
    cbn [filter is_invoke].
    destruct (settle_is_settlement q
                (subagentFn rt (invocations w) (context q) None))
      as (_ & -> & _).
    repeat split.
  - intros Hn. rewrite (flushBatch_parallel_events rt ex w Hn).
    rewrite (flushBatch_parallel rt ex w Hn). cbn [fst snd].
    rewrite !filter_app, chunk_events_invokes, cohort_batches_concat by exact Hn.
    destruct (hasOnParallelStart ex), (hasOnParallelComplete ex);
      cbn [filter is_invoke app]; rewrite ?app_nil_r; repeat split.
Qed.

Lemma flushBatch_group_id_witness :
  let w1 := snd SchedulerScenario.one_queued in
  let w3 := snd SchedulerScenario.three_queued in
  filter is_invoke
    (new_events w1 (snd (flushBatch SchedulerScenario.runtime
                                    (fst SchedulerScenario.one_queued) w1)))
    = [Invoke "Single query test" None] /\
  filter is_invoke
    (new_events w3 (snd (flushBatch SchedulerScenario.runtime
                                    (fst SchedulerScenario.three_queued) w3)))
    = [Invoke "success 1" (Some "pg-1010-k3x9q1");
       Invoke "fail please" (Some "pg-1010-k3x9q1");
       Invoke "success 2" (Some "pg-1010-k3x9q1")].
Proof.
  split.
  - exact (proj1 (proj1 (flushBatch_group_id SchedulerScenario.runtime
                           (fst SchedulerScenario.one_queued)
                           (snd SchedulerScenario.one_queued))
                        eq_refl)).
  - refine (proj1 (proj2 (flushBatch_group_id SchedulerScenario.runtime
                           (fst SchedulerScenario.three_queued)
                           (snd SchedulerScenario.three_queued)) _)).
    vm_compute. lia.
Defined.

(** C6.  A cohort of two or more is cut into chunks that together are
    the cohort: of at most [maxParallelChildren] members when that limit
    is positive, the whole cohort as one chunk when it is [0] (or below).
    The chunks run one after another, each being invoked and then settled
    before the next begins; and every member's promise is settled once,
    by the outcome of its own invocation, whatever the outcomes of the
    other members. *)
Theorem flushBatch_chunks_settle_independently
        (rt : Runtime) (ex : Executor) (w : World) :
  (2 <= List.length (pendingQueries ex))%nat ->
  let queries := pendingQueries ex in
  let k := maxParallelChildren (config ex) in
  let gid := Some (cohort_group_id rt w) in
  let batches := cohort_batches ex in
  let events := new_events w (snd (flushBatch rt ex w)) in
  List.concat batches = queries /\
  (0 < k -> Forall (fun b => 1 <= Z.of_nat (List.length b) <= k) batches) /\
  (k <= 0 -> batches = [queries]) /\
  filter (fun e => is_invoke e || is_settlement e) events
    = chunk_events rt gid (invocations w) batches /\
  filter is_settlement events
    = own_settlements rt gid (invocations w) queries.
Proof.
  intros Hn. cbn zeta. rewrite (flushBatch_parallel_events rt ex w Hn).
  split; [now apply cohort_batches_concat|].
  split.
  { intros Hk. unfold cohort_batches, chunk_size.
    destruct (Z.gtb_spec (maxParallelChildren (config ex)) 0); [|lia].
    apply make_batches_bounded; lia. }
  split.
  { intros Hk. unfold cohort_batches, chunk_size.
    destruct (Z.gtb_spec (maxParallelChildren (config ex)) 0); [lia|].
    destruct (pendingQueries ex) as [|kq rest] eqn:Hq; [simpl in Hn; lia|].
    rewrite <- Hq.
    replace (List.length (pendingQueries ex))
      with (S (List.length rest)) at 1 by (rewrite Hq; reflexivity).
    apply make_batches_whole. rewrite Hq. discriminate. }
  split.
  - rewrite !filter_app, chunk_events_work.
    destruct (hasOnParallelStart ex), (hasOnParallelComplete ex);
      cbn [filter is_invoke is_settlement orb app];
      now rewrite ?app_nil_r.
  - rewrite !filter_app, chunk_events_settlements,
      cohort_batches_concat by exact Hn.
    destruct (hasOnParallelStart ex), (hasOnParallelComplete ex);
      cbn [filter is_settlement app];
      now rewrite ?app_nil_r.
Qed.

Lemma flushBatch_chunks_settle_independently_witness :
  let ex := fst SchedulerScenario.three_queued in
  let w := snd SchedulerScenario.three_queued in
  List.length (cohort_batches ex) = 2%nat /\
  filter is_settlement
    (new_events w (snd (flushBatch SchedulerScenario.runtime ex w)))
    = [Resolve 0 "Success: success 1";
       Reject 1 "Intentional failure";
       Resolve 2 "Success: success 2"].
Proof.
  split; [reflexivity|].
  refine (proj2 (proj2 (proj2 (proj2
            (flushBatch_chunks_settle_independently
               SchedulerScenario.runtime
               (fst SchedulerScenario.three_queued)
               (snd SchedulerScenario.three_queued) _))))).
  vm_compute. lia.
Defined.

(** C7, as the code has it.  For a cohort of two or more, each callback
    that was supplied is called once, and one that was not supplied is
    not called: [onParallelStart] with the group id and the smaller of the
    member count and the chunk size, then [onParallelComplete] with the
    group id, the elapsed time and the member count. *)
Theorem flushBatch_callbacks_once (rt : Runtime) (ex : Executor) (w : World) :
  (2 <= List.length (pendingQueries ex))%nat ->
  let n := Z.of_nat (List.length (pendingQueries ex)) in
  let gid := cohort_group_id rt w in
  filter is_callback (new_events w (snd (flushBatch rt ex w)))
    = ((if hasOnParallelStart ex
        then [OnParallelStart gid (Z.min n (chunk_size ex n))] else [])
       ++ (if hasOnParallelComplete ex
           then [OnParallelComplete gid (cohort_elapsed rt w) n] else []))%list.
Proof.
  intros Hn. cbn zeta.
  rewrite (flushBatch_parallel_events rt ex w Hn).
  rewrite !filter_app, chunk_events_callbacks.
  destruct (hasOnParallelStart ex), (hasOnParallelComplete ex); reflexivity.
Qed.

Lemma flushBatch_callbacks_once_witness :
  (let ex := fst SchedulerScenario.three_queued in
   let w := snd SchedulerScenario.three_queued in
   filter is_callback
     (new_events w (snd (flushBatch SchedulerScenario.runtime ex w)))
     = [OnParallelStart "pg-1010-k3x9q1" 2;
        OnParallelComplete "pg-1010-k3x9q1" 3 3]) /\
  (let ex := fst SchedulerScenario.three_queued_one_callback in
   let w := snd SchedulerScenario.three_queued_one_callback in
   filter is_callback
     (new_events w (snd (flushBatch SchedulerScenario.runtime ex w)))
     = [OnParallelComplete "pg-1010-k3x9q1" 3 3]).
Proof.
  split.
  - refine (flushBatch_callbacks_once SchedulerScenario.runtime
              (fst SchedulerScenario.three_queued)
              (snd SchedulerScenario.three_queued) _).
    vm_compute. lia.
  - refine (flushBatch_callbacks_once SchedulerScenario.runtime
              (fst SchedulerScenario.three_queued_one_callback)
              (snd SchedulerScenario.three_queued_one_callback) _).
    vm_compute. lia.
Defined.

(** C7 as stated fails: with three members and a limit of two, the start
    callback is told [2], not the member count [3]. *)
Lemma start_callback_count_counterexample :
  ~ (forall (rt : Runtime) (ex : Executor) (w : World),
       (2 <= List.length (pendingQueries ex))%nat ->
       hasOnParallelStart ex = true ->
       hasOnParallelComplete ex = true ->
       let n := Z.of_nat (List.length (pendingQueries ex)) in
       let gid := cohort_group_id rt w in
       filter is_callback (new_events w (snd (flushBatch rt ex w)))
         = [OnParallelStart gid n;
            OnParallelComplete gid (cohort_elapsed rt w) n]).
Proof.
  intros H.
  specialize (H SchedulerScenario.runtime
                (fst SchedulerScenario.three_queued)
                (snd SchedulerScenario.three_queued)).
  vm_compute in H.
  assert (Hn : (2 <= 3)%nat) by lia.
  specialize (H Hn eq_refl eq_refl). discriminate H.
Qed.

End SchedulerFacts.

Module OutputFacts.
Import JsString JsStringFacts Output.

Example truncate_long :
  truncateText 3 "abcdef" = "[TRUNCATED: Last 3 chars shown].. def".
Proof. reflexivity. Qed.

Example truncate_default_marker :
  TRUNCATED_MARKER 5000 = "[TRUNCATED: Last 5000 chars shown].. ".
Proof. reflexivity. Qed.

(** The policy for a positive limit. *)
Lemma truncateText_positive_limit (T : Z) (s : string) :
  0 < T ->
  (len s > T ->
     truncateText T s = TRUNCATED_MARKER T ++ last_chars (Z.to_nat T) s) /\
  (len s = 0 -> truncateText T s = EMPTY_MARKER) /\
  (0 < len s <= T -> truncateText T s = FULL_MARKER ++ s).
Proof.
  intros HT. unfold truncateText. repeat split; intros H.
  - destruct (Z.gtb_spec (len s) T) as [_|]; [|lia].
    now rewrite slice_neg_last by lia.
  - destruct (Z.gtb_spec (len s) T) as [|_]; [lia|].
    now rewrite H.
  - destruct (Z.gtb_spec (len s) T) as [|_]; [lia|].
    destruct (Z.eqb_spec (len s) 0); [lia | reflexivity].
Qed.

(** C1 at the limit [0].  A limit of [0] and an output that is not empty
    go through the first branch, and [text.slice(-0)] is the whole text:
    the result is the truncation marker followed by all of the output,
    not by its last [0] characters. *)
Theorem truncateText_zero_limit_keeps_everything (s : string) :
  0 < len s ->
  truncateText 0 s = "[TRUNCATED: Last 0 chars shown].. " ++ s /\
  last_chars 0 s = "".
Proof.
  intros H. split.
  - unfold truncateText.
    destruct (Z.gtb_spec (len s) 0) as [_|]; [|lia].
    change (- 0) with 0. now rewrite slice_zero.
  - apply substring_nothing.
Qed.

Lemma truncateText_zero_limit_keeps_everything_witness :
  truncateText 0 "ab" = "[TRUNCATED: Last 0 chars shown].. ab".
Proof.
  refine (proj1 (truncateText_zero_limit_keeps_everything "ab" _)).
  vm_compute. reflexivity.
Defined.

End OutputFacts.

Module EngineFacts.
Import JsString JsError JsNum Accountant Output Engine.

(** *** Strings *)

Lemma append_assoc (a b c : string) : (a ++ b) ++ c = a ++ (b ++ c).
Proof. induction a as [|x a IH]; simpl; [reflexivity | now rewrite IH]. Qed.

Lemma starts_with_spec (p s : string) :
  starts_with p s = true <-> exists b, s = p ++ b.
Proof.
  revert s. induction p as [|x p IH]; intros s; simpl.
  - split; [intros _; now exists s | reflexivity].
  - destruct s as [|y s].
    + split; [discriminate | intros [b Hb]; discriminate].
    + rewrite andb_true_iff, IH. split.
      * intros [Hxy [b ->]]. apply Ascii.eqb_eq in Hxy. subst y. now exists b.
      * intros [b Hb]. injection Hb as -> ->. split;
          [apply Ascii.eqb_refl | now exists b].
Qed.

Lemma includes_spec (p s : string) :
  includes p s = true <-> exists a b, s = a ++ p ++ b.
Proof.
  induction s as [|y s IH].
  - simpl. rewrite orb_false_r, starts_with_spec. split.
    + intros [b Hb]. now exists "", b.
    + intros [a [b Hab]]. destruct a; [now exists b | discriminate].
  - cbn [includes]. rewrite orb_true_iff, starts_with_spec, IH. split.
    + intros [[b Hb] | [a [b Hab]]].
      * now exists "", b.
      * exists (String y a), b. simpl. now rewrite Hab.
    + intros [a [b Hab]]. destruct a as [|x a].
      * left. now exists b.
      * right. simpl in Hab. injection Hab as _ ->. now exists a, b.
Qed.

(** The [catch] clause always leaves the word "Error" in the buffer. *)
Lemma fold_error_includes (buffer : string) (e : Thrown) :
  includes "Error" (fold_error buffer (Some e)) = true.
Proof.
  apply includes_spec. exists (buffer ++ nl), (": " ++ as_error e ++ " ").
  unfold fold_error. now rewrite append_assoc.
Qed.

Section Facts.
Context (cfg : Config) (rt : Runtime).

(** *** The model call *)

Lemma generate_code_world (depth : Z) (msgs : list Message) (m : string)
      (leaf : bool) (o : ApiRetryOptions) (w : World) :
  let req := chat_request rt msgs m leaf o in
  let w' := snd (generate_code rt depth msgs m leaf o w) in
  accountant w' = accountant w /\ runs w' = runs w /\
  requests w' = S (requests w) /\
  exists failure,
    log w' = (log w ++ Request depth req :: failure)%list /\
    Forall (request_ok cfg rt) failure /\
    (forall g, fst (generate_code rt depth msgs m leaf o w) = Ok g ->
               failure = []).
Proof.
  cbn zeta. unfold generate_code.
  destruct (create rt (requests w) (chat_request rt msgs m leaf o))
    as [c | e].
  - destruct (String.eqb _ ""); cbn; repeat split;
      exists []; repeat split; auto.
  - cbn. repeat split. exists [ApiCallFailed (as_error e)].
    rewrite <- app_assoc. repeat split.
    + repeat constructor.
    + discriminate.
Qed.

Lemma model_call_log (depth : Z) (r : Run (PyState rt)) (w : World)
      (g : CodeReturn) (w1 : World) :
  model_call cfg rt depth r w = (Ok g, w1) ->
  accountant w1 = accountant w /\
  log w1 = (log w ++ [Request depth
                        (chat_request rt (transcript r)
                           (if depth =? 0 then PRIMARY_AGENT cfg
                            else SUB_AGENT cfg)
                           (depth =? MAX_DEPTH cfg)
                           (retry_options cfg))])%list.
Proof.
  unfold model_call. intros H.
  pose proof (generate_code_world depth (transcript r)
                (if depth =? 0 then PRIMARY_AGENT cfg else SUB_AGENT cfg)
                (depth =? MAX_DEPTH cfg) (retry_options cfg) w) as Hw.
  cbn zeta in Hw. rewrite H in Hw. cbn [fst snd] in Hw.
  destruct Hw as (Ha & _ & _ & failure & Hlog & _ & Hnil).
  rewrite (Hnil g eq_refl) in Hlog. now split.
Qed.

(** *** The budget check *)

Lemma check_budget_breach (total : Usage) :
  over_a_ceiling cfg total <-> exists e, check_budget cfg rt total = Some e.
Proof.
  unfold over_a_ceiling, check_budget. split.
  - intros [(c & Hc & Hgt) | [Hcomp | Hprompt]].
    + rewrite Hc, Hgt. eauto.
    + destruct (match cost total with
                | Some c => gtb c (MAX_MONEY_SPENT cfg) | None => false
                end); [eauto|].
      destruct (Z.gtb_spec (completion_tokens total)
                           (MAX_COMPLETION_TOKENS cfg)); [eauto | lia].
    + destruct (match cost total with
                | Some c => gtb c (MAX_MONEY_SPENT cfg) | None => false
                end); [eauto|].
      destruct (completion_tokens total >? MAX_COMPLETION_TOKENS cfg);
        [eauto|].
      destruct (Z.gtb_spec (prompt_tokens total)
                           (MAX_PROMPT_TOKENS cfg)); [eauto | lia].
  - intros [e He].
    destruct (cost total) as [c|] eqn:Hc.
    + destruct (gtb c (MAX_MONEY_SPENT cfg)) eqn:Hgt; [left; eauto|].
      destruct (Z.gtb_spec (completion_tokens total)
                           (MAX_COMPLETION_TOKENS cfg)); [right; left; lia|].
      destruct (Z.gtb_spec (prompt_tokens total)
                           (MAX_PROMPT_TOKENS cfg)); [right; right; lia|].
      discriminate.
    + destruct (Z.gtb_spec (completion_tokens total)
                           (MAX_COMPLETION_TOKENS cfg)); [right; left; lia|].
      destruct (Z.gtb_spec (prompt_tokens total)
                           (MAX_PROMPT_TOKENS cfg)); [right; right; lia|].
      discriminate.
Qed.

(** *** The three ways a turn goes on after the model call *)

Lemma turn_breach (child : ChildRun) (depth : Z) (run : nat) (i : Z)
      (r : Run (PyState rt)) (w : World) (g : CodeReturn) (w1 : World)
      (e : Thrown) :
  model_call cfg rt depth r w = (Ok g, w1) ->
  check_budget cfg rt (total_after g w1) = Some e ->
  turn cfg rt child depth run i r w = (Raise e, track (usage g) w1).
Proof.
  unfold model_call, total_after, turn. intros Hg Hb.
  rewrite Hg. cbn iota beta zeta. now rewrite Hb.
Qed.

Lemma turn_no_code (child : ChildRun) (depth : Z) (run : nat) (i : Z)
      (r : Run (PyState rt)) (w : World) (g : CodeReturn) (w1 : World) :
  model_call cfg rt depth r w = (Ok g, w1) ->
  check_budget cfg rt (total_after g w1) = None ->
  success g = false ->
  turn cfg rt child depth run i r w =
    (Continue (mkRun (transcript r ++ [message g; CORRECTIVE_MESSAGE])
                     (stdoutBuffer r) (py r)),
     emit (Step run depth
             (mkStepData (i + 1) (code g) None None
                         (reasoning (message g)) (usage g)
                         (total_after g w1)))
          (track (usage g) w1)).
Proof.
  unfold model_call, total_after, turn. intros Hg Hb Hs.
  rewrite Hg. cbn iota beta zeta. rewrite Hb, Hs. cbn [negb].
  unfold logStep. now rewrite <- app_assoc.
Qed.

Lemma turn_executed (child : ChildRun) (depth : Z) (run : nat) (i : Z)
      (r : Run (PyState rt)) (w : World) (g : CodeReturn) (w1 : World)
      (st : PyState rt) (raised : option Thrown) (buffer : string)
      (w2 : World) :
  model_call cfg rt depth r w = (Ok g, w1) ->
  check_budget cfg rt (total_after g w1) = None ->
  success g = true ->
  run_python rt (llm_query cfg child depth run)
             (runPythonAsync rt (py r) (code g)) "" (track (usage g) w1)
    = (st, raised, buffer, w2) ->
  final_result_set rt st = false ->
  let captured := fold_error buffer raised in
  let shown := truncateText (TRUNCATE_LEN cfg) captured in
  turn cfg rt child depth run i r w =
    (Continue (mkRun (transcript r
                        ++ [message g;
                            user_message ("Output: " ++ nl ++ shown)])
                     captured st),
     emit (Step run depth
             (mkStepData (i + 1) (code g) (Some shown)
                         (Some (includes "Error" captured))
                         (reasoning (message g)) (usage g)
                         (getTotalUsage (accountant w2))))
          w2).
Proof.
  unfold model_call, total_after, turn. intros Hg Hb Hs Hrun Hfin.
  rewrite Hg. cbn iota beta zeta. rewrite Hb, Hs. cbn [negb].
  rewrite Hrun. cbn iota beta zeta. rewrite Hfin.
  unfold logStep. now rewrite <- app_assoc.
Qed.

(** *** The claims about one run *)

(** C2.  In a run whose depth has reached [MAX_DEPTH], every call of
    [llm_query] adds the depth marker to the captured output and then
    throws; whatever the runs one level down would do, none is started,
    and the world, with the usage accumulator in it, is left as it
    was.  The program that awaited the call gets the failure. *)
Theorem llm_query_at_depth_limit (child : ChildRun) (depth : Z)
        (run : nat) (context buffer : string) (w : World) :
  MAX_DEPTH cfg <= depth ->
  llm_query cfg child depth run context buffer w
    = (Throw (ThrownError DEPTH_MESSAGE),
       buffer ++ nl ++ "Error: " ++ DEPTH_MESSAGE ++ nl, w) /\
  (forall k : Outcome Value -> PyRun (PyState rt),
      run_python rt (llm_query cfg child depth run)
                 (PyQuery context k) buffer w
      = run_python rt (llm_query cfg child depth run)
                   (k (Throw (ThrownError DEPTH_MESSAGE)))
                   (buffer ++ nl ++ "Error: " ++ DEPTH_MESSAGE ++ nl) w).
Proof.
  intros Hd.
  assert (H : llm_query cfg child depth run context buffer w
              = (Throw (ThrownError DEPTH_MESSAGE),
                 buffer ++ nl ++ "Error: " ++ DEPTH_MESSAGE ++ nl, w)).
  { unfold llm_query.
    destruct (Z.geb_spec depth (MAX_DEPTH cfg)); [reflexivity | lia]. }
  split; [exact H|].
  intros k. cbn [run_python]. now rewrite H.
Qed.

(** C8, as the code has it.  When the reply holds no code and the
    budget check passes, the turn logs the step without an output,
    adds the reply and then the corrective user message to the
    transcript, leaves the interpreter and the captured output as they
    were, and the loop goes on with the next step number. *)
Theorem turn_without_code
        (child : ChildRun) (depth : Z) (run : nat) (i : Z)
        (r : Run (PyState rt)) (w : World) (g : CodeReturn) (w1 : World) :
  model_call cfg rt depth r w = (Ok g, w1) ->
  success g = false ->
  check_budget cfg rt (total_after g w1) = None ->
  let r' := mkRun (transcript r ++ [message g; CORRECTIVE_MESSAGE])
                  (stdoutBuffer r) (py r) in
  let logged := Step run depth
                  (mkStepData (i + 1) (code g) None None
                              (reasoning (message g)) (usage g)
                              (total_after g w1)) in
  let w' := emit logged (track (usage g) w1) in
  turn cfg rt child depth run i r w = (Continue r', w') /\
  CORRECTIVE_MESSAGE
    = mkMessage "user"
        (Some "Error: We could not extract code because you may not have used repl block!")
        None /\
  log w' = (log w ++ [Request depth
                        (chat_request rt (transcript r)
                           (if depth =? 0 then PRIMARY_AGENT cfg
                            else SUB_AGENT cfg)
                           (depth =? MAX_DEPTH cfg) (retry_options cfg));
                      logged])%list /\
  (forall remaining,
      turns cfg rt child depth run (S remaining) i r w
      = turns cfg rt child depth run remaining (i + 1) r' w').
Proof.
  intros Hg Hs Hb. cbn zeta.
  pose proof (turn_no_code child depth run i r w g w1 Hg Hb Hs) as Ht.
  split; [exact Ht|]. split; [reflexivity|]. split.
  - unfold emit, track; cbn [log].
    destruct (model_call_log depth r w g w1 Hg) as [_ ->].
    now rewrite <- app_assoc.
  - intros remaining. cbn [turns]. now rewrite Ht.
Qed.


(** *** The prompts of a whole tree of runs *)

Lemma grows_refl (w : World) : grows cfg rt w w.
Proof. exists []. now rewrite app_nil_r. Qed.

Lemma grows_trans (w1 w2 w3 : World) :
  grows cfg rt w1 w2 -> grows cfg rt w2 w3 -> grows cfg rt w1 w3.
Proof.
  intros (e1 & H1 & F1) (e2 & H2 & F2). exists (e1 ++ e2)%list. split.
  - now rewrite H2, H1, app_assoc.
  - apply Forall_app. now split.
Qed.

Lemma grows_same_log (w w' : World) : log w' = log w -> grows cfg rt w w'.
Proof. intros H. exists []. now rewrite app_nil_r. Qed.

Lemma grows_emit (e : Event) (w : World) :
  request_ok cfg rt e -> grows cfg rt w (emit e w).
Proof. intros H. exists [e]. split; [reflexivity | now constructor]. Qed.

Lemma grows_logStep (run : nat) (depth i : Z) (c : string)
      (o : option string) (h : option bool) (re : option string)
      (u : Usage) (w : World) :
  grows cfg rt w (logStep run depth i c o h re u w).
Proof. apply grows_emit. exact I. Qed.

Lemma generate_code_grows (depth : Z) (msgs : list Message) (m : string)
      (o : ApiRetryOptions) (w : World) :
  grows cfg rt w
        (snd (generate_code rt depth msgs m (depth =? MAX_DEPTH cfg) o w)).
Proof.
  destruct (generate_code_world depth msgs m (depth =? MAX_DEPTH cfg) o w)
    as (_ & _ & _ & failure & Hlog & Hok & _).
  eexists. split; [exact Hlog|]. constructor; [|exact Hok].
  cbn. unfold prompt_for. eauto.
Qed.

Lemma llm_query_grows (child : ChildRun) (depth : Z) (run : nat)
      (context buffer : string) (w : World) :
  (forall c d p w0, grows cfg rt w0 (snd (child c d p w0))) ->
  grows cfg rt w (snd (llm_query cfg child depth run context buffer w)).
Proof.
  intros Hc. unfold llm_query.
  destruct (depth >=? MAX_DEPTH cfg); [apply grows_refl|].
  pose proof (Hc context (depth + 1) (Some run)
                 (emit (LlmQueryCalled run) w)) as H.
  destruct (child context (depth + 1) (Some run)
                  (emit (LlmQueryCalled run) w)) as [out w'].
  cbn [snd] in *. eapply grows_trans; [|exact H].
  apply grows_emit. exact I.
Qed.

Lemma run_python_grows
      (query : string -> string -> World -> Outcome Value * string * World)
      (p : PyRun (PyState rt)) (buffer : string) (w : World) :
  (forall c b w0, grows cfg rt w0 (snd (query c b w0))) ->
  grows cfg rt w (snd (run_python rt query p buffer w)).
Proof.
  intros Hq. revert buffer w.
  induction p as [st | st e | text k IH | ctx k IH]; intros buffer w;
    cbn [run_python snd].
  - apply grows_refl.
  - apply grows_refl.
  - apply IH.
  - pose proof (Hq ctx buffer w) as H.
    destruct (query ctx buffer w) as [[out b'] w']. cbn [snd] in H.
    eapply grows_trans; [exact H | apply IH].
Qed.

Lemma turn_grows (child : ChildRun) (depth : Z) (run : nat) (i : Z)
      (r : Run (PyState rt)) (w : World) :
  (forall c d p w0, grows cfg rt w0 (snd (child c d p w0))) ->
  grows cfg rt w (snd (turn cfg rt child depth run i r w)).
Proof.
  intros Hc. unfold turn.
  pose proof (generate_code_grows depth (transcript r)
                (if depth =? 0 then PRIMARY_AGENT cfg else SUB_AGENT cfg)
                (retry_options cfg) w) as Hg.
  destruct (generate_code rt depth (transcript r) _ _ _ w) as [[g | e] w1];
    cbn [snd] in Hg; [|exact Hg].
  destruct (check_budget cfg rt _);
    [cbn [snd]; eapply grows_trans; [exact Hg|];
     now apply grows_same_log|].
  assert (Ht : grows cfg rt w (track (usage g) w1))
    by (eapply grows_trans; [exact Hg | now apply grows_same_log]).
  destruct (success g); cbn [negb].
  - pose proof (run_python_grows (llm_query cfg child depth run)
                  (runPythonAsync rt (py r) (code g)) ""
                  (track (usage g) w1)
                  (fun c b w0 => llm_query_grows child depth run c b w0 Hc))
      as Hp.
    destruct (run_python rt _ _ "" (track (usage g) w1))
      as [[[st raised] buffer] w2]. cbn [snd] in Hp.
    assert (H2 : grows cfg rt w w2) by (eapply grows_trans; eauto).
    destruct (final_result_set rt st); cbn [snd].
    + eapply grows_trans; [exact H2|].
      eapply grows_trans; [apply grows_logStep|].
      eapply grows_trans; apply grows_emit; exact I.
    + eapply grows_trans; [exact H2 | apply grows_logStep].
  - cbn [snd]. eapply grows_trans; [exact Ht | apply grows_logStep].
Qed.

Lemma turns_grows (child : ChildRun) (depth : Z) (run : nat)
      (remaining : nat) (i : Z) (r : Run (PyState rt)) (w : World) :
  (forall c d p w0, grows cfg rt w0 (snd (child c d p w0))) ->
  grows cfg rt w (snd (turns cfg rt child depth run remaining i r w)).
Proof.
  intros Hc. revert i r w.
  induction remaining as [|n IH]; intros i r w; cbn [turns].
  - cbn [snd]. apply grows_emit. exact I.
  - pose proof (turn_grows child depth run i r w Hc) as Ht.
    destruct (turn cfg rt child depth run i r w) as [[r' | v | e] w'];
      cbn [snd] in *; [|exact Ht|exact Ht].
    eapply grows_trans; [exact Ht | apply IH].
Qed.

Lemma subagent_body_grows (child : ChildRun) (context : string)
      (depth : Z) (parent : option nat) (w : World) :
  (forall c d p w0, grows cfg rt w0 (snd (child c d p w0))) ->
  grows cfg rt w (snd (subagent_body cfg rt child context depth parent w)).
Proof.
  intros Hc. unfold subagent_body.
  set (w0 := emit (AgentStart (runs w) depth parent) _).
  assert (H0 : grows cfg rt w w0).
  { unfold w0. eapply grows_trans; [|apply grows_emit; exact I].
    now apply grows_same_log. }
  pose proof (fun p b w' =>
                run_python_grows (llm_query cfg child depth (runs w)) p b w'
                  (fun c b0 w1 =>
                     llm_query_grows child depth (runs w) c b0 w1 Hc))
    as Hp.
  pose proof (Hp (runPythonAsync rt (loadPyodide rt) (setup_code rt context))
                 "" w0) as H1.
  destruct (run_python rt _ _ "" w0) as [[[st raised] b1] w1].
  cbn [snd] in H1.
  assert (H01 : grows cfg rt w w1) by (eapply grows_trans; eauto).
  destruct raised; [exact H01|].
  pose proof (Hp (runPythonAsync rt st initial_code) "" w1) as H2.
  destruct (run_python rt _ _ "" w1) as [[[st2 raised2] b2] w2].
  cbn [snd] in H2.
  assert (H02 : grows cfg rt w w2) by (eapply grows_trans; eauto).
  destruct raised2; [exact H02|].
  eapply grows_trans; [exact H02|].
  eapply grows_trans; [apply grows_logStep | now apply turns_grows].
Qed.

Lemma subagent_levels_grows (levels : nat) (context : string) (depth : Z)
      (parent : option nat) (w : World) :
  grows cfg rt w (snd (subagent_levels cfg rt levels context depth parent w)).
Proof.
  revert context depth parent w.
  induction levels as [|n IH]; intros context depth parent w.
  - apply grows_refl.
  - cbn [subagent_levels]. apply subagent_body_grows. exact IH.
Qed.

(** C10.  Every request a tree of runs sends to the provider carries
    the system prompt that goes with the depth of the run that sent
    it and with nothing else: the leaf prompt when that depth is
    [MAX_DEPTH], the standard prompt at every other depth. *)
Theorem system_prompt_by_depth (context : string) (depth : Z)
        (parent : option nat) (w : World) :
  exists events,
    log (snd (subagent cfg rt context depth parent w))
      = (log w ++ events)%list /\
    forall d req,
      In (Request d req) events ->
      exists rest,
        messages req
          = mkMessage "system"
              (Some (if d =? MAX_DEPTH cfg
                     then LEAF_AGENT_SYSTEM_PROMPT rt
                     else SYSTEM_PROMPT rt))
              None
            :: rest.
Proof.
  destruct (subagent_levels_grows (levels_below cfg depth) context depth
                                  parent w) as (events & Hlog & Hok).
  exists events. split; [exact Hlog|].
  intros d req Hin. rewrite Forall_forall in Hok.
  exact (Hok _ Hin).
Qed.

(** *** Enough levels *)

Lemma llm_query_same (c1 c2 : ChildRun) (depth : Z) (run : nat)
      (context buffer : string) (w : World) :
  (depth < MAX_DEPTH cfg -> same_at (depth + 1) c1 c2) ->
  llm_query cfg c1 depth run context buffer w
    = llm_query cfg c2 depth run context buffer w.
Proof.
  intros H. unfold llm_query.
  destruct (Z.geb_spec depth (MAX_DEPTH cfg)); [reflexivity|].
  now rewrite (H ltac:(lia)).
Qed.

Lemma run_python_same
      (q1 q2 : string -> string -> World -> Outcome Value * string * World)
      (p : PyRun (PyState rt)) (buffer : string) (w : World) :
  (forall c b w0, q1 c b w0 = q2 c b w0) ->
  run_python rt q1 p buffer w = run_python rt q2 p buffer w.
Proof.
  intros Hq. revert buffer w.
  induction p as [st | st e | text k IH | ctx k IH]; intros buffer w;
    cbn [run_python]; try reflexivity.
  - apply IH.
  - rewrite Hq. destruct (q2 ctx buffer w) as [[out b'] w']. apply IH.
Qed.

Lemma turns_same (c1 c2 : ChildRun) (depth : Z) (run : nat)
      (remaining : nat) (i : Z) (r : Run (PyState rt)) (w : World) :
  (depth < MAX_DEPTH cfg -> same_at (depth + 1) c1 c2) ->
  turns cfg rt c1 depth run remaining i r w
    = turns cfg rt c2 depth run remaining i r w.
Proof.
  intros H. revert i r w.
  induction remaining as [|n IH]; intros i r w; cbn [turns];
    [reflexivity|].
  assert (Ht : turn cfg rt c1 depth run i r w
               = turn cfg rt c2 depth run i r w).
  { unfold turn.
    destruct (generate_code rt depth (transcript r) _ _ _ w)
      as [[g | e] w1]; [|reflexivity].
    destruct (check_budget cfg rt _); [reflexivity|].
    destruct (success g); cbn [negb]; [|reflexivity].
    rewrite (run_python_same (llm_query cfg c1 depth run)
                             (llm_query cfg c2 depth run));
      [reflexivity|].
    intros c b w0. now apply llm_query_same. }
  rewrite Ht.
  destruct (turn cfg rt c2 depth run i r w) as [[r' | v | e] w'];
    [apply IH | reflexivity | reflexivity].
Qed.

Lemma subagent_body_same (c1 c2 : ChildRun) (depth : Z) :
  (depth < MAX_DEPTH cfg -> same_at (depth + 1) c1 c2) ->
  same_at depth (subagent_body cfg rt c1) (subagent_body cfg rt c2).
Proof.
  intros H context parent w. unfold subagent_body.
  assert (Hq : forall c b w0,
             llm_query cfg c1 depth (runs w) c b w0
             = llm_query cfg c2 depth (runs w) c b w0)
    by (intros; now apply llm_query_same).
  rewrite (run_python_same _ _ _ "" _ Hq).
  destruct (run_python rt (llm_query cfg c2 depth (runs w)) _ "" _)
    as [[[st raised] b1] w1].
  destruct raised; [reflexivity|].
  rewrite (run_python_same _ _ _ "" _ Hq).
  destruct (run_python rt (llm_query cfg c2 depth (runs w)) _ "" w1)
    as [[[st2 raised2] b2] w2].
  destruct raised2; [reflexivity|].
  now apply turns_same.
Qed.

(** A run never reaches below the levels [subagent] gives it: with any
    larger number of levels it does the same. *)
Lemma subagent_levels_enough (levels : nat) (depth : Z) :
  (levels_below cfg depth <= levels)%nat ->
  same_at depth (subagent_levels cfg rt levels) (subagent cfg rt).
Proof.
  unfold subagent. revert depth.
  induction levels as [|n IH]; intros depth Hn;
    [unfold levels_below in Hn; lia|].
  unfold levels_below in *.
  change (S (Z.to_nat (MAX_DEPTH cfg - depth)))
    with (levels_below cfg depth).
  unfold levels_below. cbn [subagent_levels].
  apply subagent_body_same. intros Hd context parent w.
  rewrite (IH (depth + 1) ltac:(lia) context parent w).
  unfold subagent, levels_below.
  replace (Z.to_nat (MAX_DEPTH cfg - depth))
    with (S (Z.to_nat (MAX_DEPTH cfg - (depth + 1)))) by lia.
  reflexivity.
Qed.

(** [subagent] obeys the recursion of the source: the runs that its
    [llm_query] starts are runs of [subagent] itself. *)
Lemma subagent_unfold (context : string) (depth : Z)
      (parent : option nat) (w : World) :
  subagent cfg rt context depth parent w
    = subagent_body cfg rt (subagent cfg rt) context depth parent w.
Proof.
  unfold subagent at 1. unfold levels_below. cbn [subagent_levels].
  apply subagent_body_same. intros Hd.
  apply subagent_levels_enough. unfold levels_below. lia.
Qed.

End Facts.

(** *** The scenario *)

Import EngineScenario.

Lemma llm_query_at_depth_limit_witness :
  llm_query default_config (no_run) 3 7 "a sub-task" "so far" initial_world
    = (Throw (ThrownError DEPTH_MESSAGE),
       "so far" ++ nl ++ "Error: " ++ DEPTH_MESSAGE ++ nl, initial_world).
Proof.
  refine (proj1 (llm_query_at_depth_limit default_config runtime no_run 3 7
                   "a sub-task" "so far" initial_world _)).
  simpl. lia.
Defined.

(** C3 as stated fails: the one child of the root run goes over the
    ceiling of completion tokens and throws, the program of the root run
    handles the failed call and sets a final value, and the root run
    returns it, with the total above the ceiling. *)
Lemma breach_in_child_root_returns_counterexample :
  let end_of_run :=
    subagent default_config runtime "root task" 0 None initial_world in
  fst end_of_run
    = Ok "child failed: Completion token budget exceeded: 60050 tokens used, limit is 50000" /\
  completion_tokens (getTotalUsage (accountant (snd end_of_run))) = 60050 /\
  MAX_COMPLETION_TOKENS default_config = 50000.
Proof. vm_compute. repeat split. Qed.

Lemma turn_without_code_witness :
  exists r' w',
    turn roomy_config prose_runtime no_run 0 0 0 a_run started
      = (Continue r', w') /\
    transcript r'
      = [user_message "Output:";
         mkMessage "assistant" (Some "Let me think about this.") None;
         CORRECTIVE_MESSAGE] /\
    step_numbers (log w') = [1].
Proof.
  destruct (turn_without_code roomy_config prose_runtime no_run 0 0 0 a_run
              started _ _ eq_refl eq_refl eq_refl)
    as (Ht & _).
  eexists. eexists. split; [exact Ht | split; reflexivity].
Defined.

(** C8 as stated fails: the reply to the first request of a root run
    holds no code and its usage takes the total over the ceiling of
    completion tokens; the run throws, and the priming step [0] is the
    only step in the log: the step without code is not logged and no
    corrective message follows. *)
Lemma no_code_over_budget_counterexample :
  let end_of_run :=
    subagent default_config prose_runtime "2+2" 0 None initial_world in
  extract_code "Let me think about this." = "" /\
  (exists g w1,
      model_call default_config prose_runtime 0 a_run started = (Ok g, w1) /\
      success g = false /\
      fst (turn default_config prose_runtime no_run 0 0 0 a_run started)
        = Raise (ThrownError
                   "Completion token budget exceeded: 60000 tokens used, limit is 50000")) /\
  fst end_of_run
    = Throw (ThrownError
               "Completion token budget exceeded: 60000 tokens used, limit is 50000") /\
  step_numbers (log (snd end_of_run)) = [0].
Proof.
  cbn zeta. split; [|split; [|split]].
  - vm_compute. reflexivity.
  - eexists. eexists. split; [vm_compute; reflexivity|].
    split; [reflexivity | vm_compute; reflexivity].
  - vm_compute. reflexivity.
  - vm_compute. reflexivity.
Qed.


End EngineFacts.

(* ================================================================== *)
(** * Further properties of the code *)
(* ================================================================== *)

Module AccountantOpsFacts.
Import JsNum JsNumFacts Accountant AccountantFacts AccountantOps.

Lemma total_permutation (f : Usage -> Z) (l l' : list Usage) :
  Permutation l l' -> total f l = total f l'.
Proof.
  unfold total.
  induction 1 as [| x l l' _ IH | x y l | l l' l'' _ IH1 _ IH2]; simpl; lia.
Qed.

(** The order in which deltas reach [trackUsage] does not matter for
    the token counts: two orders of the same deltas leave the same five
    token totals. *)
Theorem trackUsage_order_irrelevant (ds ds' : list Usage) (st : State) :
  Permutation ds ds' ->
  same_tokens (getTotalUsage (track_all ds st))
              (getTotalUsage (track_all ds' st)).
Proof.
  intros HP. rewrite !snapshot_is_copy.
  destruct (track_all_tokens ds st) as (A1 & A2 & A3 & A4 & A5).
  destruct (track_all_tokens ds' st) as (B1 & B2 & B3 & B4 & B5).
  unfold same_tokens. rewrite A1, A2, A3, A4, A5, B1, B2, B3, B4, B5.
  rewrite !(total_permutation _ ds ds' HP). repeat split.
Qed.

Lemma trackUsage_order_irrelevant_witness :
  same_tokens
    (getTotalUsage
       (track_all [mkUsage 100 50 150 0 0 (Some 0.01%float);
                   mkUsage 7 3 10 2 1 (Some 0.25%float)] initial))
    (getTotalUsage
       (track_all [mkUsage 7 3 10 2 1 (Some 0.25%float);
                   mkUsage 100 50 150 0 0 (Some 0.01%float)] initial)).
Proof.
  exact (trackUsage_order_irrelevant
           [mkUsage 100 50 150 0 0 (Some 0.01%float);
            mkUsage 7 3 10 2 1 (Some 0.25%float)]
           [mkUsage 7 3 10 2 1 (Some 0.25%float);
            mkUsage 100 50 150 0 0 (Some 0.01%float)]
           initial (perm_swap _ _ [])).
Defined.

Lemma track_all_cost_NaN (ds : list Usage) (st : State) :
  cost (globalUsage st) = Some NaN ->
  cost (globalUsage (track_all ds st)) = Some NaN.
Proof.
  intros H. now rewrite (track_all_cost_some ds st NaN H), running_cost_NaN.
Qed.

(** Once a delta without a reported cost has been tracked, the cost of
    the accumulator is [NaN], and it stays [NaN] whatever is tracked
    later. *)
Theorem unreported_cost_is_absorbing
        (before after : list Usage) (u : Usage) (st : State) :
  cost u = None ->
  cost (getTotalUsage (track_all (before ++ u :: after) st)) = Some NaN.
Proof.
  intros Hu. rewrite snapshot_is_copy, track_all_app, track_all_cons.
  apply track_all_cost_NaN. cbn [trackUsage globalUsage cost].
  rewrite Hu. cbn [of_optional]. now rewrite add_NaN_r.
Qed.

Lemma unreported_cost_is_absorbing_witness :
  cost (getTotalUsage
          (track_all
             ([mkUsage 100 50 150 0 0 (Some 0.01%float)]
                ++ mkUsage 10 5 15 0 0 None
                :: [mkUsage 1 1 2 0 0 (Some 3%float)])
             initial))
    = Some NaN.
Proof.
  exact (unreported_cost_is_absorbing
           [mkUsage 100 50 150 0 0 (Some 0.01%float)]
           [mkUsage 1 1 2 0 0 (Some 3%float)]
           (mkUsage 10 5 15 0 0 None) initial eq_refl).
Defined.

Lemma run_app (ops1 ops2 : list Op) (st : State) :
  run (ops1 ++ ops2) st = run ops2 (run ops1 st).
Proof. unfold run. apply fold_left_app. Qed.

Lemma track_all_usage_only (us : list Usage) (st1 st2 : State) :
  globalUsage st1 = globalUsage st2 ->
  globalUsage (track_all us st1) = globalUsage (track_all us st2).
Proof.
  revert st1 st2. induction us as [|u us IH]; intros st1 st2 H; [exact H|].
  rewrite !track_all_cons. apply IH. simpl. now rewrite H.
Qed.

Lemma run_no_reset (ops : list Op) (st : State) :
  has_reset ops = false ->
  globalUsage (run ops st) = globalUsage (track_all (usages ops) st) /\
  parallel_batches (parallelStats (run ops st))
    = parallel_batches (parallelStats st) + Z.of_nat (List.length (counts ops)) /\
  total_parallel_queries (parallelStats (run ops st))
    = total_parallel_queries (parallelStats st)
      + fold_right Z.add 0 (counts ops).
Proof.
  revert st. induction ops as [|o ops IH]; intros st Hr.
  - simpl. repeat split; lia.
  - destruct o as [u | n |]; [| |discriminate].
    + destruct (IH (trackUsage u st) Hr) as (H1 & H2 & H3).
      change (run (Track u :: ops) st) with (run ops (trackUsage u st)).
      rewrite H1, H2, H3. repeat split.
    + destruct (IH (trackParallelExecution n st) Hr) as (H1 & H2 & H3).
      change (run (TrackParallel n :: ops) st)
        with (run ops (trackParallelExecution n st)).
      rewrite H1, H2, H3.
      change (counts (TrackParallel n :: ops)) with (n :: counts ops).
      change (usages (TrackParallel n :: ops)) with (usages ops).
      simpl List.length. simpl fold_right.
      unfold trackParallelExecution at 2 3; cbn [parallelStats parallel_batches
        total_parallel_queries].
      repeat split; try lia.
      now apply track_all_usage_only.
Qed.

(** The two counters of [usage.ts] do not disturb each other: however
    calls of [trackUsage] and [trackParallelExecution] are interleaved,
    the snapshot is that of the deltas alone, the number of batches is the
    number of [trackParallelExecution] calls and the number of parallel
    queries is the sum of their counts. *)
Theorem usage_and_parallel_stats_independent (ops : list Op) :
  has_reset ops = false ->
  getTotalUsage (run ops initial)
    = getTotalUsage (track_all (usages ops) initial) /\
  getParallelStats (run ops initial)
    = mkParallelStats (Z.of_nat (List.length (counts ops)))
                      (fold_right Z.add 0 (counts ops)).
Proof.
  intros Hr. destruct (run_no_reset ops initial Hr) as (H1 & H2 & H3).
  split.
  - now rewrite !snapshot_is_copy.
  - unfold getParallelStats. rewrite H2, H3. reflexivity.
Qed.

Lemma usage_and_parallel_stats_independent_witness :
  let u := mkUsage 100 50 150 0 0 (Some 0.01%float) in
  getParallelStats (run [TrackParallel 3; Track u; TrackParallel 4] initial)
    = mkParallelStats 2 7.
Proof.
  exact (proj2 (usage_and_parallel_stats_independent
                  [TrackParallel 3;
                   Track (mkUsage 100 50 150 0 0 (Some 0.01%float));
                   TrackParallel 4] eq_refl)).
Defined.

(** [resetUsage] forgets everything: what the module state is after a
    sequence of calls depends only on the calls after the last reset. *)
Theorem resetUsage_forgets (before after : list Op) (st : State) :
  run (before ++ Reset :: after) st = run after initial.
Proof. rewrite run_app. reflexivity. Qed.

End AccountantOpsFacts.

Module SchedulerOpsFacts.
Import JsString JsError Scheduler SchedulerFacts SchedulerOps.

(** *** The state a flush leaves *)

Lemma flushBatch_empty (rt : Runtime) (ex : Executor) (w : World) :
  pendingQueries ex = [] ->
  flushBatch rt ex w = (with_pending [] None (stats ex) ex, w).
Proof.
  intros H. destruct ex as [pq bt cfg hs hc st]. simpl in H. subst pq.
  reflexivity.
Qed.

Lemma flushBatch_cases (rt : Runtime) (ex : Executor) (w : World) :
  exists st w',
    flushBatch rt ex w = (with_pending [] None st ex, w').
Proof.
  destruct (pendingQueries ex) as [|[k q] [|kq rest]] eqn:Hq.
  - rewrite (flushBatch_empty rt ex w Hq). eauto.
  - rewrite (flushBatch_single rt ex w k q Hq). eauto.
  - assert (Hn : (2 <= List.length (pendingQueries ex))%nat)
      by (rewrite Hq; simpl; lia).
    rewrite (flushBatch_parallel rt ex w Hn). eauto.
Qed.

Lemma flush_cases (rt : Runtime) (ex : Executor) (w : World) :
  exists st w', flush rt ex w = (with_pending [] None st ex, w').
Proof.
  unfold flush. destruct (batchTimeout ex) as [h|].
  - destruct (flushBatch_cases rt
                (with_pending (pendingQueries ex) None (stats ex) ex)
                (emit (ClearTimeout h) w)) as (st & w' & H).
    exists st, w'. rewrite H. reflexivity.
  - apply flushBatch_cases.
Qed.

(** [flush] with nothing pending and no timer armed does nothing, and
    [flush] right after [flush] does nothing: no event, no change of the
    executor. *)
Theorem flush_twice (rt : Runtime) (ex : Executor) (w : World) :
  let ex' := fst (flush rt ex w) in
  let w' := snd (flush rt ex w) in
  flush rt ex' w' = (ex', w').
Proof.
  destruct (flush_cases rt ex w) as (st & w' & H). cbn zeta.
  rewrite H. cbn [fst snd]. unfold flush. cbn [batchTimeout with_pending].
  rewrite flushBatch_empty by reflexivity. reflexivity.
Qed.

(** *** Who is settled *)

Lemma settled_promises_app (a b : list Event) :
  settled_promises (a ++ b) = (settled_promises a ++ settled_promises b)%list.
Proof. unfold settled_promises. apply flat_map_app. Qed.

Lemma settled_settle (q : PendingQuery) (r : Settled) :
  settled_promises [settle q r] = [promise q].
Proof. now destruct r. Qed.

Lemma settled_invokes (gid : option string)
      (batch : list (string * PendingQuery)) :
  settled_promises (invokes gid batch) = [].
Proof. induction batch as [|kq b IH]; simpl; auto. Qed.

Lemma settled_own_settlements (rt : Runtime) (gid : option string) (c : nat)
      (batch : list (string * PendingQuery)) :
  settled_promises (own_settlements rt gid c batch)
    = map (fun kq => promise (snd kq)) batch.
Proof.
  revert c. induction batch as [|[k q] b IH]; intros c; [reflexivity|].
  cbn [own_settlements map snd].
  change (settle q (subagentFn rt c (context q) gid)
            :: own_settlements rt gid (S c) b)
    with ([settle q (subagentFn rt c (context q) gid)]
            ++ own_settlements rt gid (S c) b)%list.
  rewrite settled_promises_app, settled_settle, IH. reflexivity.
Qed.

Lemma settled_chunk_events (rt : Runtime) (gid : option string) (c : nat)
      (batches : list (list (string * PendingQuery))) :
  settled_promises (chunk_events rt gid c batches)
    = map (fun kq => promise (snd kq)) (List.concat batches).
Proof.
  revert c. induction batches as [|b bs IH]; intros c; [reflexivity|].
  cbn [chunk_events List.concat].
  rewrite !settled_promises_app, settled_invokes, settled_own_settlements,
    IH, map_app. reflexivity.
Qed.

Lemma settled_flushBatch (rt : Runtime) (ex : Executor) (w : World) :
  settled_promises (new_events w (snd (flushBatch rt ex w)))
    = pending_promises ex.
Proof.
  unfold pending_promises.
  destruct (pendingQueries ex) as [|[k q] [|kq rest]] eqn:Hq.
  - rewrite (flushBatch_empty rt ex w Hq). cbn [snd].
    rewrite (new_events_app w w []) by (now rewrite app_nil_r). reflexivity.
  - rewrite (flushBatch_single rt ex w k q Hq). cbn [snd].
    rewrite (new_events_app w _ [Invoke (context q) None;
               settle q (subagentFn rt (invocations w) (context q) None)])
      by reflexivity.
    change [Invoke (context q) None;
            settle q (subagentFn rt (invocations w) (context q) None)]
      with ([Invoke (context q) None]
              ++ [settle q (subagentFn rt (invocations w) (context q) None)])%list.
    rewrite settled_promises_app, settled_settle. reflexivity.
  - assert (Hn : (2 <= List.length (pendingQueries ex))%nat)
      by (rewrite Hq; simpl; lia).
    rewrite (flushBatch_parallel_events rt ex w Hn).
    rewrite !settled_promises_app, settled_chunk_events,
      (cohort_batches_concat ex Hn), Hq.
    destruct (hasOnParallelStart ex), (hasOnParallelComplete ex);
      cbn [settled_promises flat_map app]; now rewrite ?app_nil_r.
Qed.

(** [flushBatch] only adds to the trace. *)
Lemma flushBatch_trace (rt : Runtime) (ex : Executor) (w : World) :
  trace (snd (flushBatch rt ex w))
    = (trace w ++ new_events w (snd (flushBatch rt ex w)))%list.
Proof.
  assert (H : forall w' evs, trace w' = (trace w ++ evs)%list ->
                             trace w' = (trace w ++ new_events w w')%list)
    by (intros w' evs E; now rewrite (new_events_app w w' evs E)).
  destruct (pendingQueries ex) as [|[k q] [|kq rest]] eqn:Hq.
  - rewrite (flushBatch_empty rt ex w Hq). apply (H w []).
    now rewrite app_nil_r.
  - rewrite (flushBatch_single rt ex w k q Hq). eapply H. reflexivity.
  - assert (Hn : (2 <= List.length (pendingQueries ex))%nat)
      by (rewrite Hq; simpl; lia).
    rewrite (flushBatch_parallel rt ex w Hn). eapply H. reflexivity.
Qed.

(** A call of [flushBatch], and a call of [flush], settles exactly the
    promises that were pending when it was called, each once, in the
    order in which the pending map holds them, whether the map is empty,
    holds one query or holds a cohort that is split into chunks. *)
Theorem flushBatch_settles_the_pending
        (rt : Runtime) (ex : Executor) (w : World) :
  settled_promises (new_events w (snd (flushBatch rt ex w)))
    = pending_promises ex /\
  settled_promises (new_events w (snd (flush rt ex w)))
    = pending_promises ex.
Proof.
  split; [apply settled_flushBatch|].
  unfold flush. destruct (batchTimeout ex) as [h|];
    [|apply settled_flushBatch].
  set (ex' := with_pending (pendingQueries ex) None (stats ex) ex).
  set (w' := emit (ClearTimeout h) w).
  rewrite (new_events_app w (snd (flushBatch rt ex' w'))
             ([ClearTimeout h]
                ++ new_events w' (snd (flushBatch rt ex' w')))).
  - rewrite settled_promises_app, settled_flushBatch. reflexivity.
  - rewrite flushBatch_trace. unfold w', emit; cbn [trace].
    now rewrite <- app_assoc.
Qed.

End SchedulerOpsFacts.

Module SchedulerQueueFacts.
Import JsString JsError Scheduler SchedulerFacts SchedulerOps SchedulerObs
       SchedulerOpsFacts.

(** *** [Map.prototype.set] *)

Lemma map_set_fresh {V : Type} (k : string) (v : V) (m : list (string * V)) :
  ~ In k (map fst m) -> map_set k v m = (m ++ [(k, v)])%list.
Proof.
  induction m as [|[k' v'] m IH]; intros Hk; [reflexivity|].
  cbn [map_set]. destruct (String.eqb_spec k k') as [->|Hne].
  - exfalso. apply Hk. now left.
  - rewrite IH; [reflexivity|]. intros Hin. apply Hk. now right.
Qed.

Lemma map_set_replace {V : Type} (k : string) (v old : V)
      (pre post : list (string * V)) :
  ~ In k (map fst pre) ->
  map_set k v (pre ++ (k, old) :: post) = (pre ++ (k, v) :: post)%list.
Proof.
  induction pre as [|[k' v'] pre IH]; intros Hk.
  - cbn [app map_set]. now rewrite String.eqb_refl.
  - cbn [app map_set]. destruct (String.eqb_spec k k') as [->|Hne].
    + exfalso. apply Hk. now left.
    + rewrite IH; [reflexivity|]. intros Hin. apply Hk. now right.
Qed.

Lemma map_set_length {V : Type} (k : string) (v : V) (m : list (string * V)) :
  (List.length (map_set k v m) <= S (List.length m))%nat.
Proof.
  induction m as [|[k' v'] m IH]; [simpl; lia|].
  cbn [map_set]. destruct (String.eqb k k'); simpl in *; lia.
Qed.

(** *** One submission *)

Lemma queueQuery_spec (rt : Runtime) (ctx : string) (ex : Executor)
      (w : World) :
  let qid := next_query_id rt w in
  let q := mkPendingQuery qid ctx (promises w)
                          (date_now rt (S (S (readings w)))) in
  let st := stats ex in
  queueQuery rt ctx ex w =
    (promises w,
     with_pending (map_set qid q (pendingQueries ex))
       (Some match batchTimeout ex with Some h => h | None => timers w end)
       (mkStats (totalQueries st + 1) (parallelBatches st)
                (sequentialQueries st) (totalParallelQueries st))
       ex,
     mkWorld (S (S (S (readings w)))) (invocations w) (S (promises w))
       match batchTimeout ex with Some _ => timers w | None => S (timers w) end
       (trace w ++ match batchTimeout ex with
                   | Some _ => []
                   | None => [SetTimeout (timers w) (batchWindowMs (config ex))]
                   end)).
Proof.
  destruct w as [r i p t tr]. destruct ex as [pq bt cfg hs hc st0].
  unfold queueQuery, next_query_id, Date_now, Math_random36, emit.
  cbn [readings invocations promises timers trace batchTimeout config stats
       pendingQueries].
  destruct bt; cbn; rewrite ?app_nil_r; reflexivity.
Qed.

Lemma queueQuery_pending_fresh
      (rt : Runtime) (ctx : string) (ex : Executor) (w : World) :
  ~ In (next_query_id rt w) (map fst (pendingQueries ex)) ->
  pendingQueries (snd (fst (queueQuery rt ctx ex w)))
    = (pendingQueries ex
         ++ [(next_query_id rt w,
              mkPendingQuery (next_query_id rt w) ctx (promises w)
                             (date_now rt (S (S (readings w)))))])%list.
Proof.
  intros Hfresh. rewrite queueQuery_spec. cbn [fst snd].
  unfold with_pending; cbn [pendingQueries].
  now rewrite map_set_fresh.
Qed.

(** A submission whose id is not in use joins the end of the pending
    set, so that pending queries are kept in the order of submission, and
    the caller gets the promise of the new entry. *)
Theorem queueQuery_fresh_id_appends
        (rt : Runtime) (ctx : string) (ex : Executor) (w : World) :
  ~ In (next_query_id rt w) (map fst (pendingQueries ex)) ->
  let ex' := snd (fst (queueQuery rt ctx ex w)) in
  pendingQueries ex'
    = (pendingQueries ex
         ++ [(next_query_id rt w,
              mkPendingQuery (next_query_id rt w) ctx (promises w)
                             (date_now rt (S (S (readings w)))))])%list /\
  fst (fst (queueQuery rt ctx ex w)) = promises w.
Proof.
  intros Hfresh. cbn zeta. split; [now apply queueQuery_pending_fresh|].
  now rewrite queueQuery_spec.
Qed.

Lemma queueQuery_fresh_id_appends_witness :
  pending_promises
    (snd (fst (queueQuery SchedulerScenario.runtime "success 2"
                 (fst SchedulerScenario.one_queued)
                 (snd SchedulerScenario.one_queued))))
    = [0%nat; 1%nat].
Proof.
  unfold pending_promises.
  rewrite (proj1 (queueQuery_fresh_id_appends SchedulerScenario.runtime
                    "success 2" (fst SchedulerScenario.one_queued)
                    (snd SchedulerScenario.one_queued)
                    ltac:(vm_compute; intros [H|[]]; discriminate H))).
  reflexivity.
Defined.

(** A submission that is given an id already in use takes the place of
    the pending query with that id: the next flush settles the new promise
    and the others, and the promise of the query that was replaced is not
    settled. *)
Theorem queueQuery_same_id_replaces
        (rt : Runtime) (ctx : string) (ex : Executor) (w : World)
        (pre post : list (string * PendingQuery)) (old : PendingQuery) :
  pendingQueries ex = (pre ++ (next_query_id rt w, old) :: post)%list ->
  ~ In (next_query_id rt w) (map fst pre) ->
  let ex' := snd (fst (queueQuery rt ctx ex w)) in
  let w' := snd (queueQuery rt ctx ex w) in
  List.length (pendingQueries ex') = List.length (pendingQueries ex) /\
  settled_promises (new_events w' (snd (flushBatch rt ex' w')))
    = (map (fun kq => promise (snd kq)) pre
         ++ promises w :: map (fun kq => promise (snd kq)) post)%list.
Proof.
  intros Hq Hpre. cbn zeta.
  rewrite settled_flushBatch. unfold pending_promises.
  rewrite queueQuery_spec. cbn [fst snd].
  unfold with_pending; cbn [pendingQueries].
  rewrite Hq, map_set_replace by exact Hpre.
  split.
  - now rewrite !length_app.
  - now rewrite map_app.
Qed.

Lemma queueQuery_same_id_replaces_witness :
  let first :=
    queueQuery stuck_runtime "first"
      (new_executor (mkParallelConfig 2 100 1 0 3) true true) initial_world in
  let second :=
    queueQuery stuck_runtime "second" (snd (fst first)) (snd first) in
  settled_promises
    (new_events (snd second)
       (snd (flushBatch stuck_runtime (snd (fst second)) (snd second))))
    = [1%nat].
Proof.
  exact (proj2 (queueQuery_same_id_replaces stuck_runtime "second"
                  (snd (fst (queueQuery stuck_runtime "first"
                               (new_executor (mkParallelConfig 2 100 1 0 3)
                                             true true)
                               initial_world)))
                  (snd (queueQuery stuck_runtime "first"
                          (new_executor (mkParallelConfig 2 100 1 0 3)
                                        true true)
                          initial_world))
                  [] []
                  (mkPendingQuery "q-1000-aaaaaa" "first" 0 1000)
                  eq_refl (fun H => H))).
Defined.

(** *** Many submissions *)

Lemma queue_each_cons (rt : Runtime) (ctx : string) (ctxs : list string)
      (ex : Executor) (w : World) :
  queue_each rt (ctx :: ctxs) ex w
    = queue_each rt ctxs (snd (fst (queueQuery rt ctx ex w)))
                         (snd (queueQuery rt ctx ex w)).
Proof.
  unfold queue_each. cbn [fold_left fst snd].
  now destruct (queueQuery rt ctx ex w) as [[p ex'] w'].
Qed.

Lemma queue_each_armed (rt : Runtime) (ctxs : list string) (ex : Executor)
      (w : World) (h : nat) :
  batchTimeout ex = Some h ->
  let ex' := fst (queue_each rt ctxs ex w) in
  let w' := snd (queue_each rt ctxs ex w) in
  trace w' = trace w /\ batchTimeout ex' = Some h /\
  config ex' = config ex /\
  totalQueries (stats ex')
    = totalQueries (stats ex) + Z.of_nat (List.length ctxs).
Proof.
  revert ex w. induction ctxs as [|ctx ctxs IH]; intros ex w Hb; cbn zeta.
  - cbn. repeat split; [assumption | lia].
  - rewrite queue_each_cons.
    pose proof (queueQuery_spec rt ctx ex w) as Hs. cbn zeta in Hs.
    rewrite Hb in Hs. rewrite Hs. cbn [fst snd].
    match goal with
    | |- context [queue_each rt ctxs ?e ?v] =>
        destruct (IH e v eq_refl) as (H1 & H2 & H3 & H4)
    end.
    rewrite H1, H2, H3, H4. cbn. rewrite app_nil_r.
    repeat split. lia.
Qed.

(** However many queries are submitted to an idle executor before the
    timer fires, exactly one timer is armed, with the configured batch
    window, and every submission is counted in [totalQueries]. *)
Theorem one_timer_per_batch (rt : Runtime) (ctx : string)
        (ctxs : list string) (ex : Executor) (w : World) :
  batchTimeout ex = None ->
  let ex' := fst (queue_each rt (ctx :: ctxs) ex w) in
  let w' := snd (queue_each rt (ctx :: ctxs) ex w) in
  timers_armed (new_events w w') = [batchWindowMs (config ex)] /\
  batchTimeout ex' = Some (timers w) /\
  totalQueries (stats ex')
    = totalQueries (stats ex) + Z.of_nat (List.length (ctx :: ctxs)).
Proof.
  intros Hb. cbn zeta. rewrite queue_each_cons.
  pose proof (queueQuery_spec rt ctx ex w) as Hs. cbn zeta in Hs.
  rewrite Hb in Hs. rewrite Hs. cbn [fst snd].
  match goal with
  | |- context [queue_each rt ctxs ?e ?v] =>
      destruct (queue_each_armed rt ctxs e v (timers w) eq_refl)
        as (H1 & H2 & H3 & H4)
  end.
  rewrite H2, H4.
  rewrite (new_events_app w _ [SetTimeout (timers w) (batchWindowMs (config ex))])
    by (rewrite H1; reflexivity).
  cbn. repeat split. lia.
Qed.

Lemma one_timer_per_batch_witness :
  timers_armed
    (new_events initial_world
       (snd (queue_each SchedulerScenario.runtime
               ["success 1"; "fail please"; "success 2"]
               SchedulerScenario.executor initial_world)))
    = [100].
Proof.
  exact (proj1 (one_timer_per_batch SchedulerScenario.runtime "success 1"
                  ["fail please"; "success 2"] SchedulerScenario.executor
                  initial_world eq_refl)).
Defined.

End SchedulerQueueFacts.

Module SchedulerRunFacts.
Import JsString JsError Scheduler SchedulerFacts SchedulerOps SchedulerObs
       SchedulerOpsFacts SchedulerQueueFacts.

(** *** From submission to settlement *)

Lemma queue_each_distinct (rt : Runtime) (ctxs : list string) (ex : Executor)
      (w : World) :
  NoDup (map fst (pendingQueries ex) ++ ids_from rt w (List.length ctxs)) ->
  let ex' := fst (queue_each rt ctxs ex w) in
  pending_promises ex'
    = (pending_promises ex ++ seq (promises w) (List.length ctxs))%list.
Proof.
  revert ex w. induction ctxs as [|ctx ctxs IH]; intros ex w Hnd; cbn zeta.
  - cbn. now rewrite app_nil_r.
  - rewrite queue_each_cons.
    assert (Hid : ids_from rt w (S (List.length ctxs))
                  = next_query_id rt w
                      :: ids_from rt (snd (queueQuery rt ctx ex w))
                                  (List.length ctxs)).
    { unfold ids_from, next_query_id. cbn [seq map].
      rewrite Nat.mul_0_r, Nat.add_0_r. f_equal.
      rewrite <- seq_shift, map_map. apply map_ext. intros i.
      rewrite queueQuery_spec. cbn [snd readings].
      replace (S (S (S (readings w))) + 3 * i)%nat
        with (readings w + 3 * S i)%nat by lia.
      reflexivity. }
    cbn [List.length] in Hnd. rewrite Hid in Hnd.
    assert (Hfresh : ~ In (next_query_id rt w) (map fst (pendingQueries ex))).
    { intros Hin. apply NoDup_remove_2 in Hnd. apply Hnd.
      apply in_or_app. now left. }
    pose proof (queueQuery_pending_fresh rt ctx ex w Hfresh) as Hp.
    rewrite IH.
    + unfold pending_promises. rewrite Hp, map_app.
      rewrite queueQuery_spec. cbn [snd promises map List.length seq].
      now rewrite <- app_assoc.
    + rewrite Hp, map_app. cbn [map fst]. rewrite <- app_assoc.
      exact Hnd.
Qed.

(** When the ids given to the submissions differ from one another, every
    query submitted to a new executor is settled by the flush that
    follows, each once and in the order of submission. *)
Theorem distinct_ids_all_settled
        (rt : Runtime) (cfg : ParallelConfig) (onStart onComplete : bool)
        (ctxs : list string) (w : World) :
  NoDup (ids_from rt w (List.length ctxs)) ->
  let queued := queue_each rt ctxs (new_executor cfg onStart onComplete) w in
  settled_promises
    (new_events (snd queued) (snd (flushBatch rt (fst queued) (snd queued))))
    = seq (promises w) (List.length ctxs).
Proof.
  intros Hnd. cbn zeta. rewrite settled_flushBatch.
  now rewrite queue_each_distinct.
Qed.

Lemma distinct_ids_all_settled_witness :
  let queued :=
    queue_each SchedulerScenario.runtime
      ["success 1"; "fail please"; "success 2"]
      (new_executor (mkParallelConfig 2 100 1 0 3) true true)
      initial_world in
  settled_promises
    (new_events (snd queued)
       (snd (flushBatch SchedulerScenario.runtime (fst queued) (snd queued))))
    = [0%nat; 1%nat; 2%nat].
Proof.
  refine (distinct_ids_all_settled SchedulerScenario.runtime
            (mkParallelConfig 2 100 1 0 3) true true
            ["success 1"; "fail please"; "success 2"] initial_world _).
  vm_compute. repeat constructor; simpl; intuition discriminate.
Defined.

(** *** Statistics *)

(** [resetStats] touches nothing but the statistics: the pending set and
    the timer are kept, and the flush that follows does to its
    surroundings exactly what it would have done without the reset. *)
Theorem resetStats_keeps_the_cohort (rt : Runtime) (ex : Executor) (w : World) :
  pendingQueries (resetStats ex) = pendingQueries ex /\
  batchTimeout (resetStats ex) = batchTimeout ex /\
  snd (flushBatch rt (resetStats ex) w) = snd (flushBatch rt ex w) /\
  snd (getStats (resetStats ex)) = snd (getStats ex).
Proof.
  split; [reflexivity|]. split; [reflexivity|]. split; [|reflexivity].
  destruct (pendingQueries ex) as [|[k q] [|kq rest]] eqn:Hq.
  - rewrite !flushBatch_empty by assumption. reflexivity.
  - rewrite (flushBatch_single rt ex w k q Hq).
    rewrite (flushBatch_single rt (resetStats ex) w k q Hq). reflexivity.
  - assert (Hn : (2 <= List.length (pendingQueries ex))%nat)
      by (rewrite Hq; simpl; lia).
    rewrite (flushBatch_parallel rt ex w Hn).
    rewrite (flushBatch_parallel rt (resetStats ex) w Hn). reflexivity.
Qed.

Lemma accounted_flushBatch (rt : Runtime) (ex : Executor) (w : World) :
  accounted (fst (flushBatch rt ex w)) = accounted ex /\
  totalQueries (stats (fst (flushBatch rt ex w))) = totalQueries (stats ex).
Proof.
  unfold accounted.
  destruct (pendingQueries ex) as [|[k q] [|kq rest]] eqn:Hq.
  - rewrite (flushBatch_empty rt ex w Hq). cbn. split; lia.
  - rewrite (flushBatch_single rt ex w k q Hq). cbn. split; lia.
  - assert (Hn : (2 <= List.length (pendingQueries ex))%nat)
      by (rewrite Hq; simpl; lia).
    rewrite (flushBatch_parallel rt ex w Hn). rewrite Hq. cbn. split; lia.
Qed.

Lemma accounted_apply (rt : Runtime) (o : Op) (exw : Executor * World) :
  accounted (fst exw) <= totalQueries (stats (fst exw)) ->
  accounted (fst (apply rt o exw))
    <= totalQueries (stats (fst (apply rt o exw))).
Proof.
  destruct exw as [ex w]. cbn [fst snd]. intros H.
  destruct o as [ctx | |]; cbn [apply fst snd].
  - rewrite queueQuery_spec. cbn [fst snd]. unfold accounted in *.
    unfold with_pending; cbn [stats pendingQueries sequentialQueries
      totalParallelQueries totalQueries].
    pose proof (map_set_length (next_query_id rt w)
                  (mkPendingQuery (next_query_id rt w) ctx (promises w)
                     (date_now rt (S (S (readings w)))))
                  (pendingQueries ex)).
    lia.
  - destruct (accounted_flushBatch rt ex w) as [-> ->]. exact H.
  - unfold flush. destruct (batchTimeout ex) as [h|].
    + destruct (accounted_flushBatch rt
                  (with_pending (pendingQueries ex) None (stats ex) ex)
                  (emit (ClearTimeout h) w)) as [-> ->]. exact H.
    + destruct (accounted_flushBatch rt ex w) as [-> ->]. exact H.
Qed.

(** Through any sequence of submissions, timer firings and flushes of a
    new executor, the queries executed alone, the queries executed in
    cohorts and the queries still pending never add up to more than
    [totalQueries]; a flush moves the pending queries into the two
    executed counts and changes neither the sum nor [totalQueries]. *)
Theorem statistics_never_overcount
        (rt : Runtime) (cfg : ParallelConfig) (onStart onComplete : bool)
        (ops : list Op) (w : World) :
  let ex := fst (run rt ops (new_executor cfg onStart onComplete, w)) in
  accounted ex <= totalQueries (stats ex) /\
  (forall w', accounted (fst (flushBatch rt ex w')) = accounted ex /\
              totalQueries (stats (fst (flushBatch rt ex w')))
                = totalQueries (stats ex)).
Proof.
  cbn zeta. split; [|intros w'; apply accounted_flushBatch].
  unfold run.
  assert (H0 : accounted (fst (new_executor cfg onStart onComplete, w))
               <= totalQueries
                    (stats (fst (new_executor cfg onStart onComplete, w))))
    by (cbn; lia).
  revert H0. generalize (new_executor cfg onStart onComplete, w).
  induction ops as [|o ops IH]; intros exw H0; [exact H0|].
  cbn [fold_left]. apply IH. now apply accounted_apply.
Qed.

(** *** Concurrency *)

Lemma peak_app (a b : list Event) (c : nat) :
  peak_in_flight (a ++ b) c
    = Nat.max (peak_in_flight a c) (peak_in_flight b (in_flight_after a c)).
Proof.
  revert c. induction a as [|e a IH]; intros c.
  - cbn [app peak_in_flight in_flight_after].
    destruct b as [|e b]; cbn [peak_in_flight]; lia.
  - cbn [app peak_in_flight in_flight_after]. rewrite IH. lia.
Qed.

Lemma in_flight_after_app (a b : list Event) (c : nat) :
  in_flight_after (a ++ b) c = in_flight_after b (in_flight_after a c).
Proof. revert c. induction a as [|e a IH]; intros c; [reflexivity | apply IH]. Qed.

Lemma invokes_in_flight (gid : option string)
      (b : list (string * PendingQuery)) (c : nat) :
  in_flight_after (invokes gid b) c = (c + List.length b)%nat /\
  peak_in_flight (invokes gid b) c = (c + List.length b)%nat.
Proof.
  revert c. induction b as [|kq b IH]; intros c.
  - cbn. lia.
  - cbn [invokes map in_flight_after peak_in_flight List.length].
    destruct (IH (S c)) as [H1 H2]. unfold invokes in *. rewrite H1, H2. lia.
Qed.

Lemma own_settlements_in_flight (rt : Runtime) (gid : option string)
      (i : nat) (b : list (string * PendingQuery)) (c : nat) :
  in_flight_after (own_settlements rt gid i b) c = (c - List.length b)%nat /\
  peak_in_flight (own_settlements rt gid i b) c = c.
Proof.
  revert i c. induction b as [|[k q] b IH]; intros i c.
  - cbn. lia.
  - cbn [own_settlements in_flight_after peak_in_flight List.length].
    destruct (IH (S i) (Nat.pred c)) as [H1 H2].
    destruct (subagentFn rt i (context q) gid); cbn [settle];
      rewrite H1, H2; lia.
Qed.

Lemma chunk_events_in_flight (rt : Runtime) (gid : option string) (i : nat)
      (batches : list (list (string * PendingQuery))) (m : nat) :
  Forall (fun b => (List.length b <= m)%nat) batches ->
  in_flight_after (chunk_events rt gid i batches) 0 = 0%nat /\
  (peak_in_flight (chunk_events rt gid i batches) 0 <= m)%nat.
Proof.
  intros H. revert i. induction H as [|b bs Hb _ IH]; intros i.
  - cbn. lia.
  - cbn [chunk_events].
    rewrite !in_flight_after_app, !peak_app, ?in_flight_after_app.
    destruct (invokes_in_flight gid b 0) as [A1 A2].
    destruct (own_settlements_in_flight rt gid i b (0 + List.length b))
      as [B1 B2].
    rewrite A1, A2, B1, B2. replace (0 + List.length b - List.length b)%nat
      with 0%nat by lia.
    destruct (IH (i + List.length b)%nat) as [C1 C2]. rewrite C1. lia.
Qed.

Lemma cohort_batches_bounded
      (rt : Runtime) (ex : Executor) :
  (2 <= List.length (pendingQueries ex))%nat ->
  0 < maxParallelChildren (config ex) ->
  Forall (fun b => (List.length b
                    <= Z.to_nat (maxParallelChildren (config ex)))%nat)
         (cohort_batches ex).
Proof.
  intros Hn Hk. unfold cohort_batches, chunk_size.
  destruct (Z.gtb_spec (maxParallelChildren (config ex)) 0); [|lia].
  eapply Forall_impl; [|apply make_batches_bounded; lia].
  cbn beta. intros b Hb. lia.
Qed.

(** With a positive [maxParallelChildren], a flush of a cohort never has
    more than that many invocations made and not yet settled; when the
    flush ends, none is left unsettled. *)
Theorem flushBatch_bounded_concurrency
        (rt : Runtime) (ex : Executor) (w : World) :
  (2 <= List.length (pendingQueries ex))%nat ->
  0 < maxParallelChildren (config ex) ->
  let events := new_events w (snd (flushBatch rt ex w)) in
  (peak_in_flight events 0 <= Z.to_nat (maxParallelChildren (config ex)))%nat /\
  in_flight_after events 0 = 0%nat.
Proof.
  intros Hn Hk. cbn zeta. rewrite (flushBatch_parallel_events rt ex w Hn).
  pose proof (cohort_batches_bounded rt ex Hn Hk) as Hb.
  destruct (chunk_events_in_flight rt (Some (cohort_group_id rt w))
              (invocations w) (cohort_batches ex)
              (Z.to_nat (maxParallelChildren (config ex))) Hb) as [C1 C2].
  destruct (hasOnParallelStart ex), (hasOnParallelComplete ex);
    rewrite !peak_app, !in_flight_after_app;
    cbn [peak_in_flight in_flight_after];
    rewrite ?C1; cbn [peak_in_flight in_flight_after]; split; lia.
Qed.

Lemma flushBatch_bounded_concurrency_witness :
  let ex := fst SchedulerScenario.three_queued in
  let w := snd SchedulerScenario.three_queued in
  let events := new_events w (snd (flushBatch SchedulerScenario.runtime ex w)) in
  (peak_in_flight events 0 <= Z.to_nat (maxParallelChildren (config ex)))%nat /\
  in_flight_after events 0 = 0%nat.
Proof.
  refine (flushBatch_bounded_concurrency SchedulerScenario.runtime
            (fst SchedulerScenario.three_queued)
            (snd SchedulerScenario.three_queued) _ _).
  - vm_compute. lia.
  - vm_compute. reflexivity.
Defined.

End SchedulerRunFacts.

Module ExtractFacts.
Import JsString JsError JsNum Accountant Output Engine EngineFacts EngineObs.

(** *** Searching a string *)

Lemma length_append (a b : string) :
  String.length (a ++ b) = (String.length a + String.length b)%nat.
Proof. induction a as [|x a IH]; simpl; [reflexivity | now rewrite IH]. Qed.

Lemma starts_with_append (p r : string) : starts_with p (p ++ r) = true.
Proof. apply starts_with_spec. now exists r. Qed.

Lemma drop_append (p r : string) : drop (String.length p) (p ++ r) = r.
Proof. induction p as [|x p IH]; [now destruct r | exact IH]. Qed.

Lemma split_on_absent (p s : string) :
  includes p s = false -> split_on p s = None.
Proof.
  induction s as [|x s IH]; cbn [includes split_on]; intros H;
    apply orb_false_iff in H; destruct H as [H1 H2]; rewrite H1.
  - reflexivity.
  - now rewrite (IH H2).
Qed.

Lemma includes_needs_first (c : ascii) (p s : string) :
  includes (String c "") s = false -> includes (String c p) s = false.
Proof.
  induction s as [|x s IH]; cbn [includes starts_with]; intros H;
    apply orb_false_iff in H; destruct H as [H1 H2].
  - reflexivity.
  - rewrite andb_true_r in H1. rewrite H1. cbn [andb orb]. now apply IH.
Qed.

Lemma includes_append_false (p : ascii) (a b : string) :
  includes (String p "") (a ++ b) = false <->
  includes (String p "") a = false /\ includes (String p "") b = false.
Proof.
  induction a as [|x a IH].
  - cbn [append]. split; [intros H; split; [reflexivity | exact H] | tauto].
  - cbn [append includes starts_with]. rewrite !andb_true_r.
    rewrite !orb_false_iff, IH. tauto.
Qed.

Lemma split_on_first (c : ascii) (p s r : string) :
  includes (String c "") s = false ->
  split_on (String c p) (s ++ String c p ++ r) = Some (s, r).
Proof.
  induction s as [|x s IH]; intros H.
  - cbn [append]. change (String c (p ++ r)) with (String c p ++ r).
    unfold split_on. destruct (String c p ++ r) eqn:E; [discriminate|].
    rewrite <- E, starts_with_append, drop_append. reflexivity.
  - cbn [includes starts_with] in H. rewrite andb_true_r in H.
    apply orb_false_iff in H. destruct H as [H1 H2].
    change ((String x s) ++ String c p ++ r)
      with (String x (s ++ String c p ++ r)).
    cbn [split_on starts_with]. rewrite H1. cbn [andb].
    now rewrite (IH H2).
Qed.

(** *** [trim] *)

Lemma trim_end_nl (s : string) : trim_end (s ++ nl) = trim_end s.
Proof.
  induction s as [|x s IH]; [reflexivity|].
  cbn [append trim_end]. now rewrite IH.
Qed.

Lemma trim_nl_both (s : string) : trim (nl ++ s ++ nl) = trim s.
Proof.
  unfold trim. change (trim_start (nl ++ s ++ nl))
    with (trim_start (s ++ nl)).
  induction s as [|x s IH]; [reflexivity|].
  cbn [append trim_start]. destruct (is_space x); [exact IH|].
  change (String x (s ++ nl)) with (String x s ++ nl).
  apply trim_end_nl.
Qed.

(** *** What [generate_code] finds in a reply *)

(** A fenced [repl] block in the middle of prose is found and trimmed:
    when neither the prose nor the code holds a backtick, the code
    extracted from the reply is the code of the block without the white
    space around it. *)
Theorem extract_code_of_fenced_block (before code after : string) :
  no_backtick before -> no_backtick code -> no_backtick after ->
  extract_code (before ++ "```repl" ++ nl ++ code ++ nl ++ "```" ++ after)
    = trim code.
Proof.
  unfold no_backtick. intros Hb Hc Ha. unfold extract_code.
  set (text := before ++ "```repl" ++ nl ++ code ++ nl ++ "```" ++ after).
  destruct (String.length text) as [|n] eqn:E.
  { exfalso. unfold text in E. rewrite length_append in E.
    cbn [append String.length] in E. lia. }
  cbn [repl_matches]. unfold text.
  rewrite (split_on_first "`" "``repl" before _ Hb).
  assert (Hbody : includes "`" (nl ++ code ++ nl) = false).
  { apply includes_append_false. split; [reflexivity|].
    apply includes_append_false. now split. }
  replace (nl ++ code ++ nl ++ "```" ++ after)
    with ((nl ++ code ++ nl) ++ "```" ++ after)
    by (now rewrite !append_assoc).
  rewrite (split_on_first "`" "``" (nl ++ code ++ nl) after Hbody).
  assert (Hrest : repl_matches n after = []).
  { destruct n; [reflexivity|]. cbn [repl_matches].
    rewrite split_on_absent; [reflexivity|].
    now apply includes_needs_first. }
  rewrite Hrest. cbn [map String.concat]. apply trim_nl_both.
Qed.

Lemma extract_code_of_fenced_block_witness :
  extract_code ("Here is the code:" ++ "```repl" ++ nl ++ "  x = 1  "
                  ++ nl ++ "```" ++ " Done.")
    = "x = 1".
Proof.
  exact (extract_code_of_fenced_block "Here is the code:" "  x = 1  " " Done."
           eq_refl eq_refl eq_refl).
Defined.

Lemma extract_code_without_fence (text : string) :
  includes "```repl" text = false -> extract_code text = "".
Proof.
  intros H. unfold extract_code.
  destruct (String.length text); cbn [repl_matches];
    [reflexivity | now rewrite split_on_absent].
Qed.

(** A reply whose content is null, or holds no opening [repl] fence, is
    answered by [generate_code] with [success = false] and an empty code;
    the message and the usage of the reply are passed on, and nothing is
    tracked. *)
Theorem generate_code_without_fence
        (rt : Runtime) (depth : Z) (msgs : list Message) (m : string)
        (leaf : bool) (o : ApiRetryOptions) (w : World) (c : Completion) :
  create rt (requests w) (chat_request rt msgs m leaf o) = Completed c ->
  (forall text, content (choice_message c) = Some text ->
                includes "```repl" text = false) ->
  fst (generate_code rt depth msgs m leaf o w)
    = Ok (mkCodeReturn "" false (choice_message c)
                       (usage_of (completion_usage c))) /\
  accountant (snd (generate_code rt depth msgs m leaf o w)) = accountant w.
Proof.
  intros Hc Hno. unfold generate_code. rewrite Hc.
  assert (He : extract_code
                 match content (choice_message c) with
                 | Some t => t | None => "" end = "").
  { destruct (content (choice_message c)) as [t|];
      [apply extract_code_without_fence; now apply Hno | reflexivity]. }
  rewrite He. cbn. split; reflexivity.
Qed.

Lemma generate_code_without_fence_witness :
  fst (generate_code EngineScenario.prose_runtime 0
         [user_message "Output:"] "z-ai/glm-5" false
         (mkApiRetryOptions None None) initial_world)
    = Ok (mkCodeReturn "" false
            (mkMessage "assistant" (Some "Let me think about this.") None)
            (mkUsage 100 60000 60100 0 0 (Some 0.01%float))).
Proof.
  refine (proj1 (generate_code_without_fence EngineScenario.prose_runtime 0
                   [user_message "Output:"] "z-ai/glm-5" false
                   (mkApiRetryOptions None None) initial_world _ eq_refl _)).
  intros text H. injection H as <-. reflexivity.
Defined.

End ExtractFacts.

Module RunFacts.
Import JsString JsStringFacts JsError JsNum JsNumFacts Accountant Output
       Engine EngineFacts EngineObs ExtractFacts.

(** *** The size of what is shown to the model *)

(** With a positive limit the truncated text is never longer than the
    limit and the longer of the two markers that can precede text, and
    it is never empty. *)
Theorem truncateText_bounded (T : Z) (s : string) :
  0 < T ->
  0 < len (truncateText T s) /\
  len (truncateText T s)
    <= T + Z.max (len FULL_MARKER) (len (TRUNCATED_MARKER T)).
Proof.
  intros HT. unfold truncateText, len in *.
  destruct (Z.gtb_spec (Z.of_nat (String.length s)) T) as [Hlong|Hshort].
  - rewrite length_append. rewrite slice_neg_last by (unfold len; lia).
    rewrite length_last_chars by lia.
    unfold TRUNCATED_MARKER at 1. cbn [append String.length]. lia.
  - destruct (Z.eqb_spec (Z.of_nat (String.length s)) 0) as [Hz|Hnz].
    + cbn. lia.
    + rewrite length_append. cbn [FULL_MARKER String.length]. lia.
Qed.

Lemma truncateText_bounded_witness :
  len (truncateText 3 "abcdef")
    <= 3 + Z.max (len FULL_MARKER) (len (TRUNCATED_MARKER 3)).
Proof.
  refine (proj2 (truncateText_bounded 3 "abcdef" _)). lia.
Defined.

Section Facts.
Context (cfg : Config) (rt : Runtime).

(** *** The ceilings *)

(** When the money ceiling is [Infinity] (the default), or the cost of
    the accumulator is [NaN] or missing, the cost never stops a run: the
    budget check passes exactly when the two token totals are within
    their ceilings. *)
Theorem cost_ceiling_out_of_play (total : Usage) :
  MAX_MONEY_SPENT cfg = PosInf \/ of_optional (cost total) = NaN ->
  (check_budget cfg rt total = None <->
   completion_tokens total <= MAX_COMPLETION_TOKENS cfg /\
   prompt_tokens total <= MAX_PROMPT_TOKENS cfg).
Proof.
  intros H. unfold check_budget.
  assert (Hc : match cost total with
               | Some c => gtb c (MAX_MONEY_SPENT cfg)
               | None => false
               end = false).
  { destruct (cost total) as [c|]; [|reflexivity].
    destruct H as [-> | H]; [apply gtb_PosInf_r|].
    cbn [of_optional] in H. subst c. apply gtb_NaN_l. }
  rewrite Hc.
  destruct (Z.gtb_spec (completion_tokens total) (MAX_COMPLETION_TOKENS cfg)).
  - split; [discriminate | lia].
  - destruct (Z.gtb_spec (prompt_tokens total) (MAX_PROMPT_TOKENS cfg)).
    + split; [discriminate | lia].
    + split; [lia | reflexivity].
Qed.

(** *** How a run ends *)

Lemma turns_ok (child : ChildRun) (depth : Z) (run : nat) (remaining : nat)
      (i : Z) (r : Run (PyState rt)) (w : World) (v : Value) :
  (forall c d p w0, grows cfg rt w0 (snd (child c d p w0))) ->
  fst (turns cfg rt child depth run remaining i r w) = Ok v ->
  exists events data,
    log (snd (turns cfg rt child depth run remaining i r w))
      = (log w ++ events
           ++ [Step run depth data; FinalResult run depth v; AgentEnd run])%list /\
    output data = None /\ hasError data = None.
Proof.
  intros Hc. revert i r w.
  induction remaining as [|n IH]; intros i r w; cbn [turns];
    [discriminate|].
  pose proof (turn_grows cfg rt child depth run i r w Hc) as Hg.
  destruct (turn cfg rt child depth run i r w) as [[r' | v' | e] w'] eqn:Ht;
    cbn [fst snd] in *; [| |discriminate].
  - intros Hok. destruct (IH (i + 1) r' w' Hok) as (evs & data & Hl & Ho).
    destruct Hg as (evs0 & Hl0 & _).
    exists (evs0 ++ evs)%list, data. split; [|exact Ho].
    rewrite Hl, Hl0. now rewrite <- !app_assoc.
  - intros Hok. injection Hok as ->. clear Hg IH.
    unfold turn in Ht.
    pose proof (generate_code_grows cfg rt depth (transcript r)
                  (if depth =? 0 then PRIMARY_AGENT cfg else SUB_AGENT cfg)
                  (retry_options cfg) w) as (evs1 & Hl1 & _).
    destruct (generate_code rt depth (transcript r) _ _ _ w)
      as [[g | e] w1]; cbn [snd] in Hl1; [|discriminate].
    destruct (check_budget cfg rt _); [discriminate|].
    destruct (success g); cbn [negb] in Ht; [|discriminate].
    pose proof (run_python_grows cfg rt (llm_query cfg child depth run)
                  (runPythonAsync rt (py r) (code g)) ""
                  (track (usage g) w1)
                  (fun c b w0 => llm_query_grows cfg rt child depth run c b w0 Hc))
      as (evs2 & Hl2 & _).
    destruct (run_python rt _ _ "" (track (usage g) w1))
      as [[[st raised] buffer] w2]. cbn [snd] in Hl2.
    destruct (final_result_set rt st); [|discriminate].
    injection Ht as <- <-.
    exists (evs1 ++ evs2)%list,
      (mkStepData (i + 1) (code g) None None (reasoning (message g))
                  (usage g) (getTotalUsage (accountant w2))).
    split; [|split; reflexivity].
    unfold logStep, emit; cbn [log]. rewrite Hl2. cbn [track log].
    rewrite Hl1. now rewrite <- !app_assoc.
Qed.

(** A run that returns a value has logged, as its last three events, the
    step that set it (without output), the final result with that same
    value, and the end of the run. *)
Theorem success_is_logged (context : string) (depth : Z)
        (parent : option nat) (w : World) (v : Value) :
  fst (subagent cfg rt context depth parent w) = Ok v ->
  exists events data,
    log (snd (subagent cfg rt context depth parent w))
      = (log w ++ events
           ++ [Step (runs w) depth data; FinalResult (runs w) depth v;
               AgentEnd (runs w)])%list /\
    output data = None /\ hasError data = None.
Proof.
  rewrite subagent_unfold. unfold subagent_body.
  assert (Hsub : forall c d p w0,
             grows cfg rt w0 (snd (subagent cfg rt c d p w0)))
    by (intros; apply subagent_levels_grows).
  pose proof (fun p b w' =>
                run_python_grows cfg rt
                  (llm_query cfg (subagent cfg rt) depth (runs w)) p b w'
                  (fun c b0 w1 =>
                     llm_query_grows cfg rt (subagent cfg rt) depth (runs w)
                                     c b0 w1 Hsub)) as Hp.
  set (w0 := emit (AgentStart (runs w) depth parent) _).
  pose proof (Hp (runPythonAsync rt (loadPyodide rt) (setup_code rt context))
                 "" w0) as (evs1 & Hl1 & _).
  destruct (run_python rt _ _ "" w0) as [[[st raised] b1] w1].
  cbn [snd] in Hl1. destruct raised; [discriminate|].
  pose proof (Hp (runPythonAsync rt st initial_code) "" w1) as (evs2 & Hl2 & _).
  destruct (run_python rt _ _ "" w1) as [[[st2 raised2] b2] w2].
  cbn [snd] in Hl2. destruct raised2; [discriminate|].
  intros Hok.
  destruct (turns_ok _ _ _ _ _ _ _ v Hsub Hok) as (evs & data & Hl & Ho).
  exists ([AgentStart (runs w) depth parent] ++ evs1 ++ evs2
          ++ [Step (runs w) depth
                (mkStepData 0 initial_code (Some (trim b2)) (Some false) None
                            noUsage (getTotalUsage (accountant w2)))]
          ++ evs)%list, data.
  split; [|exact Ho].
  rewrite Hl. unfold logStep, emit; cbn [log]. rewrite Hl2, Hl1.
  unfold w0, emit; cbn [log]. now rewrite <- !app_assoc.
Qed.

(** With a step budget of [0] (or less) no run returns a value, and a
    run at the depth limit makes no request to the provider. *)
Theorem no_steps_no_result (context : string) (depth : Z)
        (parent : option nat) (w : World) :
  MAX_CALLS cfg <= 0 ->
  (forall v, fst (subagent cfg rt context depth parent w) <> Ok v) /\
  (depth >= MAX_DEPTH cfg ->
   requests (snd (subagent cfg rt context depth parent w)) = requests w).
Proof.
  intros Hm. rewrite subagent_unfold. unfold subagent_body.
  replace (Z.to_nat (MAX_CALLS cfg)) with 0%nat by lia.
  set (w0 := emit (AgentStart (runs w) depth parent) _).
  split.
  - intros v.
    destruct (run_python rt _ _ "" w0) as [[[st raised] b1] w1].
    destruct raised; [discriminate|].
    destruct (run_python rt _ _ "" w1) as [[[st2 raised2] b2] w2].
    destruct raised2; discriminate.
  - intros Hd.
    assert (Hq : forall p b w',
               requests (snd (run_python rt
                                (llm_query cfg (subagent cfg rt) depth (runs w))
                                p b w')) = requests w').
    { induction p as [st | st e | text k IH | ctx k IH]; intros b w';
        cbn [run_python snd]; try reflexivity; [apply IH|].
      assert (Hq0 : llm_query cfg (subagent cfg rt) depth (runs w) ctx b w'
                    = (Throw (ThrownError DEPTH_MESSAGE),
                       b ++ DEPTH_MARKER, w')).
      { unfold llm_query.
        destruct (Z.geb_spec depth (MAX_DEPTH cfg)); [reflexivity | lia]. }
      rewrite Hq0. apply IH. }
    pose proof (Hq (runPythonAsync rt (loadPyodide rt) (setup_code rt context))
                   "" w0) as H1.
    destruct (run_python rt _ _ "" w0) as [[[st raised] b1] w1].
    cbn [snd] in H1. destruct raised; [exact H1|].
    pose proof (Hq (runPythonAsync rt st initial_code) "" w1) as H2.
    destruct (run_python rt _ _ "" w1) as [[[st2 raised2] b2] w2].
    cbn [snd] in H2. change (requests w0) with (requests w) in H1.
    destruct raised2; cbn [turns snd]; unfold logStep, emit;
      cbn [requests]; congruence.
Qed.

End Facts.

Lemma cost_ceiling_out_of_play_witness :
  check_budget default_config EngineScenario.runtime
    (mkUsage 100 50 150 0 0 (Some 1000000%float)) = None.
Proof.
  refine (proj2 (cost_ceiling_out_of_play default_config EngineScenario.runtime
                   (mkUsage 100 50 150 0 0 (Some 1000000%float))
                   (or_introl eq_refl)) _).
  simpl. lia.
Defined.

Lemma success_is_logged_witness :
  exists events data,
    log (snd (subagent default_config EngineScenario.runtime "root task" 0
                       None initial_world))
      = (log initial_world ++ events
           ++ [Step 0 0 data;
               FinalResult 0 0
                 "child failed: Completion token budget exceeded: 60050 tokens used, limit is 50000";
               AgentEnd 0])%list /\
    output data = None /\ hasError data = None.
Proof.
  refine (success_is_logged default_config EngineScenario.runtime "root task"
            0 None initial_world _ _).
  vm_compute. reflexivity.
Defined.

Lemma no_steps_no_result_witness :
  fst (subagent no_step_config EngineScenario.runtime "2+2" 0 None
                initial_world) <> Ok "4" /\
  requests (snd (subagent no_step_config EngineScenario.runtime "2+2" 3 None
                          initial_world)) = requests initial_world.
Proof.
  split.
  - refine (proj1 (no_steps_no_result no_step_config EngineScenario.runtime
                     "2+2" 0 None initial_world _) "4").
    simpl. lia.
  - refine (proj2 (no_steps_no_result no_step_config EngineScenario.runtime
                     "2+2" 3 None initial_world _) _); simpl; lia.
Defined.

End RunFacts.

Module TreeFacts.
Import JsString JsError JsNum Accountant Output Engine EngineFacts EngineObs.

(** *** A way to show that every event of a tree of runs is of a kind *)

Section Kind.
Context (cfg : Config) (rt : Runtime).
Variable at_depth : Z -> Prop.
Variable kind : Event -> Prop.

Hypothesis next_depth :
  forall d, at_depth d -> d < MAX_DEPTH cfg -> at_depth (d + 1).
Hypothesis kind_start :
  forall run d p, at_depth d -> kind (AgentStart run d p).
Hypothesis kind_request :
  forall d msgs, at_depth d ->
    kind (Request d (chat_request rt msgs
                       (if d =? 0 then PRIMARY_AGENT cfg else SUB_AGENT cfg)
                       (d =? MAX_DEPTH cfg) (retry_options cfg))).
Hypothesis kind_failed : forall m, kind (ApiCallFailed m).
Hypothesis kind_step_plain :
  forall run d i c re u t, at_depth d ->
    kind (Step run d (mkStepData i c None None re u t)).
Hypothesis kind_step_output :
  forall run d i c o h re u t, at_depth d ->
    kind (Step run d (mkStepData i c (Some o) (Some h) re u t)).
Hypothesis kind_final :
  forall run d v, at_depth d -> kind (FinalResult run d v).
Hypothesis kind_end : forall run, kind (AgentEnd run).
Hypothesis kind_called : forall run, kind (LlmQueryCalled run).

Local Abbreviation gains := (gains_of kind).
Local Abbreviation child_gains := (child_gains_of at_depth kind).

Lemma gains_refl (w : World) : gains w w.
Proof. exists []. now rewrite app_nil_r. Qed.

Lemma gains_trans (w1 w2 w3 : World) : gains w1 w2 -> gains w2 w3 -> gains w1 w3.
Proof.
  intros (e1 & H1 & F1) (e2 & H2 & F2). exists (e1 ++ e2)%list. split.
  - now rewrite H2, H1, app_assoc.
  - apply Forall_app. now split.
Qed.

Lemma gains_emit (e : Event) (w : World) : kind e -> gains w (emit e w).
Proof. intros H. exists [e]. split; [reflexivity | now constructor]. Qed.

Lemma gains_same_log (w w' : World) : log w' = log w -> gains w w'.
Proof. intros H. exists []. now rewrite app_nil_r. Qed.

Lemma gains_logStep_plain (run : nat) (d i : Z) (c : string)
      (re : option string) (u : Usage) (w : World) :
  at_depth d -> gains w (logStep run d i c None None re u w).
Proof. intros Hd. apply gains_emit. now apply kind_step_plain. Qed.

Lemma gains_logStep_output (run : nat) (d i : Z) (c o : string) (h : bool)
      (re : option string) (u : Usage) (w : World) :
  at_depth d -> gains w (logStep run d i c (Some o) (Some h) re u w).
Proof. intros Hd. apply gains_emit. now apply kind_step_output. Qed.

Lemma generate_code_gains (d : Z) (msgs : list Message) (w : World) :
  at_depth d ->
  gains w (snd (generate_code rt d msgs
                  (if d =? 0 then PRIMARY_AGENT cfg else SUB_AGENT cfg)
                  (d =? MAX_DEPTH cfg) (retry_options cfg) w)).
Proof.
  intros Hd. unfold generate_code.
  set (req := chat_request rt msgs _ _ _).
  assert (H1 : gains w (emit (Request d req)
                          (mkWorld (accountant w) (S (requests w)) (runs w)
                                   (log w)))).
  { exists [Request d req]. split; [reflexivity|].
    constructor; [now apply kind_request | constructor]. }
  destruct (create rt (requests w) req) as [c | e].
  - destruct (String.eqb _ ""); exact H1.
  - cbn [snd]. eapply gains_trans; [exact H1 | apply gains_emit, kind_failed].
Qed.

Lemma llm_query_gains (child : ChildRun) (d : Z) (run : nat)
      (context buffer : string) (w : World) :
  child_gains child -> at_depth d ->
  gains w (snd (llm_query cfg child d run context buffer w)).
Proof.
  intros Hc Hd. unfold llm_query.
  destruct (Z.geb_spec d (MAX_DEPTH cfg)); [apply gains_refl|].
  pose proof (Hc context (d + 1) (Some run) (emit (LlmQueryCalled run) w)
                 (next_depth d Hd ltac:(lia))) as Hchild.
  destruct (child context (d + 1) (Some run) (emit (LlmQueryCalled run) w))
    as [out w']. cbn [snd] in *.
  apply (gains_trans w (emit (LlmQueryCalled run) w) w');
    [apply gains_emit, kind_called | exact Hchild].
Qed.

Lemma run_python_gains
      (query : string -> string -> World -> Outcome Value * string * World)
      (p : PyRun (PyState rt)) (buffer : string) (w : World) :
  (forall c b w0, gains w0 (snd (query c b w0))) ->
  gains w (snd (run_python rt query p buffer w)).
Proof.
  intros Hq. revert buffer w.
  induction p as [st | st e | text k IH | ctx k IH]; intros buffer w;
    cbn [run_python snd]; try apply gains_refl; [apply IH|].
  pose proof (Hq ctx buffer w) as H.
  destruct (query ctx buffer w) as [[out b'] w']. cbn [snd] in H.
  eapply gains_trans; [exact H | apply IH].
Qed.

Lemma turn_gains (child : ChildRun) (d : Z) (run : nat) (i : Z)
      (r : Run (PyState rt)) (w : World) :
  child_gains child -> at_depth d ->
  gains w (snd (turn cfg rt child d run i r w)).
Proof.
  intros Hc Hd. unfold turn.
  pose proof (generate_code_gains d (transcript r) w Hd) as Hg.
  destruct (generate_code rt d (transcript r) _ _ _ w) as [[g | e] w1];
    cbn [snd] in Hg; [|exact Hg].
  assert (Ht : gains w (track (usage g) w1))
    by (eapply gains_trans; [exact Hg | now apply gains_same_log]).
  destruct (check_budget cfg rt _); [exact Ht|].
  destruct (success g); cbn [negb].
  - pose proof (run_python_gains (llm_query cfg child d run)
                  (runPythonAsync rt (py r) (code g)) "" (track (usage g) w1)
                  (fun c b w0 => llm_query_gains child d run c b w0 Hc Hd))
      as Hp.
    destruct (run_python rt _ _ "" (track (usage g) w1))
      as [[[st raised] buffer] w2]. cbn [snd] in Hp.
    assert (H2 : gains w w2) by (eapply gains_trans; eauto).
    destruct (final_result_set rt st); cbn [snd].
    + eapply gains_trans; [|apply gains_emit, kind_end].
      eapply gains_trans; [|apply gains_emit; now apply kind_final].
      eapply gains_trans; [exact H2 | now apply gains_logStep_plain].
    + eapply gains_trans; [exact H2 | now apply gains_logStep_output].
  - cbn [snd]. eapply gains_trans; [exact Ht | now apply gains_logStep_plain].
Qed.

Lemma turns_gains (child : ChildRun) (d : Z) (run : nat) (remaining : nat)
      (i : Z) (r : Run (PyState rt)) (w : World) :
  child_gains child -> at_depth d ->
  gains w (snd (turns cfg rt child d run remaining i r w)).
Proof.
  intros Hc Hd. revert i r w.
  induction remaining as [|n IH]; intros i r w; cbn [turns].
  - apply gains_emit. apply kind_end.
  - pose proof (turn_gains child d run i r w Hc Hd) as Ht.
    destruct (turn cfg rt child d run i r w) as [[r' | v | e] w'];
      cbn [snd] in *; [|exact Ht|exact Ht].
    eapply gains_trans; [exact Ht | apply IH].
Qed.

Lemma subagent_body_gains (child : ChildRun) (context : string) (d : Z)
      (parent : option nat) (w : World) :
  child_gains child -> at_depth d ->
  gains w (snd (subagent_body cfg rt child context d parent w)).
Proof.
  intros Hc Hd. unfold subagent_body.
  set (w0 := emit (AgentStart (runs w) d parent) _).
  assert (H0 : gains w w0).
  { unfold w0. eapply gains_trans; [|apply gains_emit; now apply kind_start].
    now apply gains_same_log. }
  pose proof (fun p b w' =>
                run_python_gains (llm_query cfg child d (runs w)) p b w'
                  (fun c b0 w1 => llm_query_gains child d (runs w) c b0 w1 Hc Hd))
    as Hp.
  pose proof (Hp (runPythonAsync rt (loadPyodide rt) (setup_code rt context))
                 "" w0) as H1.
  destruct (run_python rt _ _ "" w0) as [[[st raised] b1] w1].
  cbn [snd] in H1.
  assert (H01 : gains w w1) by (eapply gains_trans; eauto).
  destruct raised; [exact H01|].
  pose proof (Hp (runPythonAsync rt st initial_code) "" w1) as H2.
  destruct (run_python rt _ _ "" w1) as [[[st2 raised2] b2] w2].
  cbn [snd] in H2.
  assert (H02 : gains w w2) by (eapply gains_trans; eauto).
  destruct raised2; [exact H02|].
  eapply gains_trans; [exact H02|].
  eapply gains_trans; [|now apply turns_gains].
  now apply gains_logStep_output.
Qed.

Lemma subagent_levels_gains (levels : nat) :
  child_gains (subagent_levels cfg rt levels).
Proof.
  induction levels as [|n IH]; intros context d parent w Hd.
  - apply gains_refl.
  - cbn [subagent_levels]. now apply subagent_body_gains.
Qed.

Lemma subagent_gains (context : string) (d : Z) (parent : option nat)
      (w : World) :
  at_depth d ->
  exists events,
    log (snd (subagent cfg rt context d parent w)) = (log w ++ events)%list /\
    Forall kind events.
Proof. intros Hd. now apply subagent_levels_gains. Qed.

End Kind.

Section Facts.
Context (cfg : Config) (rt : Runtime).

(** No run is started below the depth limit: in the tree of a run
    started at [depth], every start of a run, every request, every step
    and every final result carries a depth between [depth] and the larger
    of [depth] and [MAX_DEPTH]. *)
Theorem depth_stays_within_the_limit
        (context : string) (depth : Z) (parent : option nat) (w : World) :
  exists events,
    log (snd (subagent cfg rt context depth parent w))
      = (log w ++ events)%list /\
    forall e d, In e events -> depth_of e = Some d ->
                depth <= d <= Z.max depth (MAX_DEPTH cfg).
Proof.
  destruct (subagent_gains cfg rt
              (fun d => depth <= d <= Z.max depth (MAX_DEPTH cfg))
              (fun e => forall d, depth_of e = Some d ->
                                  depth <= d <= Z.max depth (MAX_DEPTH cfg))
              ltac:(cbv beta; intros; lia)
              ltac:(intros run d p H d' E; injection E as <-; exact H)
              ltac:(intros d msgs H d' E; injection E as <-; exact H)
              ltac:(intros m d' E; discriminate E)
              ltac:(intros run d i c re u t H d' E; injection E as <-; exact H)
              ltac:(intros run d i c o h re u t H d' E; injection E as <-; exact H)
              ltac:(intros run d v H d' E; injection E as <-; exact H)
              ltac:(intros run d' E; discriminate E)
              ltac:(intros run d' E; discriminate E)
              context depth parent w ltac:(cbv beta; lia))
    as (events & Hlog & Hall).
  exists events. split; [exact Hlog|].
  intros e d Hin. rewrite Forall_forall in Hall. exact (Hall e Hin d).
Qed.

(** In a whole tree of runs, the requests of the run at depth [0] name
    the primary model and those of every other run the sub-agent model,
    and every request carries the configured retry count and timeout. *)
Theorem model_and_options_by_depth
        (context : string) (depth : Z) (parent : option nat) (w : World) :
  exists events,
    log (snd (subagent cfg rt context depth parent w))
      = (log w ++ events)%list /\
    forall d req, In (Request d req) events ->
      model req = (if d =? 0 then PRIMARY_AGENT cfg else SUB_AGENT cfg) /\
      client_maxRetries req = API_MAX_RETRIES cfg /\
      client_timeout req = API_TIMEOUT_MS cfg.
Proof.
  destruct (subagent_gains cfg rt (fun _ => True)
              (fun e => match e with
                        | Request d req =>
                            model req = (if d =? 0 then PRIMARY_AGENT cfg
                                         else SUB_AGENT cfg) /\
                            client_maxRetries req = API_MAX_RETRIES cfg /\
                            client_timeout req = API_TIMEOUT_MS cfg
                        | _ => True
                        end)
              ltac:(intros; exact I)
              ltac:(intros; exact I)
              ltac:(intros; cbn; repeat split)
              ltac:(intros; exact I)
              ltac:(intros; exact I)
              ltac:(intros; exact I)
              ltac:(intros; exact I)
              ltac:(intros; exact I)
              ltac:(intros; exact I)
              context depth parent w I)
    as (events & Hlog & Hall).
  exists events. split; [exact Hlog|].
  intros d req Hin. rewrite Forall_forall in Hall. exact (Hall _ Hin).
Qed.

(** Every step a tree of runs logs has an output exactly when it has an
    error flag, so that the record written for it is an
    [execution_result] with both or a [code_generated] with neither. *)
Theorem logged_steps_are_of_two_kinds
        (context : string) (depth : Z) (parent : option nat) (w : World) :
  exists events,
    log (snd (subagent cfg rt context depth parent w))
      = (log w ++ events)%list /\
    forall run d data, In (Step run d data) events ->
      (event_type data = "execution_result" /\
       output data <> None /\ hasError data <> None) \/
      (event_type data = "code_generated" /\
       output data = None /\ hasError data = None).
Proof.
  destruct (subagent_gains cfg rt (fun _ => True)
              (fun e => match e with
                        | Step _ _ data =>
                            (event_type data = "execution_result" /\
                             output data <> None /\ hasError data <> None) \/
                            (event_type data = "code_generated" /\
                             output data = None /\ hasError data = None)
                        | _ => True
                        end)
              ltac:(intros; exact I)
              ltac:(intros; exact I)
              ltac:(intros; exact I)
              ltac:(intros; exact I)
              ltac:(intros; right; cbn; repeat split)
              ltac:(intros; left; cbn; repeat split; discriminate)
              ltac:(intros; exact I)
              ltac:(intros; exact I)
              ltac:(intros; exact I)
              context depth parent w I)
    as (events & Hlog & Hall).
  exists events. split; [exact Hlog|].
  intros run d data Hin. rewrite Forall_forall in Hall. exact (Hall _ Hin).
Qed.

End Facts.

End TreeFacts.

Module TotalsFacts.
Import JsString JsError JsNum Accountant AccountantFacts Output Engine
       EngineFacts EngineObs EngineTotals.

Section Facts.
Context (cfg : Config) (rt : Runtime).
Hypothesis honest : reports_no_negative_tokens rt.

Lemma tokens_le_refl (w : World) : tokens_le w w.
Proof. unfold tokens_le. lia. Qed.

Lemma tokens_le_trans (a b c : World) :
  tokens_le a b -> tokens_le b c -> tokens_le a c.
Proof. unfold tokens_le. lia. Qed.

Lemma tokens_le_same (w w' : World) :
  accountant w' = accountant w -> tokens_le w w'.
Proof. unfold tokens_le, prompt_total, completion_total. intros ->. lia. Qed.

Lemma over_mono (w w' : World) :
  tokens_le w w' -> over_token_ceiling cfg w -> over_token_ceiling cfg w'.
Proof. unfold tokens_le, over_token_ceiling. lia. Qed.

Lemma generate_code_usage (d : Z) (msgs : list Message) (m : string)
      (leaf : bool) (o : ApiRetryOptions) (w : World) (g : CodeReturn) :
  fst (generate_code rt d msgs m leaf o w) = Ok g ->
  0 <= prompt_tokens (usage g) /\ 0 <= completion_tokens (usage g).
Proof.
  unfold generate_code.
  destruct (create rt (requests w) (chat_request rt msgs m leaf o))
    as [c | e] eqn:Hc; [|discriminate].
  pose proof (honest _ _ _ Hc) as Hh.
  destruct (String.eqb _ ""); cbn [fst]; intros H; injection H as <-;
    exact Hh.
Qed.

Lemma track_tokens (u : Usage) (w : World) :
  prompt_total (track u w) = prompt_total w + prompt_tokens u /\
  completion_total (track u w) = completion_total w + completion_tokens u.
Proof.
  unfold prompt_total, completion_total. rewrite !snapshot_is_copy.
  split; reflexivity.
Qed.

Lemma llm_query_tokens (child : ChildRun) (d : Z) (run : nat)
      (context buffer : string) (w : World) :
  child_sound cfg child ->
  tokens_le w (snd (llm_query cfg child d run context buffer w)).
Proof.
  intros Hc. unfold llm_query.
  destruct (d >=? MAX_DEPTH cfg); [apply tokens_le_refl|].
  destruct (Hc context (d + 1) (Some run) (emit (LlmQueryCalled run) w))
    as [H _].
  destruct (child context (d + 1) (Some run) (emit (LlmQueryCalled run) w))
    as [out w']. cbn [snd] in *.
  eapply tokens_le_trans; [|exact H]. now apply tokens_le_same.
Qed.

Lemma run_python_tokens
      (query : string -> string -> World -> Outcome Value * string * World)
      (p : PyRun (PyState rt)) (buffer : string) (w : World) :
  (forall c b w0, tokens_le w0 (snd (query c b w0))) ->
  tokens_le w (snd (run_python rt query p buffer w)).
Proof.
  intros Hq. revert buffer w.
  induction p as [st | st e | text k IH | ctx k IH]; intros buffer w;
    cbn [run_python snd]; try apply tokens_le_refl; [apply IH|].
  pose proof (Hq ctx buffer w) as H.
  destruct (query ctx buffer w) as [[out b'] w']. cbn [snd] in H.
  eapply tokens_le_trans; [exact H | apply IH].
Qed.

Lemma turn_tokens (child : ChildRun) (d : Z) (run : nat) (i : Z)
      (r : Run (PyState rt)) (w : World) :
  child_sound cfg child ->
  tokens_le w (snd (turn cfg rt child d run i r w)) /\
  (over_token_ceiling cfg w ->
   exists e, fst (turn cfg rt child d run i r w) = Raise e).
Proof.
  intros Hc. unfold turn.
  pose proof (generate_code_world cfg rt d (transcript r)
                (if d =? 0 then PRIMARY_AGENT cfg else SUB_AGENT cfg)
                (d =? MAX_DEPTH cfg) (retry_options cfg) w) as Hw.
  pose proof (generate_code_usage d (transcript r)
                (if d =? 0 then PRIMARY_AGENT cfg else SUB_AGENT cfg)
                (d =? MAX_DEPTH cfg) (retry_options cfg) w) as Hu.
  cbn zeta in Hw.
  destruct (generate_code rt d (transcript r) _ _ _ w) as [[g | e] w1];
    cbn [fst snd] in *; destruct Hw as (Ha & _).
  2:{ split; [now apply tokens_le_same | eauto]. }
  destruct (Hu g eq_refl) as [Hp Hco].
  destruct (track_tokens (usage g) w1) as [T1 T2].
  assert (Ht : tokens_le w (track (usage g) w1)).
  { unfold tokens_le. rewrite T1, T2.
    unfold prompt_total, completion_total. rewrite Ha. lia. }
  destruct (check_budget cfg rt (getTotalUsage (accountant (track (usage g) w1))))
    as [e|] eqn:Hb.
  { cbn [fst snd]. split; [exact Ht | eauto]. }
  assert (Hnot : ~ over_token_ceiling cfg w).
  { intros Hover. apply (over_mono _ _ Ht) in Hover.
    assert (Hex : exists e, check_budget cfg rt
                    (getTotalUsage (accountant (track (usage g) w1))) = Some e).
    { apply check_budget_breach. unfold over_a_ceiling.
      unfold over_token_ceiling, prompt_total, completion_total in Hover.
      tauto. }
    destruct Hex as [e He]. congruence. }
  split; [|intros H; contradiction].
  destruct (success g); cbn [negb].
  - pose proof (run_python_tokens (llm_query cfg child d run)
                  (runPythonAsync rt (py r) (code g)) "" (track (usage g) w1)
                  (fun c b w0 => llm_query_tokens child d run c b w0 Hc))
      as Hpy.
    destruct (run_python rt _ _ "" (track (usage g) w1))
      as [[[st raised] buffer] w2]. cbn [snd] in Hpy.
    destruct (final_result_set rt st); cbn [snd];
      (eapply tokens_le_trans; [exact Ht|]);
      (eapply tokens_le_trans; [exact Hpy|]);
      now apply tokens_le_same.
  - cbn [snd]. eapply tokens_le_trans; [exact Ht|]. now apply tokens_le_same.
Qed.

Lemma turns_tokens (child : ChildRun) (d : Z) (run : nat) (remaining : nat)
      (i : Z) (r : Run (PyState rt)) (w : World) :
  child_sound cfg child ->
  tokens_le w (snd (turns cfg rt child d run remaining i r w)) /\
  (over_token_ceiling cfg w ->
   forall v, fst (turns cfg rt child d run remaining i r w) <> Ok v).
Proof.
  intros Hc. revert i r w.
  induction remaining as [|n IH]; intros i r w; cbn [turns].
  - split; [now apply tokens_le_same | discriminate].
  - destruct (turn_tokens child d run i r w Hc) as [Ht Hr].
    destruct (turn cfg rt child d run i r w) as [[r' | v | e] w'];
      cbn [fst snd] in *.
    + destruct (IH (i + 1) r' w') as [H1 _]. split.
      * exact (tokens_le_trans _ _ _ Ht H1).
      * intros Hover. destruct (Hr Hover) as [e He]. discriminate.
    + split; [exact Ht|].
      intros Hover. destruct (Hr Hover) as [e He]. discriminate.
    + split; [exact Ht | discriminate].
Qed.

Lemma subagent_body_sound (child : ChildRun) :
  child_sound cfg child -> child_sound cfg (subagent_body cfg rt child).
Proof.
  intros Hc context d parent w. unfold subagent_body.
  set (w0 := emit (AgentStart (runs w) d parent) _).
  assert (H0 : tokens_le w w0) by (apply tokens_le_same; reflexivity).
  pose proof (fun p b w' =>
                run_python_tokens (llm_query cfg child d (runs w)) p b w'
                  (fun c b0 w1 => llm_query_tokens child d (runs w) c b0 w1 Hc))
    as Hp.
  pose proof (Hp (runPythonAsync rt (loadPyodide rt) (setup_code rt context))
                 "" w0) as H1.
  destruct (run_python rt _ _ "" w0) as [[[st raised] b1] w1].
  cbn [snd] in H1.
  assert (H01 : tokens_le w w1) by exact (tokens_le_trans _ _ _ H0 H1).
  destruct raised; [split; [exact H01 | discriminate]|].
  pose proof (Hp (runPythonAsync rt st initial_code) "" w1) as H2.
  destruct (run_python rt _ _ "" w1) as [[[st2 raised2] b2] w2].
  cbn [snd] in H2.
  assert (H02 : tokens_le w w2) by exact (tokens_le_trans _ _ _ H01 H2).
  destruct raised2; [split; [exact H02 | discriminate]|].
  match goal with
  | |- context [turns cfg rt child d (runs w) ?n 0 ?r ?w3] =>
      destruct (turns_tokens child d (runs w) n 0 r w3 Hc) as [H3 H4];
      assert (H23 : tokens_le w2 w3) by (apply tokens_le_same; reflexivity)
  end.
  split.
  - eapply tokens_le_trans; [exact H02|].
    eapply tokens_le_trans; [exact H23 | exact H3].
  - intros Hover. apply H4.
    eapply over_mono; [|exact Hover].
    exact (tokens_le_trans _ _ _ H02 H23).
Qed.

Lemma subagent_levels_sound (levels : nat) :
  child_sound cfg (subagent_levels cfg rt levels).
Proof.
  induction levels as [|n IH].
  - intros c d p w0. split; [apply tokens_le_refl | discriminate].
  - cbn [subagent_levels]. now apply subagent_body_sound.
Qed.

End Facts.

(** When the provider reports no negative token count, a tree of runs
    never lowers the total of prompt tokens or of completion tokens. *)
Theorem token_totals_never_decrease
        (cfg : Config) (rt : Runtime) (context : string) (depth : Z)
        (parent : option nat) (w : World) :
  reports_no_negative_tokens rt ->
  prompt_total w <= prompt_total (snd (subagent cfg rt context depth parent w)) /\
  completion_total w
    <= completion_total (snd (subagent cfg rt context depth parent w)).
Proof.
  intros H.
  exact (proj1 (subagent_levels_sound cfg rt H (levels_below cfg depth)
                  context depth parent w)).
Qed.

(** Once a token ceiling is exceeded, no run started afterwards returns
    a value, as long as the provider reports no negative token count. *)
Theorem no_result_after_a_token_breach
        (cfg : Config) (rt : Runtime) (context : string) (depth : Z)
        (parent : option nat) (w : World) :
  reports_no_negative_tokens rt ->
  over_token_ceiling cfg w ->
  forall v, fst (subagent cfg rt context depth parent w) <> Ok v.
Proof.
  intros H.
  exact (proj2 (subagent_levels_sound cfg rt H (levels_below cfg depth)
                  context depth parent w)).
Qed.

Lemma scenario_reports_no_negative_tokens :
  reports_no_negative_tokens EngineScenario.runtime.
Proof.
  intros n req c H. cbn in H. unfold EngineScenario.provider in H.
  destruct n as [|n]; injection H as <-; cbn; lia.
Defined.

Lemma token_totals_never_decrease_witness :
  completion_total initial_world
    <= completion_total
         (snd (subagent default_config EngineScenario.runtime "root task" 0
                        None initial_world)).
Proof.
  exact (proj2 (token_totals_never_decrease default_config
                  EngineScenario.runtime "root task" 0 None initial_world
                  scenario_reports_no_negative_tokens)).
Defined.

Lemma no_result_after_a_token_breach_witness :
  fst (subagent default_config EngineScenario.runtime "root task" 0 None
                over_budget_world) <> Ok "done".
Proof.
  refine (no_result_after_a_token_breach default_config
            EngineScenario.runtime "root task" 0 None over_budget_world
            scenario_reports_no_negative_tokens _ "done").
  left. vm_compute. reflexivity.
Defined.

End TotalsFacts.

Module BudgetFacts.
Import JsString JsError JsNum Accountant Output Engine EngineFacts EngineObs
       EngineTotals TotalsFacts.

Section Facts.
Context (cfg : Config) (rt : Runtime).

(** The whole tree of runs never lowers a token total, and no run that
    is started above a token ceiling returns a value. *)
Lemma subagent_sound :
  reports_no_negative_tokens rt -> child_sound cfg (subagent cfg rt).
Proof.
  intros honest c d p w0.
  exact (subagent_levels_sound cfg rt honest (levels_below cfg d) c d p w0).
Qed.

(** One level up, a program that awaits the child and lets its failure
    escape ends in the [catch] clause: the step is logged with the error
    in its output, and the loop goes on. *)
Lemma turn_child_failure_escapes
      (above : ChildRun) (depth : Z) (parent : nat) (j : Z)
      (r0 : Run (PyState rt)) (w0 : World) (g0 : CodeReturn) (w2 w' : World)
      (ctx : string) (k : Outcome Value -> PyRun (PyState rt))
      (st : PyState rt) (e : Thrown) :
  depth - 1 < MAX_DEPTH cfg ->
  model_call cfg rt (depth - 1) r0 w0 = (Ok g0, w2) ->
  check_budget cfg rt (total_after g0 w2) = None ->
  success g0 = true ->
  runPythonAsync rt (py r0) (code g0) = PyQuery ctx k ->
  above ctx depth (Some parent)
        (emit (LlmQueryCalled parent) (track (usage g0) w2)) = (Throw e, w') ->
  k (Throw e) = PyRaise st e ->
  final_result_set rt st = false ->
  let captured := nl ++ "Error: " ++ as_error e ++ " " in
  let shown := truncateText (TRUNCATE_LEN cfg) captured in
  turn cfg rt above (depth - 1) parent j r0 w0
    = (Continue (mkRun (transcript r0
                          ++ [message g0;
                              user_message ("Output: " ++ nl ++ shown)])
                       captured st),
       emit (Step parent (depth - 1)
               (mkStepData (j + 1) (code g0) (Some shown) (Some true)
                           (reasoning (message g0)) (usage g0)
                           (getTotalUsage (accountant w'))))
            w').
Proof.
  intros Hd Hg Hb Hs Hp Habove Hk Hfin. cbn zeta.
  assert (Hrun : run_python rt (llm_query cfg above (depth - 1) parent)
                            (runPythonAsync rt (py r0) (code g0)) ""
                            (track (usage g0) w2)
                 = (st, Some e, "", w')).
  { rewrite Hp. cbn [run_python]. unfold llm_query.
    destruct (Z.geb_spec (depth - 1) (MAX_DEPTH cfg)); [lia|].
    replace (depth - 1 + 1) with depth by lia.
    rewrite Habove, Hk. reflexivity. }
  rewrite (turn_executed cfg rt above (depth - 1) parent j r0 w0 g0 w2
             st (Some e) "" w' Hg Hb Hs Hrun Hfin).
  rewrite (fold_error_includes "" e). reflexivity.
Qed.

(** C3, as the code has it.  After a model call the three ceilings are
    checked (the cost only when it is not null), and a total above any
    of them makes the run that made the call throw at once: the turn
    executes nothing and logs no step, and the run ends with that
    error.  One level up, the error is only the failure of the awaited
    [llm_query] call: it is handed to the program that made the call, and
    when that program lets it escape, the step is logged with the error
    in its output and the loop of the run one level up goes on.  What
    stops the other runs is their own next check: above a token ceiling,
    with a provider that reports no negative token count, every turn of
    every run throws, in every state whose token totals are not lower. *)
Theorem budget_breach_ends_the_run
        (child : ChildRun) (depth : Z) (run : nat) (i : Z)
        (r : Run (PyState rt)) (w : World) (g : CodeReturn) (w1 : World) :
  model_call cfg rt depth r w = (Ok g, w1) ->
  over_a_ceiling cfg (total_after g w1) ->
  exists e,
    check_budget cfg rt (total_after g w1) = Some e /\
    turn cfg rt child depth run i r w = (Raise e, track (usage g) w1) /\
    (forall remaining,
        turns cfg rt child depth run (S remaining) i r w
        = (Throw e, track (usage g) w1)) /\
    log (track (usage g) w1)
      = (log w ++ [Request depth
                     (chat_request rt (transcript r)
                        (if depth =? 0 then PRIMARY_AGENT cfg
                         else SUB_AGENT cfg)
                        (depth =? MAX_DEPTH cfg) (retry_options cfg))])%list /\
    (forall (above : ChildRun) (parent : nat) (ctx buffer : string)
            (w0 w' : World) (k : Outcome Value -> PyRun (PyState rt)),
        depth - 1 < MAX_DEPTH cfg ->
        above ctx depth (Some parent) (emit (LlmQueryCalled parent) w0)
          = (Throw e, w') ->
        run_python rt (llm_query cfg above (depth - 1) parent)
                   (PyQuery ctx k) buffer w0
        = run_python rt (llm_query cfg above (depth - 1) parent)
                     (k (Throw e)) buffer w') /\
    (forall (above : ChildRun) (parent : nat) (j : Z)
            (r0 : Run (PyState rt)) (w0 : World) (g0 : CodeReturn)
            (w2 w' : World) (ctx : string)
            (k : Outcome Value -> PyRun (PyState rt)) (st : PyState rt),
        depth - 1 < MAX_DEPTH cfg ->
        model_call cfg rt (depth - 1) r0 w0 = (Ok g0, w2) ->
        check_budget cfg rt (total_after g0 w2) = None ->
        success g0 = true ->
        runPythonAsync rt (py r0) (code g0) = PyQuery ctx k ->
        above ctx depth (Some parent)
              (emit (LlmQueryCalled parent) (track (usage g0) w2))
          = (Throw e, w') ->
        k (Throw e) = PyRaise st e ->
        final_result_set rt st = false ->
        let captured := nl ++ "Error: " ++ as_error e ++ " " in
        let shown := truncateText (TRUNCATE_LEN cfg) captured in
        turn cfg rt above (depth - 1) parent j r0 w0
          = (Continue (mkRun (transcript r0
                                ++ [message g0;
                                    user_message ("Output: " ++ nl ++ shown)])
                             captured st),
             emit (Step parent (depth - 1)
                     (mkStepData (j + 1) (code g0) (Some shown) (Some true)
                                 (reasoning (message g0)) (usage g0)
                                 (getTotalUsage (accountant w'))))
                  w')) /\
    (reports_no_negative_tokens rt ->
     over_token_ceiling cfg (track (usage g) w1) ->
     forall (later : World) (d : Z) (run' : nat) (j : Z)
            (r' : Run (PyState rt)),
       tokens_le (track (usage g) w1) later ->
       exists e', fst (turn cfg rt (subagent cfg rt) d run' j r' later)
                  = Raise e').
Proof.
  intros Hg Hover.
  destruct (proj1 (check_budget_breach cfg rt (total_after g w1)) Hover)
    as [e He].
  exists e. split; [exact He|].
  pose proof (turn_breach cfg rt child depth run i r w g w1 e Hg He) as Ht.
  split; [exact Ht|]. split; [|split; [|split; [|split]]].
  - intros remaining. cbn [turns]. now rewrite Ht.
  - apply (model_call_log cfg rt depth r w g w1 Hg).
  - intros above parent ctx buffer w0 w' k Hd Habove.
    cbn [run_python]. unfold llm_query.
    destruct (Z.geb_spec (depth - 1) (MAX_DEPTH cfg)); [lia|].
    replace (depth - 1 + 1) with depth by lia.
    now rewrite Habove.
  - intros above parent j r0 w0 g0 w2 w' ctx k st.
    apply turn_child_failure_escapes.
  - intros honest Htok later d run' j r' Hle.
    apply (turn_tokens cfg rt honest (subagent cfg rt) d run' j r' later
             (subagent_sound honest)).
    exact (over_mono cfg _ _ Hle Htok).
Qed.

End Facts.

Import EngineScenario.

Lemma budget_breach_ends_the_run_witness :
  exists e,
    turns default_config prose_runtime no_run 0 0 20 0 a_run started
      = (Throw e,
         snd (turn default_config prose_runtime no_run 0 0 0 a_run started)).
Proof.
  assert (Hover : over_a_ceiling default_config
                    (total_after
                       (mkCodeReturn "" false
                          (mkMessage "assistant"
                             (Some "Let me think about this.") None)
                          (mkUsage 100 60000 60100 0 0 (Some 0.01%float)))
                       (snd (model_call default_config prose_runtime 0 a_run
                                        started))))
    by (right; left; vm_compute; reflexivity).
  destruct (budget_breach_ends_the_run default_config prose_runtime no_run
              0 0 0 a_run started _ _ eq_refl Hover)
    as (e & _ & Ht & Hturns & _).
  exists e. rewrite (Hturns 19%nat), Ht. reflexivity.
Defined.

End BudgetFacts.

Module StepFacts.
Import JsString JsError JsNum Accountant Output Engine EngineFacts EngineObs
       EngineSteps TreeFacts.

Lemma steps_at_app (d : Z) (a b : list Event) :
  steps_at d (a ++ b) = (steps_at d a ++ steps_at d b)%list.
Proof. unfold steps_at. apply flat_map_app. Qed.

Lemma requests_at_app (d : Z) (a b : list Event) :
  requests_at d (a ++ b) = (requests_at d a ++ requests_at d b)%list.
Proof. unfold requests_at. apply flat_map_app. Qed.

Lemma adds_refl (d : Z) (w : World) : adds d w w [] 0.
Proof. exists []. rewrite app_nil_r. repeat split. Qed.

Lemma adds_trans (d : Z) (w1 w2 w3 : World) (s1 s2 : list Z) (n1 n2 : nat) :
  adds d w1 w2 s1 n1 -> adds d w2 w3 s2 n2 ->
  adds d w1 w3 (s1 ++ s2) (n1 + n2).
Proof.
  intros (e1 & L1 & S1 & R1) (e2 & L2 & S2 & R2).
  exists (e1 ++ e2)%list. split; [now rewrite L2, L1, app_assoc|].
  rewrite steps_at_app, requests_at_app, length_app. now subst.
Qed.

Lemma adds_same_log (d : Z) (w w' : World) :
  log w' = log w -> adds d w w' [] 0.
Proof. intros H. exists []. rewrite app_nil_r. repeat split. exact H. Qed.

Lemma adds_emit (d : Z) (e : Event) (w : World) :
  adds d w (emit e w) (steps_at d [e])
       (List.length (requests_at d [e])).
Proof. exists [e]. repeat split. Qed.

Lemma adds_silent (d : Z) (e : Event) (w : World) :
  steps_at d [e] = [] -> requests_at d [e] = [] ->
  adds d w (emit e w) [] 0.
Proof. intros H1 H2. exists [e]. rewrite H1, H2. repeat split. Qed.

Lemma deeper_is_quiet (d : Z) (events : list Event) :
  (forall e d', In e events -> depth_of e = Some d' -> d < d') ->
  steps_at d events = [] /\ requests_at d events = [].
Proof.
  induction events as [|e events IH]; intros H; [split; reflexivity|].
  destruct IH as [I1 I2]; [intros e' d' Hin; apply H; now right|].
  change (e :: events) with ([e] ++ events)%list.
  rewrite steps_at_app, requests_at_app, I1, I2, !app_nil_r.
  assert (He : forall d', depth_of e = Some d' -> d < d')
    by (intros d'; apply H; now left).
  destruct e as [run d0 p | d0 req | m | run d0 data | run d0 v | run | run];
    cbn; try (split; reflexivity);
    specialize (He d0 eq_refl);
    (destruct (Z.eqb_spec d0 d); [lia | split; reflexivity]).
Qed.

Section Facts.
Context (cfg : Config) (rt : Runtime).

Lemma subagent_quiet (d : Z) : child_quiet d (subagent cfg rt).
Proof.
  intros c p w0.
  destruct (subagent_gains cfg rt
              (fun d' => d < d')
              (fun e => forall d', depth_of e = Some d' -> d < d')
              ltac:(cbv beta; intros; lia)
              ltac:(intros run d0 p0 H d' E; injection E as <-; exact H)
              ltac:(intros d0 msgs H d' E; injection E as <-; exact H)
              ltac:(intros m d' E; discriminate E)
              ltac:(intros run d0 i c0 re u t H d' E; injection E as <-; exact H)
              ltac:(intros run d0 i c0 o h re u t H d' E; injection E as <-;
                    exact H)
              ltac:(intros run d0 v H d' E; injection E as <-; exact H)
              ltac:(intros run d' E; discriminate E)
              ltac:(intros run d' E; discriminate E)
              c (d + 1) p w0 ltac:(cbv beta; lia))
    as (events & Hlog & Hall).
  exists events. split; [exact Hlog|].
  destruct (deeper_is_quiet d events) as [H1 H2].
  - intros e d' Hin He. rewrite Forall_forall in Hall. exact (Hall e Hin d' He).
  - now rewrite H1, H2.
Qed.

Lemma llm_query_adds (child : ChildRun) (d : Z) (run : nat)
      (context buffer : string) (w : World) :
  child_quiet d child ->
  adds d w (snd (llm_query cfg child d run context buffer w)) [] 0.
Proof.
  intros Hc. unfold llm_query.
  destruct (d >=? MAX_DEPTH cfg); [apply adds_refl|].
  pose proof (Hc context (Some run) (emit (LlmQueryCalled run) w)) as H.
  destruct (child context (d + 1) (Some run) (emit (LlmQueryCalled run) w))
    as [out w']. cbn [snd] in *.
  apply (adds_trans d w (emit (LlmQueryCalled run) w) w' [] [] 0 0);
    [|exact H].
  now apply adds_silent.
Qed.

Lemma run_python_adds
      (query : string -> string -> World -> Outcome Value * string * World)
      (d : Z) (p : PyRun (PyState rt)) (buffer : string) (w : World) :
  (forall c b w0, adds d w0 (snd (query c b w0)) [] 0) ->
  adds d w (snd (run_python rt query p buffer w)) [] 0.
Proof.
  intros Hq. revert buffer w.
  induction p as [st | st e | text k IH | ctx k IH]; intros buffer w;
    cbn [run_python snd]; try apply adds_refl; [apply IH|].
  pose proof (Hq ctx buffer w) as H.
  destruct (query ctx buffer w) as [[out b'] w']. cbn [snd] in H.
  apply (adds_trans d w w' _ [] [] 0 0); [exact H | apply IH].
Qed.

Lemma generate_code_adds (d : Z) (msgs : list Message) (m : string)
      (leaf : bool) (o : ApiRetryOptions) (w : World) :
  adds d w (snd (generate_code rt d msgs m leaf o w)) [] 1.
Proof.
  destruct (generate_code_world cfg rt d msgs m leaf o w)
    as (_ & _ & _ & failure & Hlog & _ & _).
  unfold generate_code in *.
  destruct (create rt (requests w) (chat_request rt msgs m leaf o)) as [c|e].
  - exists [Request d (chat_request rt msgs m leaf o)].
    split; [destruct (String.eqb _ ""); reflexivity|].
    cbn. rewrite Z.eqb_refl. split; reflexivity.
  - exists [Request d (chat_request rt msgs m leaf o);
            ApiCallFailed (as_error e)].
    split; [cbn; now rewrite <- app_assoc|].
    cbn. rewrite Z.eqb_refl. split; reflexivity.
Qed.

Lemma logStep_adds (run : nat) (d i : Z) (c : string) (o : option string)
      (h : option bool) (re : option string) (u : Usage) (w : World) :
  adds d w (logStep run d i c o h re u w) [i] 0.
Proof.
  exists [Step run d (mkStepData i c o h re u (getTotalUsage (accountant w)))].
  split; [reflexivity|]. cbn. rewrite Z.eqb_refl. split; reflexivity.
Qed.

Lemma turn_adds (child : ChildRun) (d : Z) (run : nat) (i : Z)
      (r : Run (PyState rt)) (w : World) :
  child_quiet d child ->
  exists steps,
    adds d w (snd (turn cfg rt child d run i r w)) steps 1 /\
    match fst (turn cfg rt child d run i r w) with
    | Raise _ => steps = []
    | _ => steps = [i + 1]
    end.
Proof.
  intros Hc. unfold turn.
  pose proof (generate_code_adds d (transcript r)
                (if d =? 0 then PRIMARY_AGENT cfg else SUB_AGENT cfg)
                (d =? MAX_DEPTH cfg) (retry_options cfg) w) as Hg.
  destruct (generate_code rt d (transcript r) _ _ _ w) as [[g | e] w1];
    cbn [fst snd] in *; [|exists []; now split].
  assert (Ht : adds d w (track (usage g) w1) [] 1).
  { change 1%nat with (1 + 0)%nat. rewrite <- (app_nil_r []).
    eapply adds_trans; [exact Hg | now apply adds_same_log]. }
  destruct (check_budget cfg rt _); [exists []; now split|].
  destruct (success g); cbn [negb].
  - pose proof (run_python_adds (llm_query cfg child d run) d
                  (runPythonAsync rt (py r) (code g)) "" (track (usage g) w1)
                  (fun c b w0 => llm_query_adds child d run c b w0 Hc))
      as Hp.
    destruct (run_python rt _ _ "" (track (usage g) w1))
      as [[[st raised] buffer] w2]. cbn [snd] in Hp.
    assert (H2 : adds d w w2 [] 1).
    { change 1%nat with (1 + 0)%nat. rewrite <- (app_nil_r []).
      eapply adds_trans; eauto. }
    destruct (final_result_set rt st); cbn [fst snd];
      exists [i + 1]; (split; [|reflexivity]).
    + change [i + 1] with (([] ++ [i + 1]) ++ [] ++ [])%list.
      change 1%nat with (1 + 0 + (0 + 0))%nat.
      eapply adds_trans;
        [eapply adds_trans; [exact H2 | apply logStep_adds]|].
      eapply adds_trans; now apply adds_silent.
    + change [i + 1] with ([] ++ [i + 1])%list.
      change 1%nat with (1 + 0)%nat.
      eapply adds_trans; [exact H2 | apply logStep_adds].
  - cbn [fst snd]. exists [i + 1]. split; [|reflexivity].
    change [i + 1] with ([] ++ [i + 1])%list. change 1%nat with (1 + 0)%nat.
    eapply adds_trans; [exact Ht | apply logStep_adds].
Qed.

Lemma turns_adds (child : ChildRun) (d : Z) (run : nat) (remaining : nat)
      (j : nat) (r : Run (PyState rt)) (w : World) :
  child_quiet d child ->
  exists k n,
    adds d w (snd (turns cfg rt child d run remaining (Z.of_nat j) r w))
         (step_range (S j) k) n /\
    (k <= remaining)%nat /\ (n <= remaining)%nat.
Proof.
  intros Hc. revert j r w.
  induction remaining as [|m IH]; intros j r w; cbn [turns].
  - exists 0%nat, 0%nat. split; [now apply adds_silent | lia].
  - destruct (turn_adds child d run (Z.of_nat j) r w Hc) as (steps & Ha & Hs).
    destruct (turn cfg rt child d run (Z.of_nat j) r w) as [[r' | v | e] w'];
      cbn [fst snd] in *; subst steps.
    + replace (Z.of_nat j + 1) with (Z.of_nat (S j)) in * by lia.
      destruct (IH (S j) r' w') as (k & n & Hk & Hle1 & Hle2).
      exists (S k), (1 + n)%nat. split; [|lia].
      change (step_range (S j) (S k))
        with ([Z.of_nat (S j)] ++ step_range (S (S j)) k)%list.
      eapply adds_trans; eauto.
    + exists 1%nat, 1%nat. split; [|lia].
      replace (Z.of_nat j + 1) with (Z.of_nat (S j)) in Ha by lia.
      exact Ha.
    + exists 0%nat, 1%nat. split; [exact Ha | lia].
Qed.

(** The steps one run logs are numbered [0], [1], [2], ... without a
    gap or a repetition, the last number is at most [MAX_CALLS], and the
    run makes at most [MAX_CALLS] requests of its own. *)
Theorem steps_are_numbered_in_order
        (context : string) (depth : Z) (parent : option nat) (w : World) :
  exists events count,
    log (snd (subagent cfg rt context depth parent w))
      = (log w ++ events)%list /\
    steps_at depth events = map Z.of_nat (seq 0 count) /\
    (count <= S (Z.to_nat (MAX_CALLS cfg)))%nat /\
    (List.length (requests_at depth events) <= Z.to_nat (MAX_CALLS cfg))%nat.
Proof.
  rewrite subagent_unfold. unfold subagent_body.
  pose proof (subagent_quiet depth) as Hc.
  set (w0 := emit (AgentStart (runs w) depth parent) _).
  assert (H0 : adds depth w w0 [] 0).
  { change (@nil Z) with (@nil Z ++ [])%list. change 0%nat with (0 + 0)%nat.
    eapply adds_trans; [|apply adds_silent; reflexivity].
    now apply adds_same_log. }
  pose proof (fun p b w' =>
                run_python_adds (llm_query cfg (subagent cfg rt) depth (runs w))
                  depth p b w'
                  (fun c b0 w1 =>
                     llm_query_adds (subagent cfg rt) depth (runs w) c b0 w1 Hc))
    as Hp.
  pose proof (Hp (runPythonAsync rt (loadPyodide rt) (setup_code rt context))
                 "" w0) as H1.
  destruct (run_python rt _ _ "" w0) as [[[st raised] b1] w1].
  cbn [snd] in H1.
  pose proof (adds_trans _ _ _ _ _ _ _ _ H0 H1) as H01. cbn in H01.
  destruct raised.
  { destruct H01 as (events & Hl & Hs & Hr). exists events, 0%nat.
    cbn [snd]. repeat split; [exact Hl | exact Hs | lia | lia]. }
  pose proof (Hp (runPythonAsync rt st initial_code) "" w1) as H2.
  destruct (run_python rt _ _ "" w1) as [[[st2 raised2] b2] w2].
  cbn [snd] in H2.
  pose proof (adds_trans _ _ _ _ _ _ _ _ H01 H2) as H02. cbn in H02.
  destruct raised2.
  { destruct H02 as (events & Hl & Hs & Hr). exists events, 0%nat.
    cbn [snd]. repeat split; [exact Hl | exact Hs | lia | lia]. }
  match goal with
  | |- context [turns cfg rt _ depth (runs w) ?n 0 ?r ?w3] =>
      destruct (turns_adds (subagent cfg rt) depth (runs w) n 0 r w3 Hc)
        as (k & m & Hk & Hle1 & Hle2);
      pose proof (logStep_adds (runs w) depth 0 initial_code
                    (Some (trim b2)) (Some false) None (noUsage) w2) as H3
  end.
  pose proof (adds_trans _ _ _ _ _ _ _ _ H02 H3) as H03. cbn in H03.
  pose proof (adds_trans _ _ _ _ _ _ _ _ H03 Hk) as H04. cbn in H04.
  destruct H04 as (events & Hl & Hs & Hr).
  exists events, (S k). split; [exact Hl|]. split; [exact Hs|]. lia.
Qed.

End Facts.

End StepFacts.
